(** * INLL seat sniper: the availability checker and its watcher

  A shallow embedding of [availability-check.py] and [action-watch.py].
  Python [str] values are modelled as [string], read as sequences of code
  points below 256; Python [int] as [Z]; lists as [list]; sets of strings
  as [gset string].  The HTTP client, the HTML parser and the subprocess
  call are inputs of the model: a check starts from the tables and the
  visible text that the parser hands over, a watcher cycle from the
  outcome of the subprocess. *)

From Stdlib Require Import ZArith Lia Ascii.
From stdpp Require Import base list strings gmap.

Local Open Scope Z_scope.

(** ** Python string operations *)

Module Text.

Definition code (c : ascii) : N := Ascii.N_of_ascii c.

Definition in_range (lo hi : N) (c : ascii) : bool :=
  ((lo <=? code c) && (code c <=? hi))%N.

(** [str.isspace] on one character. *)
Definition is_space (c : ascii) : bool :=
  in_range 9 13 c || in_range 28 32 c
  || (code c =? 133)%N || (code c =? 160)%N.

Definition is_digit (c : ascii) : bool := in_range 48 57 c.

Definition is_ascii_alpha (c : ascii) : bool :=
  in_range 65 90 c || in_range 97 122 c.

(** [str.lower] on one character: A-Z and the upper-case letters of the
    Latin-1 block move by 32, everything else stays. *)
Definition lower_char (c : ascii) : ascii :=
  if in_range 65 90 c
     || (in_range 192 222 c && negb (code c =? 215)%N)
  then Ascii.ascii_of_N (code c + 32)
  else c.

Fixpoint lower (s : string) : string :=
  match s with
  | EmptyString => EmptyString
  | String c s' => String (lower_char c) (lower s')
  end.

(** [sep.join(l)] *)
Fixpoint join (sep : string) (l : list string) : string :=
  match l with
  | [] => ""
  | x :: l' =>
      match l' with
      | [] => x
      | _ :: _ => x +:+ sep +:+ join sep l'
      end
  end.

(** [t.startswith(k)] *)
Fixpoint startswith (k t : string) : bool :=
  match k, t with
  | EmptyString, _ => true
  | String _ _, EmptyString => false
  | String a k', String b t' => bool_decide (a = b) && startswith k' t'
  end.

(** [k in t] on strings. *)
Fixpoint contains (k t : string) : bool :=
  startswith k t
  || match t with
     | EmptyString => false
     | String _ t' => contains k t'
     end.

(** What [k in t] means: [k] occurs in [t] as a contiguous block. *)
Definition substring_of (k t : string) : Prop :=
  ∃ p s, t = p +:+ k +:+ s.

(** [any(k in t for k in ks)] *)
Definition any_in (ks : list string) (t : string) : bool :=
  existsb (fun k => contains k t) ks.

(** [name in l] and [l.index(name)] on a list of strings; [index] is
    [None] where Python raises [ValueError]. *)
Definition mem (x : string) (l : list string) : bool :=
  existsb (fun y => bool_decide (x = y)) l.

Fixpoint index (x : string) (l : list string) : option nat :=
  match l with
  | [] => None
  | y :: l' => if bool_decide (y = x) then Some 0%nat else S <$> index x l'
  end.

(** [s.lstrip()], [s.rstrip()], [s.strip()] *)
Fixpoint lstrip (s : string) : string :=
  match s with
  | EmptyString => EmptyString
  | String c s' => if is_space c then lstrip s' else s
  end.

Fixpoint rstrip (s : string) : string :=
  match s with
  | EmptyString => EmptyString
  | String c s' =>
      match rstrip s' with
      | EmptyString => if is_space c then EmptyString else String c EmptyString
      | r => String c r
      end
  end.

Definition strip (s : string) : string := rstrip (lstrip s).

(** [s.split(sep)] for a one-character separator: the pieces between the
    separators, always at least one. *)
Fixpoint split (sep : ascii) (s : string) : list string :=
  match s with
  | EmptyString => [EmptyString]
  | String c s' =>
      if bool_decide (c = sep) then EmptyString :: split sep s'
      else match split sep s' with
           | [] => [String c EmptyString]
           | p :: ps => String c p :: ps
           end
  end.

(** A Python string is falsy exactly when it is empty. *)
Definition truthy (s : string) : bool :=
  match s with EmptyString => false | String _ _ => true end.

End Text.

(** ** Python's [str] in full *)

Module Unicode.

(** A [str] is the sequence of its code points.  Python admits every
    code point up to U+10FFFF, the surrogates U+D800 to U+DFFF
    included. *)
Definition str : Type := list N.

(** A [bytes] value: numbers below 256. *)
Definition bytes : Type := list N.

Definition is_code_point (c : N) : Prop := (c ≤ 1114111)%N.

(** Every element is a code point that Python admits. *)
Definition is_str (s : str) : Prop := Forall is_code_point s.

(** The [str] that a text of the Latin-1 range stands for. *)
Fixpoint of_string (s : string) : str :=
  match s with
  | EmptyString => []
  | String c s' => Text.code c :: of_string s'
  end.

(** A [str] is falsy exactly when it is empty. *)
Definition truthy (s : str) : bool :=
  match s with [] => false | _ :: _ => true end.

Definition is_high_surrogate (c : N) : bool :=
  ((55296 <=? c) && (c <=? 56319))%N.

Definition is_low_surrogate (c : N) : bool :=
  ((56320 <=? c) && (c <=? 57343))%N.

Definition is_surrogate (c : N) : bool :=
  ((55296 <=? c) && (c <=? 57343))%N.

(** The text holds a surrogate. *)
Definition has_surrogate (s : str) : bool := existsb is_surrogate s.

(** The text holds a high surrogate directly followed by a low one. *)
Fixpoint has_pair (s : str) : bool :=
  match s with
  | [] => false
  | c :: s' =>
      match s' with
      | c2 :: _ => (is_high_surrogate c && is_low_surrogate c2) || has_pair s'
      | [] => false
      end
  end.

(** [sep.join(l)] *)
Fixpoint join (sep : str) (l : list str) : str :=
  match l with
  | [] => []
  | x :: l' =>
      match l' with
      | [] => x
      | _ :: _ => x ++ sep ++ join sep l'
      end
  end.

(** The UTF-8 bytes of one code point; a surrogate has none. *)
Definition utf8_char (c : N) : option bytes :=
  if (c <? 128)%N then Some [c]
  else if (c <? 2048)%N then
    Some [N.lor 192 (N.shiftr c 6); N.lor 128 (N.land c 63)]
  else if (c <? 65536)%N then
    if is_surrogate c then None
    else Some [N.lor 224 (N.shiftr c 12);
               N.lor 128 (N.land (N.shiftr c 6) 63);
               N.lor 128 (N.land c 63)]
  else
    Some [N.lor 240 (N.shiftr c 18);
          N.lor 128 (N.land (N.shiftr c 12) 63);
          N.lor 128 (N.land (N.shiftr c 6) 63);
          N.lor 128 (N.land c 63)].

(** [s.encode("utf-8")]: the bytes, or nothing when the codec raises
    [UnicodeEncodeError], which it does at the first surrogate. *)
Fixpoint encode_utf8 (s : str) : option bytes :=
  match s with
  | [] => Some []
  | c :: s' =>
      match utf8_char c with
      | None => None
      | Some b =>
          match encode_utf8 s' with
          | None => None
          | Some bs => Some (b ++ bs)
          end
      end
  end.

End Unicode.

(** ** Effects: exceptions and observable events *)

Module Py.

Inductive exn :=
| ValueError | IndexError | AttributeError | TypeError
| JSONDecodeError | SubprocessError | OSError | RequestException.

(** What a run leaves behind: which extractor was entered, what was
    printed, what was posted. *)
Inductive event :=
| Entered (fn : string)
| Printed (line : string)
| Posted (url : string) (data : Unicode.bytes).

Inductive result (A : Type) :=
| Ok (a : A)
| Raise (e : exn).
Arguments Ok {A} a.
Arguments Raise {A} e.

(** A computation: the events it emitted, then its value or the
    exception that ended it. *)
Definition M (A : Type) : Type := (list event * result A)%type.

Definition ret {A} (a : A) : M A := ([], Ok a).
Definition raise {A} (e : exn) : M A := ([], Raise e).
Definition emit (ev : event) : M unit := ([ev], Ok tt).

Definition bind {A B} (m : M A) (f : A → M B) : M B :=
  match m with
  | (l, Ok a) => let '(l', r) := f a in (l ++ l', r)
  | (l, Raise e) => (l, Raise e)
  end.

(** [try: m except <handles>: h] *)
Definition try_except {A} (m : M A) (handles : exn → bool) (h : exn → M A)
  : M A :=
  match m with
  | (l, Ok a) => (l, Ok a)
  | (l, Raise e) =>
      if handles e then let '(l', r) := h e in (l ++ l', r)
      else (l, Raise e)
  end.

Definition events {A} (m : M A) : list event := fst m.
Definition outcome {A} (m : M A) : result A := snd m.

(** The list that a run returned; nothing when it raised. *)
Definition outcome_list {A} (m : M (list A)) : list A :=
  match outcome m with
  | Ok l => l
  | Raise _ => []
  end.

(** [for x in l: ... append(f x)] *)
Fixpoint for_each {A B} (f : A → M B) (l : list A) : M (list B) :=
  match l with
  | [] => ret []
  | x :: l' => bind (f x) (fun y => bind (for_each f l') (fun ys => ret (y :: ys)))
  end.

End Py.

Notation "x <- m ; k" := (Py.bind m (fun x => k))
(at level 20, m at level 100, k at level 200, only parsing).
Notation "'_' <- m ; k" := (Py.bind m (fun _ => k))
(at level 20, m at level 100, k at level 200, only parsing).

(** ** The fragment of [re] that the fallback pattern uses *)

Module Regex.

Inductive re :=
| Chr (c : ascii)                  (* one literal character *)
| Cls (p : ascii → bool)           (* one character of a class *)
| ClsPlus (p : ascii → bool)       (* class+, greedy *)
| Cat (r1 r2 : re)
| Rep (n : nat) (r : re)           (* r{n} *)
| Opt (r : re)                     (* r?, greedy *)
| Grp (r : re)                     (* (r) *)
| Named (name : string) (r : re).  (* (?P<name>r) *)

Definition groups := gmap string string.

(** [\s], [\d], [\w] on [str] patterns, and the class [[A-Za-z-]]. *)
Definition cls_s (c : ascii) : bool := Text.is_space c.
Definition cls_d (c : ascii) : bool := Text.is_digit c.
Definition cls_w (c : ascii) : bool :=
  Text.is_digit c || Text.is_ascii_alpha c || bool_decide (c = "_"%char)
  || (Text.code c =? 170)%N || (Text.code c =? 178)%N
  || (Text.code c =? 179)%N || (Text.code c =? 181)%N
  || (Text.code c =? 185)%N || (Text.code c =? 186)%N
  || Text.in_range 188 190 c || Text.in_range 192 214 c
  || Text.in_range 216 246 c || Text.in_range 248 255 c.
Definition cls_day (c : ascii) : bool :=
  Text.is_ascii_alpha c || bool_decide (c = "-"%char).

Fixpoint take (n : nat) (s : string) : string :=
  match n, s with
  | S n', String c s' => String c (take n' s')
  | _, _ => EmptyString
  end.

(** The text between the start [s] of a match and what is left [rest]. *)
Definition matched (s rest : string) : string :=
  take (String.length s - String.length rest) s.

Section Exec.
Context {R : Type}.

(** class*, longest first, giving characters back one by one. *)
Fixpoint cls_star (p : ascii → bool) (s : string)
    (k : string → option R) : option R :=
  match s with
  | String c s' =>
      if p c then
        match cls_star p s' k with
        | Some x => Some x
        | None => k s
        end
      else k s
  | EmptyString => k s
  end.

Definition cls_plus (p : ascii → bool) (s : string)
    (k : string → option R) : option R :=
  match s with
  | String c s' => if p c then cls_star p s' k else None
  | EmptyString => None
  end.

(** Backtracking match of [r] at the start of [s]; [k] continues with
    the rest of the text and the groups bound so far. *)
Fixpoint exec (r : re) (s : string) (g : groups)
    (k : string → groups → option R) : option R :=
  match r with
  | Chr c =>
      match s with
      | String a s' => if bool_decide (a = c) then k s' g else None
      | EmptyString => None
      end
  | Cls p =>
      match s with
      | String a s' => if p a then k s' g else None
      | EmptyString => None
      end
  | ClsPlus p => cls_plus p s (fun s' => k s' g)
  | Cat r1 r2 => exec r1 s g (fun s1 g1 => exec r2 s1 g1 k)
  | Rep n r1 =>
      (fix rep (n : nat) (s : string) (g : groups) : option R :=
         match n with
         | O => k s g
         | S n' => exec r1 s g (fun s1 g1 => rep n' s1 g1)
         end) n s g
  | Opt r1 =>
      match exec r1 s g k with
      | Some x => Some x
      | None => k s g
      end
  | Grp r1 => exec r1 s g k
  | Named name r1 =>
      exec r1 s g (fun s1 g1 => k s1 (<[name := matched s s1]> g1))
  end.
End Exec.

(** [pattern.match(s)]: the rest of the text and the groups. *)
Definition match_here (r : re) (s : string) : option (string * groups) :=
  exec r s ∅ (fun rest g => Some (rest, g)).

(** [pattern.finditer(text)]: matches left to right, not overlapping.
    [skip] counts the characters still covered by the last match. *)
Fixpoint finditer_from (r : re) (s : string) (skip : nat) : list groups :=
  match skip with
  | S n =>
      match s with
      | String _ s' => finditer_from r s' n
      | EmptyString => []
      end
  | O =>
      match match_here r s with
      | Some (rest, g) =>
          g :: match s with
               | String _ s' =>
                   finditer_from r s'
                     (String.length s - String.length rest - 1)
               | EmptyString => []
               end
      | None =>
          match s with
          | String _ s' => finditer_from r s' 0
          | EmptyString => []
          end
      end
  end.

Definition finditer (r : re) (text : string) : list groups :=
  finditer_from r text 0.

(** [match.group(name)] for a group that took part in the match. *)
Definition group (g : groups) (name : string) : string :=
  default "" (g !! name).

Fixpoint lit (s : string) : re :=
  match s with
  | EmptyString => Rep 0 (Chr "x")
  | String c EmptyString => Chr c
  | String c s' => Cat (Chr c) (lit s')
  end.

Fixpoint cat (rs : list re) : re :=
  match rs with
  | [] => Rep 0 (Chr "x")
  | [r] => r
  | r :: rs' => Cat r (cat rs')
  end.

End Regex.

(** ** The [json] module: [dumps] with [indent=2] and [loads] *)

Module Json.
Import Py.

#[warnings="-register-all"]
Inductive value :=
| JNull
| JBool (b : bool)
| JInt (z : Z)
| JFloat (lexeme : Unicode.str)
| JStr (s : Unicode.str)
| JArr (items : list value)
| JObj (fields : list (Unicode.str * value)).

Definition dquote : ascii := "034"%char.
Definition backslash : ascii := "\"%char.
Definition newline : ascii := "010"%char.

(** *** Dictionaries, in insertion order *)

(** [d[k] = v]: a key already present keeps its place. *)
Fixpoint dict_set {V} (k : Unicode.str) (v : V) (d : list (Unicode.str * V))
  : list (Unicode.str * V) :=
  match d with
  | [] => [(k, v)]
  | (k', v') :: d' =>
      if bool_decide (k' = k) then (k', v) :: d'
      else (k', v') :: dict_set k v d'
  end.

(** [dict(pairs)] *)
Definition dict {V} (pairs : list (Unicode.str * V)) : list (Unicode.str * V) :=
  fold_left (fun d kv => dict_set kv.1 kv.2 d) pairs [].

(** [d.get(k)] *)
Fixpoint dict_get {V} (k : Unicode.str) (d : list (Unicode.str * V))
  : option V :=
  match d with
  | [] => None
  | (k', v) :: d' => if bool_decide (k' = k) then Some v else dict_get k d'
  end.

(** *** Encoding *)

Definition hex_digit (n : N) : ascii :=
  if (n <? 10)%N then Ascii.ascii_of_N (48 + n) else Ascii.ascii_of_N (87 + n).

(** ['{0:04x}'.format(n)] for [n] below 0x10000. *)
Definition hex4 (n : N) : string :=
  String (hex_digit (n / 4096))
    (String (hex_digit (n / 256 mod 16))
       (String (hex_digit (n / 16 mod 16))
          (String (hex_digit (n mod 16)) ""))).

(** The codes of the four digits of [hex4 n]. *)
Definition hex_codes (n : N) : Unicode.str :=
  [Text.code (hex_digit (n / 4096)); Text.code (hex_digit (n / 256 mod 16));
   Text.code (hex_digit (n / 16 mod 16)); Text.code (hex_digit (n mod 16))].

(** The two escapes that stand for a character beyond the basic plane:
    with [n] the character less 0x10000, the numbers
    [0xd800 | ((n >> 10) & 0x3ff)] and [0xdc00 | (n & 0x3ff)]. *)
Definition high_half (c : N) : N :=
  N.lor 55296 (N.land (N.shiftr (c - 65536) 10) 1023).

Definition low_half (c : N) : N :=
  N.lor 56320 (N.land (c - 65536) 1023).

(** One character of a string under [ensure_ascii]: the short escapes,
    the printable ASCII characters as they are, any other character of
    the basic plane as [\uXXXX], and a character beyond it as the two
    escapes of its surrogate pair. *)
Definition escape_char (c : N) : string :=
  if (c =? 34)%N then String backslash (String dquote "")
  else if (c =? 92)%N then "\\"
  else if (c =? 8)%N then "\b"
  else if (c =? 12)%N then "\f"
  else if (c =? 10)%N then "\n"
  else if (c =? 13)%N then "\r"
  else if (c =? 9)%N then "\t"
  else if ((32 <=? c) && (c <=? 126))%N then String (Ascii.ascii_of_N c) ""
  else if (c <? 65536)%N then "\u" +:+ hex4 c
  else "\u" +:+ hex4 (high_half c) +:+ "\u" +:+ hex4 (low_half c).

Fixpoint escape (s : Unicode.str) : string :=
  match s with
  | [] => ""
  | c :: s' => escape_char c +:+ escape s'
  end.

Definition encode_string (s : Unicode.str) : string :=
  String dquote (escape s +:+ String dquote "").

Fixpoint spaces (n : nat) : string :=
  match n with
  | O => ""
  | S n' => String " " (spaces n')
  end.

(** The line break before an entry at nesting depth [level]. *)
Definition newline_indent (level : nat) : string :=
  String newline (spaces (2 * level)).

(** One entry of a dictionary: the key, a colon and a space, the value. *)
Definition member_text (kv : Unicode.str * Unicode.str) : string :=
  encode_string kv.1 +:+ ": " +:+ encode_string kv.2.

(** [json.dumps(d, indent=2)] for a dictionary of strings at depth
    [level]. *)
Definition dumps_dict (level : nat) (d : list (Unicode.str * Unicode.str))
  : string :=
  match d with
  | [] => "{}"
  | _ :: _ =>
      "{" +:+ newline_indent (S level)
      +:+ Text.join ("," +:+ newline_indent (S level)) (map member_text d)
      +:+ newline_indent level +:+ "}"
  end.

(** [json.dumps(ds, indent=2)] for a list of dictionaries of strings. *)
Definition dumps (ds : list (list (Unicode.str * Unicode.str))) : string :=
  match ds with
  | [] => "[]"
  | _ :: _ =>
      "[" +:+ newline_indent 1
      +:+ Text.join ("," +:+ newline_indent 1) (map (dumps_dict 1) ds)
      +:+ newline_indent 0 +:+ "]"
  end.

(** The value that a dictionary of strings stands for, and its entries. *)
Definition member_value (kv : Unicode.str * Unicode.str)
  : Unicode.str * value :=
  (kv.1, JStr kv.2).

Definition object_of (d : list (Unicode.str * Unicode.str)) : value :=
  JObj (map member_value d).

(** *** Decoding *)

(** The code point [c] is the character [ch]. *)
Definition is_char (ch : ascii) (c : N) : bool :=
  (c =? Text.code ch)%N.

Definition is_ws (c : N) : bool :=
  match c with
  | 32%N | 9%N | 10%N | 13%N => true
  | _ => false
  end.

Fixpoint skip_ws (s : Unicode.str) : Unicode.str :=
  match s with
  | [] => []
  | c :: s' => if is_ws c then skip_ws s' else s
  end.

(** The text after the character [ch], when [s] starts with it. *)
Definition expect (ch : ascii) (s : Unicode.str) : option Unicode.str :=
  match s with
  | [] => None
  | c :: s' => if is_char ch c then Some s' else None
  end.

Definition is_digit (c : N) : bool := ((48 <=? c) && (c <=? 57))%N.

Definition hex_value (c : N) : option N :=
  if is_digit c then Some (c - 48)%N
  else if ((97 <=? c) && (c <=? 102))%N then Some (c - 87)%N
  else if ((65 <=? c) && (c <=? 70))%N then Some (c - 55)%N
  else None.

(** The number that four hexadecimal digits write. *)
Definition hex4_value (h1 h2 h3 h4 : N) : option N :=
  match hex_value h1, hex_value h2, hex_value h3, hex_value h4 with
  | Some a, Some b, Some c, Some d => Some (((a * 16 + b) * 16 + c) * 16 + d)%N
  | _, _, _, _ => None
  end.

(** The character that a surrogate pair stands for. *)
Definition join_surrogates (uni uni2 : N) : N :=
  (65536 + N.lor (N.shiftl (uni - 55296) 10) (uni2 - 56320))%N.

(** The character that follows a backslash, other than [u]. *)
Definition unescape (e : N) : option N :=
  match e with
  | 34%N => Some 34%N
  | 92%N => Some 92%N
  | 47%N => Some 47%N
  | 98%N => Some 8%N
  | 102%N => Some 12%N
  | 110%N => Some 10%N
  | 114%N => Some 13%N
  | 116%N => Some 9%N
  | _ => None
  end.

Definition prepend (c : N) (r : option (Unicode.str * Unicode.str))
  : option (Unicode.str * Unicode.str) :=
  match r with
  | Some (str, rest) => Some (c :: str, rest)
  | None => None
  end.

(** [scanstring], entered after the opening quote: the decoded string
    and the text after the closing quote.  An escape [\uXXXX] that names
    a high surrogate and is followed by the escape of a low surrogate is
    read with it as one character; a following [\u] that is not made of
    four hexadecimal digits is an error; any other escape [\uXXXX] is
    the character of that number, a lone surrogate included. *)
Fixpoint scanstring (s : Unicode.str) : option (Unicode.str * Unicode.str) :=
  match s with
  | [] => None
  | c :: s' =>
      if is_char dquote c then Some ([], s')
      else if is_char backslash c then
        match s' with
        | [] => None
        | e :: s'' =>
            if is_char "u" e then
              match s'' with
              | h1 :: h2 :: h3 :: h4 :: s3 =>
                  match hex4_value h1 h2 h3 h4 with
                  | Some uni =>
                      if Unicode.is_high_surrogate uni then
                        match s3 with
                        | b :: u :: g1 :: g2 :: g3 :: g4 :: s4 =>
                            if is_char backslash b && is_char "u" u then
                              match hex4_value g1 g2 g3 g4 with
                              | Some uni2 =>
                                  if Unicode.is_low_surrogate uni2
                                  then prepend (join_surrogates uni uni2)
                                         (scanstring s4)
                                  else prepend uni (scanstring s3)
                              | None => None
                              end
                            else prepend uni (scanstring s3)
                        | _ => prepend uni (scanstring s3)
                        end
                      else prepend uni (scanstring s3)
                  | None => None
                  end
              | _ => None
              end
            else
              match unescape e with
              | Some ch => prepend ch (scanstring s'')
              | None => None
              end
        end
      else if (c <? 32)%N then None
      else prepend c (scanstring s')
  end.

(** What [scanstring] makes of the escaped form of [s]: a high
    surrogate directly followed by a low one comes back as the one
    character of the pair, everything else as it is. *)
Fixpoint read_back (s : Unicode.str) : Unicode.str :=
  match s with
  | [] => []
  | c :: s' =>
      match s' with
      | c2 :: s'' =>
          if Unicode.is_high_surrogate c && Unicode.is_low_surrogate c2
          then join_surrogates c c2 :: read_back s''
          else c :: read_back s'
      | [] => [c]
      end
  end.

Fixpoint strip_prefix (p : string) (s : Unicode.str) : option Unicode.str :=
  match p, s with
  | EmptyString, _ => Some s
  | String a p', b :: s' =>
      if is_char a b then strip_prefix p' s' else None
  | String _ _, [] => None
  end.

Fixpoint span_digits (s : Unicode.str) : Unicode.str * Unicode.str :=
  match s with
  | [] => ([], [])
  | c :: s' =>
      if is_digit c
      then let '(d, r) := span_digits s' in (c :: d, r)
      else ([], s)
  end.

(** The integer part: an optional minus sign, then [0] alone or digits
    that do not start with [0]. *)
Definition scan_int_part (s : Unicode.str)
  : option (Unicode.str * Unicode.str) :=
  let '(sign, s1) :=
    match expect "-" s with
    | Some s' => ([Text.code "-"], s')
    | None => ([], s)
    end in
  match s1 with
  | [] => None
  | c :: s2 =>
      if is_char "0" c then Some (sign ++ [c], s2)
      else if is_digit c
      then let '(d, r) := span_digits s2 in Some (sign ++ c :: d, r)
      else None
  end.

(** The optional fraction: a dot and at least one digit. *)
Definition scan_frac (s : Unicode.str) : Unicode.str * Unicode.str :=
  match expect "." s with
  | Some s' =>
      match span_digits s' with
      | ([], _) => ([], s)
      | (d, r) => (Text.code "." :: d, r)
      end
  | None => ([], s)
  end.

(** The optional exponent: [e] or [E], an optional sign, at least one
    digit. *)
Definition scan_exp (s : Unicode.str) : Unicode.str * Unicode.str :=
  match s with
  | e :: s' =>
      if is_char "e" e || is_char "E" e then
        let '(sg, s2) :=
          match s' with
          | c :: s3 =>
              if is_char "+" c || is_char "-" c
              then ([c], s3) else ([], s')
          | [] => ([], s')
          end in
        match span_digits s2 with
        | ([], _) => ([], s)
        | (d, r) => (e :: sg ++ d, r)
        end
      else ([], s)
  | [] => ([], s)
  end.

Fixpoint nat_of_digits (acc : N) (s : Unicode.str) : N :=
  match s with
  | [] => acc
  | c :: s' => nat_of_digits (10 * acc + (c - 48))%N s'
  end.

Definition int_of (lexeme : Unicode.str) : Z :=
  match expect "-" lexeme with
  | Some ds => - Z.of_N (nat_of_digits 0 ds)
  | None => Z.of_N (nat_of_digits 0 lexeme)
  end.

Definition scan_number (s : Unicode.str) : option (value * Unicode.str) :=
  match scan_int_part s with
  | None => None
  | Some (integer, r1) =>
      let '(frac, r2) := scan_frac r1 in
      let '(exp, r3) := scan_exp r2 in
      if Unicode.truthy frac || Unicode.truthy exp
      then Some (JFloat (integer ++ frac ++ exp), r3)
      else Some (JInt (int_of integer), r3)
  end.

Definition scan_word (w : string) (v : value) (s : Unicode.str)
  : option (value * Unicode.str) :=
  match strip_prefix w s with
  | Some r => Some (v, r)
  | None => None
  end.

(** The scanner on anything but a string, an object or an array. *)
Definition scan_atom (s : Unicode.str) : option (value * Unicode.str) :=
  match scan_word "null" JNull s with Some x => Some x | None =>
  match scan_word "true" (JBool true) s with Some x => Some x | None =>
  match scan_word "false" (JBool false) s with Some x => Some x | None =>
  match scan_number s with Some x => Some x | None =>
  match scan_word "NaN" (JFloat (Unicode.of_string "NaN")) s
  with Some x => Some x | None =>
  match scan_word "Infinity" (JFloat (Unicode.of_string "Infinity")) s
  with Some x => Some x | None =>
  scan_word "-Infinity" (JFloat (Unicode.of_string "-Infinity")) s
  end end end end end end.

Section Loops.
Variable scan : Unicode.str → option (value * Unicode.str).

(** The loop of [JSONObject], entered after the opening quote of a
    key; [acc] holds the pairs read so far. *)
Fixpoint members (fuel : nat) (s : Unicode.str)
    (acc : list (Unicode.str * value)) : option (value * Unicode.str) :=
  match fuel with
  | O => None
  | S fuel' =>
      match scanstring s with
      | None => None
      | Some (key, rest) =>
          match expect ":" (skip_ws rest) with
          | None => None
          | Some rest1 =>
              match scan (skip_ws rest1) with
              | None => None
              | Some (v, rest2) =>
                  let acc := acc ++ [(key, v)] in
                  match expect "}" (skip_ws rest2) with
                  | Some rest3 => Some (JObj (dict acc), rest3)
                  | None =>
                      match expect "," (skip_ws rest2) with
                      | None => None
                      | Some rest3 =>
                          match expect dquote (skip_ws rest3) with
                          | Some rest4 => members fuel' rest4 acc
                          | None => None
                          end
                      end
                  end
              end
          end
      end
  end.

(** The loop of [JSONArray], entered at the first character of an
    element. *)
Fixpoint items (fuel : nat) (s : Unicode.str) (acc : list value)
  : option (value * Unicode.str) :=
  match fuel with
  | O => None
  | S fuel' =>
      match scan s with
      | None => None
      | Some (v, rest) =>
          let acc := acc ++ [v] in
          match expect "]" (skip_ws rest) with
          | Some rest1 => Some (JArr acc, rest1)
          | None =>
              match expect "," (skip_ws rest) with
              | Some rest1 => items fuel' (skip_ws rest1) acc
              | None => None
              end
          end
      end
  end.
End Loops.

(** [scan_once]: one JSON value at the start of [s]. *)
Fixpoint scan_once (fuel : nat) (s : Unicode.str)
  : option (value * Unicode.str) :=
  match fuel with
  | O => None
  | S fuel' =>
      match s with
      | [] => None
      | c :: s' =>
          if is_char dquote c then
            match scanstring s' with
            | Some (str, rest) => Some (JStr str, rest)
            | None => None
            end
          else if is_char "{" c then
            match expect "}" (skip_ws s') with
            | Some rest => Some (JObj [], rest)
            | None =>
                match expect dquote (skip_ws s') with
                | Some rest => members (scan_once fuel') fuel' rest []
                | None => None
                end
            end
          else if is_char "[" c then
            match expect "]" (skip_ws s') with
            | Some rest => Some (JArr [], rest)
            | None => items (scan_once fuel') fuel' (skip_ws s') []
            end
          else scan_atom s
      end
  end.

(** [json.loads(s)]: one value, white space around it, nothing else.
    Every call of the scanner is on a shorter text, so the length of the
    text bounds the recursion. *)
Definition loads (s : Unicode.str) : result value :=
  match scan_once (S (length s)) (skip_ws s) with
  | Some (v, rest) =>
      match skip_ws rest with
      | [] => Ok v
      | _ :: _ => Raise JSONDecodeError
      end
  | None => Raise JSONDecodeError
  end.

(** What follows the opening quote of an entry, up to [tail]. *)
Definition member_body (kv : Unicode.str * Unicode.str) (tail : Unicode.str)
  : Unicode.str :=
  Unicode.of_string (escape kv.1)
  ++ 34%N :: 58%N :: 32%N :: Unicode.of_string (encode_string kv.2) ++ tail.

(** The entry that the scanner reads from the text of [kv]. *)
Definition member_read (kv : Unicode.str * Unicode.str)
  : Unicode.str * value :=
  (read_back kv.1, JStr (read_back kv.2)).

Definition is_entry (kv : Unicode.str * Unicode.str) : Prop :=
  Unicode.is_str kv.1 ∧ Unicode.is_str kv.2.

End Json.

(** ** Sessions over all of [str] *)

Module Wide.
Import Py.

(** The dataclass [Session] with fields that range over all of [str].
    The JSON rendering and the watcher never look inside a field, so they
    are modelled on these sessions. *)
Record Session := {
  location : Unicode.str;
  schedule : Unicode.str;
  hours : Unicode.str;
  days : Unicode.str;
  start_date : Unicode.str;
  end_date : Unicode.str;
  fee : Unicode.str;
  reference : Unicode.str;
  availability : Unicode.str;
  action_text : Unicode.str
}.

(** [asdict(s)]: the ten fields in the order of their declaration. *)
Definition asdict (s : Session) : list (Unicode.str * Unicode.str) :=
  [(Unicode.of_string "location", location s);
   (Unicode.of_string "schedule", schedule s);
   (Unicode.of_string "hours", hours s);
   (Unicode.of_string "days", days s);
   (Unicode.of_string "start_date", start_date s);
   (Unicode.of_string "end_date", end_date s);
   (Unicode.of_string "fee", fee s);
   (Unicode.of_string "reference", reference s);
   (Unicode.of_string "availability", availability s);
   (Unicode.of_string "action_text", action_text s)].

(** The object that a session is written as: its ten fields, each a
    string. *)
Definition session_object (s : Session) : Json.value :=
  Json.JObj
    [(Unicode.of_string "location", Json.JStr (location s));
     (Unicode.of_string "schedule", Json.JStr (schedule s));
     (Unicode.of_string "hours", Json.JStr (hours s));
     (Unicode.of_string "days", Json.JStr (days s));
     (Unicode.of_string "start_date", Json.JStr (start_date s));
     (Unicode.of_string "end_date", Json.JStr (end_date s));
     (Unicode.of_string "fee", Json.JStr (fee s));
     (Unicode.of_string "reference", Json.JStr (reference s));
     (Unicode.of_string "availability", Json.JStr (availability s));
     (Unicode.of_string "action_text", Json.JStr (action_text s))].

(** The fields of a session, in the order of their declaration. *)
Definition fields (s : Session) : list Unicode.str :=
  [location s; schedule s; hours s; days s; start_date s; end_date s;
   fee s; reference s; availability s; action_text s].

(** The session whose fields are read back from their escaped form. *)
Definition read_back (s : Session) : Session :=
  {| location := Json.read_back (location s);
     schedule := Json.read_back (schedule s);
     hours := Json.read_back (hours s);
     days := Json.read_back (days s);
     start_date := Json.read_back (start_date s);
     end_date := Json.read_back (end_date s);
     fee := Json.read_back (fee s);
     reference := Json.read_back (reference s);
     availability := Json.read_back (availability s);
     action_text := Json.read_back (action_text s) |}.

(** The [json] branch of [output_sessions]: one [print] of the dump. *)
Definition output_sessions_json (sessions : list Session) : M unit :=
  emit (Printed (Json.dumps (map asdict sessions))).

End Wide.

(** ** The checker: [availability-check.py] *)

Module Checker.
Import Py.

Record Session := {
  location : string;
  schedule : string;
  hours : string;
  days : string;
  start_date : string;
  end_date : string;
  fee : string;
  reference : string;
  availability : string;
  action_text : string
}.

Definition DEFAULT_REFERENCES : gset string :=
  {[ "FR0074-7681"; "FR0074-7682" ]}.

Definition UNAVAILABLE_KEYWORDS : list string :=
  ["full"; "sold out"; "no places"; "closed"; "unavailable"].

(** [classify_availability] over its variadic arguments. *)
Definition classify_availability (texts : list string) : string :=
  let t := Text.lower (Text.join " " texts) in
  if Text.any_in UNAVAILABLE_KEYWORDS t then "unavailable" else "available".

(** A data row is its cell texts and its action text; a table is its
    header cells and its data rows. *)
Definition row : Type := list string * string.
Definition table : Type := list string * list row.

(** The score that the loop body of [pick_session_table] computes. *)
Definition score_table (t : table) : Z :=
  let '(headers, rows) := t in
  let header_text := Text.join " " (map Text.lower headers) in
  let score := 0 in
  let score :=
    if Text.contains "location" header_text then score + 2 else score in
  let score :=
    if Text.contains "schedule" header_text then score + 2 else score in
  let score :=
    if Text.contains "start" header_text && Text.contains "date" header_text
    then score + 2 else score in
  let score :=
    if Text.contains "reference" header_text then score + 2 else score in
  let score :=
    if Z.of_nat (length rows) >=? 3 then score + 1 else score in
  score.

(** One turn of the loop on the state [(best, best_score)]. *)
Definition pick_step (st : option table * Z) (t : table)
  : option table * Z :=
  let '(best, best_score) := st in
  let score := score_table t in
  if score >? best_score then (Some t, score) else (best, best_score).

Definition pick_session_table (tables : list table) : option table :=
  fst (fold_left pick_step tables (None, 0)).

(** The four header tests that the selector scores, and which of them a
    table passes. *)
Inductive keyword := KwLocation | KwSchedule | KwStartDate | KwReference.

Definition header_text (t : table) : string :=
  Text.join " " (map Text.lower t.1).

Definition matches (t : table) (k : keyword) : bool :=
  match k with
  | KwLocation => Text.contains "location" (header_text t)
  | KwSchedule => Text.contains "schedule" (header_text t)
  | KwStartDate =>
      Text.contains "start" (header_text t)
      && Text.contains "date" (header_text t)
  | KwReference => Text.contains "reference" (header_text t)
  end.

(** [n] points when the test [b] holds. *)
Definition points (b : bool) (n : Z) : Z := if b then n else 0.

(** [a] passes every test that [b] passes, and one more. *)
Definition strict_superset (a b : table) : Prop :=
  (∀ k, matches b k = true → matches a k = true)
  ∧ ∃ k, matches a k = true ∧ matches b k = false.

(** [l.index(name)] and [cells[idx]], with their exceptions. *)
Definition py_index (name : string) (l : list string) : M nat :=
  match Text.index name l with
  | Some i => ret i
  | None => raise ValueError
  end.

Definition py_item (cells : list string) (idx : nat) : M string :=
  match cells !! idx with
  | Some c => ret c
  | None => raise IndexError
  end.

(** The inner [idx_of( *names )] of [build_sessions_from_table]. *)
Fixpoint idx_of (headers_l : list string) (names : list string)
  : M (option nat) :=
  match names with
  | [] => ret None
  | name :: rest =>
      if Text.mem name headers_l
      then i <- py_index name headers_l ; ret (Some i)
      else idx_of headers_l rest
  end.

(** The inner [safe_get(idx)], closed over the row's [cells]. *)
Definition safe_get (cells : list string) (idx : option nat) : M string :=
  match idx with
  | None => ret ""
  | Some i =>
      if Z.of_nat i >=? Z.of_nat (length cells) then ret ""
      else py_item cells i
  end.

Definition build_sessions_from_table
    (headers : list string) (rows : list row) : M (list Session) :=
  let headers_l := map Text.lower headers in
  idx_location <- idx_of headers_l ["location"] ;
  idx_schedule <- idx_of headers_l ["schedule"] ;
  idx_hours <- idx_of headers_l ["hours"] ;
  idx_days <- idx_of headers_l ["days"] ;
  idx_start_date <- idx_of headers_l ["start date"; "start date "] ;
  idx_end_date <- idx_of headers_l ["end date"; "end date "] ;
  idx_fee <- idx_of headers_l ["fee"] ;
  idx_reference <- idx_of headers_l ["reference"] ;
  for_each
    (fun r : row =>
       let '(cells, action_text) := r in
       let row_text := Text.join " " cells in
       let availability := classify_availability [action_text; row_text] in
       v_location <- safe_get cells idx_location ;
       v_schedule <- safe_get cells idx_schedule ;
       v_hours <- safe_get cells idx_hours ;
       v_days <- safe_get cells idx_days ;
       v_start_date <- safe_get cells idx_start_date ;
       v_end_date <- safe_get cells idx_end_date ;
       v_fee <- safe_get cells idx_fee ;
       v_reference <- safe_get cells idx_reference ;
       ret {| location := v_location;
              schedule := v_schedule;
              hours := v_hours;
              days := v_days;
              start_date := v_start_date;
              end_date := v_end_date;
              fee := v_fee;
              reference := v_reference;
              availability := availability;
              action_text := action_text |})
    rows.

(** The eight columns that the mapper looks up, the header names each
    one answers to, and the field it fills. *)
Inductive column :=
| ColLocation | ColSchedule | ColHours | ColDays
| ColStartDate | ColEndDate | ColFee | ColReference.

Definition column_names (c : column) : list string :=
  match c with
  | ColLocation => ["location"]
  | ColSchedule => ["schedule"]
  | ColHours => ["hours"]
  | ColDays => ["days"]
  | ColStartDate => ["start date"; "start date "]
  | ColEndDate => ["end date"; "end date "]
  | ColFee => ["fee"]
  | ColReference => ["reference"]
  end.

Definition column_value (c : column) (s : Session) : string :=
  match c with
  | ColLocation => location s
  | ColSchedule => schedule s
  | ColHours => hours s
  | ColDays => days s
  | ColStartDate => start_date s
  | ColEndDate => end_date s
  | ColFee => fee s
  | ColReference => reference s
  end.

(** The index that [idx_of] settles on: the first position of the first
    name that occurs among the lower-cased headers. *)
Fixpoint resolve (headers_l : list string) (names : list string) : option nat :=
  match names with
  | [] => None
  | name :: rest =>
      match Text.index name headers_l with
      | Some i => Some i
      | None => resolve headers_l rest
      end
  end.

(** The cell that [safe_get] reads. *)
Definition cell_at (cells : list string) (idx : option nat) : string :=
  match idx with
  | None => ""
  | Some i => default "" (cells !! i)
  end.

(** The session that the loop body builds from one row. *)
Definition session_of_row (headers_l : list string) (r : row) : Session :=
  let col c := cell_at r.1 (resolve headers_l (column_names c)) in
  {| location := col ColLocation;
     schedule := col ColSchedule;
     hours := col ColHours;
     days := col ColDays;
     start_date := col ColStartDate;
     end_date := col ColEndDate;
     fee := col ColFee;
     reference := col ColReference;
     availability := classify_availability [r.2; Text.join " " r.1];
     action_text := r.2 |}.

(** The pattern of [fallback_extract_sessions]. *)
Definition digits (n : nat) : Regex.re := Regex.Rep n (Regex.Cls Regex.cls_d).
Definition blanks : Regex.re := Regex.ClsPlus Regex.cls_s.

Definition datetime : Regex.re :=
  Regex.cat [digits 4; Regex.Chr "-"; digits 2; Regex.Chr "-"; digits 2;
             blanks;
             digits 2; Regex.Chr ":"; digits 2; Regex.Chr ":"; digits 2].

Definition pattern : Regex.re :=
  Regex.cat
    [Regex.Named "location"
       (Regex.cat [Regex.lit "INLL"; blanks; Regex.ClsPlus Regex.cls_w]);
     blanks;
     Regex.Named "schedule"
       (Regex.cat [digits 2; Regex.Chr ":"; digits 2; Regex.Chr "-";
                   digits 2; Regex.Chr ":"; digits 2]);
     blanks;
     Regex.Named "days" (Regex.ClsPlus Regex.cls_day);
     blanks;
     Regex.Named "start" datetime;
     blanks;
     Regex.Named "end" datetime;
     blanks;
     Regex.Named "fee"
       (Regex.Cat (Regex.ClsPlus Regex.cls_d)
          (Regex.Opt (Regex.Grp
             (Regex.Cat (Regex.Chr ".") (Regex.ClsPlus Regex.cls_d)))));
     blanks;
     Regex.Named "reference"
       (Regex.cat [Regex.lit "FR"; digits 4; Regex.Chr "-";
                   Regex.ClsPlus Regex.cls_d])].

Definition session_of_match (g : Regex.groups) : Session :=
  let action_text := "" in
  {| location := Regex.group g "location";
     schedule := Regex.group g "schedule";
     hours := "";
     days := Regex.group g "days";
     start_date := Regex.group g "start";
     end_date := Regex.group g "end";
     fee := Regex.group g "fee";
     reference := Regex.group g "reference";
     availability := classify_availability [action_text];
     action_text := action_text |}.

Definition fallback_extract_sessions (text : string) : list Session :=
  map session_of_match (Regex.finditer pattern text).

(** What the HTML parser hands to [check_once]: the tables in document
    order ([extract_tables]) and the visible text ([soup.get_text]). *)
Record page := {
  page_tables : list table;
  page_text : string
}.

(** The table path of [check_once]: the sessions of the selected table,
    none when no table is selected. *)
Definition table_path (pg : page) : M (list Session) :=
  let selected := pick_session_table (page_tables pg) in
  match selected with
  | Some (headers, rows) =>
      _ <- emit (Entered "build_sessions_from_table") ;
      build_sessions_from_table headers rows
  | None => ret []
  end.

(** [check_once] up to the reference filter: the table path, then the
    fallback when the table path left no session. *)
Definition extract_sessions (pg : page) : M (list Session) :=
  sessions <- table_path pg ;
  match sessions with
  | [] =>
      _ <- emit (Entered "fallback_extract_sessions") ;
      ret (fallback_extract_sessions (page_text pg))
  | _ :: _ => ret sessions
  end.

Definition filter_references (wanted : gset string)
    (sessions : list Session) : list Session :=
  filter (fun s => reference s ∈ wanted) sessions.

Definition check_once (pg : page) : M (list Session) :=
  sessions <- extract_sessions pg ;
  let wanted := DEFAULT_REFERENCES in
  ret (filter_references wanted sessions).

(** [{r.strip() for r in references.split(",") if r.strip()}] *)
Definition wanted_of (references : string) : gset string :=
  list_to_set
    (filter (fun r => Text.truthy r = true)
       (map Text.strip (Text.split "," references))).

(** The sessions that [main] hands to [output_sessions] in one pass;
    [references] is the value of [--references], if given. *)
Definition main_sessions (pg : page) (references : option string)
  : M (list Session) :=
  sessions <- check_once pg ;
  match references with
  | Some refs =>
      if Text.truthy refs
      then ret (filter_references (wanted_of refs) sessions)
      else ret sessions
  | None => ret sessions
  end.

(** The session of the checker as a session over all of [str]. *)
Definition widen (s : Session) : Wide.Session :=
  {| Wide.location := Unicode.of_string (location s);
     Wide.schedule := Unicode.of_string (schedule s);
     Wide.hours := Unicode.of_string (hours s);
     Wide.days := Unicode.of_string (days s);
     Wide.start_date := Unicode.of_string (start_date s);
     Wide.end_date := Unicode.of_string (end_date s);
     Wide.fee := Unicode.of_string (fee s);
     Wide.reference := Unicode.of_string (reference s);
     Wide.availability := Unicode.of_string (availability s);
     Wide.action_text := Unicode.of_string (action_text s) |}.

(** [asdict(s)]: the ten fields in the order of their declaration. *)
Definition asdict (s : Session) : list (Unicode.str * Unicode.str) :=
  Wide.asdict (widen s).

(** The object that a session is written as: its ten fields, each a
    string. *)
Definition session_object (s : Session) : Json.value :=
  Wide.session_object (widen s).

(** The [json] branch of [output_sessions]: one [print] of the dump. *)
Definition output_sessions_json (sessions : list Session) : M unit :=
  Wide.output_sessions_json (map widen sessions).

(** Every field of the session is a [str]. *)
Definition is_session (s : Wide.Session) : Prop :=
  Forall Unicode.is_str (Wide.fields s).

(** No field of the session holds a surrogate pair. *)
Definition pair_free (s : Wide.Session) : Prop :=
  Forall (fun f => Unicode.has_pair f = false) (Wide.fields s).

(** What a reader of the standard output receives: every printed line
    with the line break that [print] adds. *)
Fixpoint stdout_of (evs : list event) : string :=
  match evs with
  | [] => ""
  | Printed line :: evs' => line +:+ String Json.newline (stdout_of evs')
  | _ :: evs' => stdout_of evs'
  end.

End Checker.

(** ** The watcher: [action-watch.py] *)

Module Watcher.
Import Py Json.

Definition is_subprocess_or_os_error (e : exn) : bool :=
  match e with
  | SubprocessError | OSError => true
  | _ => false
  end.

Definition is_json_decode_error (e : exn) : bool :=
  match e with
  | JSONDecodeError => true
  | _ => false
  end.

Definition is_request_exception (e : exn) : bool :=
  match e with
  | RequestException => true
  | _ => false
  end.

(** [except Exception]: every exception of the model. *)
Definition is_exception (e : exn) : bool := true.

Definition lift {A} (r : result A) : M A := ([], r).

(** [run_check].  [proc] is what [subprocess.run(..., check=True)] does:
    it returns the captured standard output or raises.  The warnings are
    recorded without the text of the exception. *)
Definition run_check (proc : result Unicode.str) : M value :=
  r <- try_except
         (result <- lift proc ; ret (inr result))
         is_subprocess_or_os_error
         (fun _ => _ <- emit (Printed "[warn] check failed") ;
                   ret (inl (JArr []))) ;
  match r with
  | inl early => ret early
  | inr stdout =>
      try_except
        (lift (loads (if Unicode.truthy stdout then stdout
                      else Unicode.of_string "[]")))
        is_json_decode_error
        (fun _ => _ <- emit (Printed "[warn] invalid JSON from checker") ;
                  ret (JArr []))
  end.

(** [for s in sessions] on a parsed value: the elements of a list, the
    keys of a dictionary, the characters of a string; anything else is not
    iterable. *)
Definition iterate (v : value) : M (list value) :=
  match v with
  | JArr items => ret items
  | JObj fields => ret (map (fun kv => JStr kv.1) fields)
  | JStr s => ret (map (fun c => JStr [c]) s)
  | JNull | JBool _ | JInt _ | JFloat _ => raise TypeError
  end.

(** [s.get(key)]: only a dictionary has the method. *)
Definition get (s : value) (key : string) : M (option value) :=
  match s with
  | JObj fields => ret (dict_get (Unicode.of_string key) fields)
  | _ => raise AttributeError
  end.

(** [x == lit] for a string literal [lit]. *)
Definition eq_str (x : option value) (lit : string) : bool :=
  match x with
  | Some (JStr s) => bool_decide (s = Unicode.of_string lit)
  | _ => false
  end.

(** [[s for s in sessions if s.get("availability") == "available"]] *)
Fixpoint select_available (l : list value) : M (list value) :=
  match l with
  | [] => ret []
  | s :: l' =>
      a <- get s "availability" ;
      rest <- select_available l' ;
      ret (if eq_str a "available" then s :: rest else rest)
  end.

Definition is_object (v : value) : bool :=
  match v with
  | JObj _ => true
  | _ => false
  end.

(** The entry of a parsed list is a session marked available. *)
Definition is_available (v : value) : bool :=
  match v with
  | JObj fields =>
      eq_str (dict_get (Unicode.of_string "availability") fields) "available"
  | _ => false
  end.

(** [body.encode("utf-8")]: the codec raises [UnicodeEncodeError], a
    [ValueError], when the text holds a surrogate. *)
Definition encode (body : Unicode.str) : M Unicode.bytes :=
  match Unicode.encode_utf8 body with
  | Some data => ret data
  | None => raise ValueError
  end.

Section Cycle.
(** How an f-string renders a parsed value that is not a string. *)
Variable render : value → Unicode.str.

Definition format (x : option value) : Unicode.str :=
  match x with
  | None => Unicode.of_string "None"
  | Some (JStr s) => s
  | Some v => render v
  end.

(** The text of the notification for [sessions]. *)
Definition body_of (lines : list Unicode.str) : Unicode.str :=
  Unicode.join [Text.code newline]
    (Unicode.of_string "Available sessions detected:" :: lines).

(** The line of the notification for one parsed object. *)
Definition line (s : value) : Unicode.str :=
  match s with
  | JObj fields =>
      format (dict_get (Unicode.of_string "reference") fields)
      ++ Unicode.of_string " | "
      ++ format (dict_get (Unicode.of_string "availability") fields)
  | _ => []
  end.

(** The text of the notification for a parsed list. *)
Definition notification (sessions : list value) : Unicode.str :=
  body_of (map line (List.filter is_available sessions)).

(** [handle_available].  [net] is what the HTTP layer does with the
    request: it completes or raises.  The body is encoded inside the
    [try], before the request is made. *)
Definition handle_available (net : result unit) (sessions : list value)
  : M unit :=
  let topic := "INLL-free-spot-checker-mo" in
  let url := "https://ntfy.sh/" +:+ topic in
  lines <- for_each
             (fun s => r <- get s "reference" ;
                       a <- get s "availability" ;
                       ret (format r ++ Unicode.of_string " | " ++ format a))
             sessions ;
  let body := body_of lines in
  try_except
    (data <- encode body ; _ <- emit (Posted url data) ; lift net)
    is_request_exception
    (fun _ => emit (Printed "[warn] ntfy send failed")).

(** The body of the loop of [main], up to the test of [--once]. *)
Definition cycle (proc : result Unicode.str) (net : result unit) : M unit :=
  try_except
    (sessions <- run_check proc ;
     l <- iterate sessions ;
     available <- select_available l ;
     match available with
     | [] => ret tt
     | _ :: _ => handle_available net available
     end)
    is_exception
    (fun _ => emit (Printed "[warn] unexpected error")).

(** The loop of [main] on the outcomes that the environment gives to
    successive cycles; with [--once] it stops after the first. *)
Fixpoint main_loop (once : bool)
    (env : list (result Unicode.str * result unit)) : M unit :=
  match env with
  | [] => ret tt
  | (proc, net) :: env' =>
      _ <- cycle proc net ;
      if once then ret tt else main_loop once env'
  end.
End Cycle.

Definition is_post (ev : event) : bool :=
  match ev with
  | Posted _ _ => true
  | _ => false
  end.

(** A run issued a notification POST. *)
Definition posted {A} (m : M A) : bool := existsb is_post (events m).

(** What the network layer leaves behind after the POST was issued. *)
Definition after_post (net : result unit) : list event :=
  match net with
  | Ok _ => []
  | Raise e =>
      [Printed (if is_request_exception e then "[warn] ntfy send failed"
                else "[warn] unexpected error")]
  end.

(** The session is marked available. *)
Definition wide_available (s : Wide.Session) : Prop :=
  Wide.availability s = Unicode.of_string "available".

(** The objects that the watcher parses from what the [json] format
    printed for [sessions]. *)
Definition parsed (sessions : list Wide.Session) : list value :=
  map Wide.session_object (map Wide.read_back sessions).

(** The line of the notification for a session of the checker. *)
Definition wide_line (s : Wide.Session) : Unicode.str :=
  Json.read_back (Wide.reference s) ++ Unicode.of_string " | available".

End Watcher.

(** ** The rest of the checker: white space, the text rendering, the
  polling loop *)

Module CheckerRest.
Import Py Checker.

(** [text.split()] without argument: the maximal runs of characters that
    are not white space. *)
Fixpoint split_ws (s : string) : list string :=
  match s with
  | EmptyString => []
  | String c s' =>
      if Text.is_space c then split_ws s'
      else
        match s' with
        | EmptyString => [String c ""]
        | String c' _ =>
            if Text.is_space c' then String c "" :: split_ws s'
            else
              match split_ws s' with
              | w :: ws => String c w :: ws
              | [] => [String c ""]
              end
        end
  end.

Definition normalize_space (text : string) : string :=
  Text.join " " (split_ws text).

(** Every character of [s] passes [p]; the characters of [s] that pass
    [p]; no two neighbours in [s] are both white space. *)
Fixpoint all_chars (p : ascii → bool) (s : string) : bool :=
  match s with
  | EmptyString => true
  | String c s' => p c && all_chars p s'
  end.

Fixpoint keep_chars (p : ascii → bool) (s : string) : string :=
  match s with
  | EmptyString => EmptyString
  | String c s' => if p c then String c (keep_chars p s') else keep_chars p s'
  end.

Fixpoint single_spaced (s : string) : bool :=
  match s with
  | EmptyString => true
  | String c s' =>
      match s' with
      | EmptyString => true
      | String c' _ => negb (Text.is_space c && Text.is_space c') && single_spaced s'
      end
  end.

Definition not_space (c : ascii) : bool := negb (Text.is_space c).

(** A word: not empty, no white space in it. *)
Definition is_word (w : string) : Prop :=
  w ≠ "" ∧ all_chars not_space w = true.

(** A character that is no white space, or the plain space. *)
Definition plain (c : ascii) : bool := not_space c || bool_decide (c = " "%char).

(** The header cells as [extract_tables] stores them. *)
Definition normalized_headers (raw : list string) : list string :=
  map normalize_space raw.

(** The line that the text rendering prints for one session. *)
Definition text_line (s : Session) : string :=
  reference s +:+ " | " +:+ location s +:+ " | " +:+ schedule s +:+ " | "
  +:+ days s +:+ " | " +:+ start_date s +:+ " -> " +:+ end_date s +:+ " | "
  +:+ fee s +:+ " | " +:+ availability s.

Fixpoint print_lines (lines : list string) : M unit :=
  match lines with
  | [] => ret tt
  | line :: rest => _ <- emit (Printed line) ; print_lines rest
  end.

(** The [text] branch of [output_sessions]. *)
Definition output_sessions_text (sessions : list Session) : M unit :=
  match sessions with
  | [] => emit (Printed "No sessions found.")
  | _ :: _ => print_lines (map text_line sessions)
  end.

(** The formats of [--format] that are modelled; [csv] is left out. *)
Inductive format := FmtText | FmtJson.

Definition output_sessions (sessions : list Session) (fmt : format) : M unit :=
  match fmt with
  | FmtJson => output_sessions_json sessions
  | FmtText => output_sessions_text sessions
  end.

(** One pass of [main]: fetch and parse, check, filter, print.  [fetched]
    is what [fetch_html] followed by the parser gives: the page, or the
    exception of a failed request. *)
Definition main_pass (fmt : format) (references : option string)
    (fetched : result page) : M unit :=
  pg <- (([], fetched) : M page) ;
  sessions <- main_sessions pg references ;
  output_sessions sessions fmt.

(** The loop of [--watch] on the pages that successive passes fetch; the
    pause between two passes leaves no event. *)
Fixpoint main_watch (fmt : format) (references : option string)
    (env : list (result page)) : M unit :=
  match env with
  | [] => ret tt
  | fetched :: env' =>
      _ <- main_pass fmt references fetched ;
      main_watch fmt references env'
  end.

(** The characters that line 234 and 242 of [main] treat as part of a
    reference: anything but the comma that separates references. *)
Definition not_comma (c : ascii) : bool := negb (bool_decide (c = ","%char)).

(** A comma or a white-space character. *)
Definition separator (c : ascii) : bool :=
  Text.is_space c || bool_decide (c = ","%char).

(** A reference as [--references] can carry it: not empty, no white space
    at either end, no comma. *)
Definition clean_reference (r : string) : Prop :=
  r ≠ "" ∧ Text.strip r = r ∧ all_chars not_comma r = true.

(** What a successful run of [Regex.exec] did: [sem r s g rest g'] holds
    when [r] matches the start of [s], leaves [rest], and turns the groups
    [g] into [g']. *)
Fixpoint sem (r : Regex.re) (s : string) (g : Regex.groups)
    (rest : string) (g' : Regex.groups) : Prop :=
  match r with
  | Regex.Chr c => s = String c rest ∧ g' = g
  | Regex.Cls p => ∃ a, p a = true ∧ s = String a rest ∧ g' = g
  | Regex.ClsPlus p =>
      ∃ w, w ≠ "" ∧ all_chars p w = true ∧ s = w +:+ rest ∧ g' = g
  | Regex.Cat r1 r2 => ∃ mid g1, sem r1 s g mid g1 ∧ sem r2 mid g1 rest g'
  | Regex.Rep n r1 =>
      (fix rep (n : nat) (s : string) (g : Regex.groups) : Prop :=
         match n with
         | O => rest = s ∧ g' = g
         | S n' => ∃ mid g1, sem r1 s g mid g1 ∧ rep n' mid g1
         end) n s g
  | Regex.Opt r1 => sem r1 s g rest g' ∨ (rest = s ∧ g' = g)
  | Regex.Grp r1 => sem r1 s g rest g'
  | Regex.Named name r1 =>
      ∃ g1, sem r1 s g rest g1 ∧ g' = <[name := Regex.matched s rest]> g1
  end.

(** The texts that [r] can match as a whole. *)
Fixpoint lang (r : Regex.re) (w : string) : Prop :=
  match r with
  | Regex.Chr c => w = String c ""
  | Regex.Cls p => ∃ a, p a = true ∧ w = String a ""
  | Regex.ClsPlus p => w ≠ "" ∧ all_chars p w = true
  | Regex.Cat r1 r2 => ∃ w1 w2, w = w1 +:+ w2 ∧ lang r1 w1 ∧ lang r2 w2
  | Regex.Rep n r1 =>
      (fix rep (n : nat) (w : string) : Prop :=
         match n with
         | O => w = ""
         | S n' => ∃ w1 w2, w = w1 +:+ w2 ∧ lang r1 w1 ∧ rep n' w2
         end) n w
  | Regex.Opt r1 => lang r1 w ∨ w = ""
  | Regex.Grp r1 => lang r1 w
  | Regex.Named _ r1 => lang r1 w
  end.

(** The texts that the group [name] of [r] can hold after a match. *)
Fixpoint group_lang (r : Regex.re) (name : string) (v : string) : Prop :=
  match r with
  | Regex.Chr _ | Regex.Cls _ | Regex.ClsPlus _ => False
  | Regex.Cat r1 r2 => group_lang r1 name v ∨ group_lang r2 name v
  | Regex.Rep _ r1 | Regex.Opt r1 | Regex.Grp r1 => group_lang r1 name v
  | Regex.Named n r1 => (n = name ∧ lang r1 v) ∨ group_lang r1 name v
  end.

(** The group [name] takes part in every match of [r]. *)
Fixpoint binds (r : Regex.re) (name : string) : bool :=
  match r with
  | Regex.Chr _ | Regex.Cls _ | Regex.ClsPlus _ | Regex.Opt _ => false
  | Regex.Cat r1 r2 => binds r1 name || binds r2 name
  | Regex.Rep n r1 => negb (Nat.eqb n 0) && binds r1 name
  | Regex.Grp r1 => binds r1 name
  | Regex.Named n r1 => bool_decide (n = name) || binds r1 name
  end.

(** A character that an ASCII terminal shows as it is, or a line break. *)
Definition printable (c : ascii) : bool :=
  Text.in_range 32 126 c || bool_decide (c = Json.newline).

Definition not_newline (c : ascii) : bool :=
  negb (bool_decide (c = Json.newline)).

End CheckerRest.

(** ** Facts about the string operations *)

Module TextFacts.
Import Text.

Lemma append_cons (c : ascii) (s t : string) :
  String c s +:+ t = String c (s +:+ t).
Proof. reflexivity. Qed.

Lemma append_nil_l (t : string) : "" +:+ t = t.
Proof. reflexivity. Qed.

Lemma append_nil_r (s : string) : s +:+ "" = s.
Proof.
  induction s as [|c s IH]; [done |].
  by rewrite append_cons, IH.
Qed.

Lemma append_assoc (a b c : string) : (a +:+ b) +:+ c = a +:+ b +:+ c.
Proof.
  induction a as [|x a IH]; [done |].
  by rewrite !append_cons, IH.
Qed.

Lemma startswith_spec (k t : string) :
  startswith k t = true ↔ ∃ s, t = k +:+ s.
Proof.
  revert t. induction k as [|a k IH]; intros t; simpl.
  - split; [intros _; by exists t | done].
  - destruct t as [|b t].
    + split; [done | intros [s Hs]; discriminate].
    + rewrite andb_true_iff, bool_decide_eq_true, IH. split.
      * intros [-> [s ->]]. by exists s.
      * intros [s Hs]. rewrite append_cons in Hs.
        injection Hs as -> ->. eauto.
Qed.

Lemma contains_spec (k t : string) :
  contains k t = true ↔ substring_of k t.
Proof.
  unfold substring_of. induction t as [|b t IH]; simpl.
  - rewrite orb_false_r, startswith_spec. split.
    + intros [s Hs]. by exists "", s.
    + intros ([|c p] & s & Hs); [by exists s | discriminate].
  - rewrite orb_true_iff, startswith_spec, IH. split.
    + intros [[s Hs] | (p & s & ->)].
      * by exists "", s.
      * by exists (String b p), s.
    + intros ([|c p] & s & Hs).
      * left. by exists s.
      * right. rewrite append_cons in Hs.
        injection Hs as -> ->. by exists p, s.
Qed.

#[global] Instance substring_of_dec (k t : string) : Decision (substring_of k t).
Proof.
  refine (cast_if (decide (contains k t = true))); by rewrite <- contains_spec.
Defined.

Lemma bool_decide_substring_of (k t : string) :
  bool_decide (substring_of k t) = contains k t.
Proof.
  destruct (contains k t) eqn:H.
  - apply bool_decide_eq_true. by apply contains_spec.
  - apply bool_decide_eq_false. rewrite <- contains_spec. by rewrite H.
Qed.

(** A block of one piece is a block of the joined text. *)
Lemma substring_of_join (k x sep : string) (l : list string) :
  x ∈ l → substring_of k x → substring_of k (join sep l).
Proof.
  intros Hin (p & q & ->). induction l as [|y l IH]; [by apply elem_of_nil in Hin |].
  apply elem_of_cons in Hin as [<- | Hin].
  - destruct l as [|z l].
    + by exists p, q.
    + exists p, (q +:+ sep +:+ join sep (z :: l)).
      change (join sep ((p +:+ k +:+ q) :: z :: l))
        with ((p +:+ k +:+ q) +:+ sep +:+ join sep (z :: l)).
      by rewrite !append_assoc.
  - destruct (IH Hin) as (p' & q' & Heq). destruct l as [|z l].
    + by apply elem_of_nil in Hin.
    + exists (y +:+ sep +:+ p'), q'.
      change (join sep (y :: z :: l)) with (y +:+ sep +:+ join sep (z :: l)).
      by rewrite Heq, !append_assoc.
Qed.

Lemma any_in_spec (ks : list string) (t : string) :
  any_in ks t = true ↔ ∃ k, k ∈ ks ∧ substring_of k t.
Proof.
  unfold any_in. rewrite existsb_exists. split.
  - intros (k & Hin & Hk). exists k. split.
    + by apply list_elem_of_In.
    + by apply contains_spec.
  - intros (k & Hin & Hk). exists k. split.
    + by apply list_elem_of_In.
    + by apply contains_spec.
Qed.

End TextFacts.

(** ** The availability classifier *)

Module ClassifierFacts.
Import Text TextFacts Checker.

(** C4. [classify_availability] lower-cases the space-joined fragments and
    answers "unavailable" exactly when one of "full", "sold out",
    "no places", "closed", "unavailable" occurs in that text as a
    substring, and "available" otherwise; "SOLD OUT" is unavailable,
    "Book now" and the empty string are available. *)
Theorem classify_availability_spec :
  (∀ texts : list string,
      let t := lower (join " " texts) in
      (classify_availability texts = "unavailable"
       ↔ ∃ k, k ∈ ["full"; "sold out"; "no places"; "closed"; "unavailable"]
              ∧ substring_of k t)
      ∧ (classify_availability texts = "available"
         ↔ ¬ ∃ k, k ∈ ["full"; "sold out"; "no places"; "closed"; "unavailable"]
                  ∧ substring_of k t))
  ∧ classify_availability ["SOLD OUT"] = "unavailable"
  ∧ classify_availability ["Book now"] = "available"
  ∧ classify_availability [""] = "available".
Proof.
  split; [| by vm_compute].
  intros texts t. unfold classify_availability.
  fold t. change UNAVAILABLE_KEYWORDS
    with ["full"; "sold out"; "no places"; "closed"; "unavailable"].
  rewrite <- any_in_spec.
  destruct (any_in _ t); split; split; done.
Qed.

End ClassifierFacts.

(** ** The table selector *)

Module SelectorFacts.
Import Text TextFacts Checker.

Lemma score_table_points (t : table) :
  score_table t
  = points (matches t KwLocation) 2 + points (matches t KwSchedule) 2
    + points (matches t KwStartDate) 2 + points (matches t KwReference) 2
    + points (bool_decide (3 ≤ length t.2)%nat) 1.
Proof.
  destruct t as [headers rows]. unfold score_table, matches, header_text, points.
  cbn [fst snd].
  assert (Hrows : (Z.of_nat (length rows) >=? 3) = bool_decide (3 ≤ length rows)%nat).
  { case_bool_decide; [apply Z.geb_le | rewrite Z.geb_leb; apply Z.leb_gt]; lia. }
  rewrite Hrows.
  repeat match goal with |- context [if ?b then _ else _] => destruct b end; lia.
Qed.

Lemma score_table_bounds (t : table) : 0 ≤ score_table t ≤ 9.
Proof.
  rewrite score_table_points. unfold points.
  repeat match goal with |- context [if ?b then _ else _] => destruct b end; lia.
Qed.

Lemma pick_step_gt (best : option table) (best_score : Z) (t : table) :
  best_score < score_table t
  → pick_step (best, best_score) t = (Some t, score_table t).
Proof.
  intros H. unfold pick_step.
  by destruct (Z.gtb_spec (score_table t) best_score); [| lia].
Qed.

Lemma pick_step_le (best : option table) (best_score : Z) (t : table) :
  score_table t ≤ best_score
  → pick_step (best, best_score) t = (best, best_score).
Proof.
  intros H. unfold pick_step.
  by destruct (Z.gtb_spec (score_table t) best_score); [lia |].
Qed.

(** The loop from any state: either no table beat the starting score and
    the state is unchanged, or the state holds the first table of the
    highest score. *)
Lemma pick_loop (l : list table) (best : option table) (best_score : Z) :
  (fold_left pick_step l (best, best_score) = (best, best_score)
   ∧ ∀ t, t ∈ l → score_table t ≤ best_score)
  ∨ ∃ (i : nat) (t : table),
      l !! i = Some t
      ∧ fold_left pick_step l (best, best_score) = (Some t, score_table t)
      ∧ best_score < score_table t
      ∧ (∀ (j : nat) (t' : table), l !! j = Some t' → score_table t' ≤ score_table t)
      ∧ (∀ (j : nat) (t' : table),
            (j < i)%nat → l !! j = Some t' → score_table t' < score_table t).
Proof.
  revert best best_score. induction l as [|t l IH]; intros best best_score.
  - left. split; [done |]. intros t Ht. by apply elem_of_nil in Ht.
  - cbn [fold_left].
    destruct (Z.lt_ge_cases best_score (score_table t)) as [Hgt | Hle].
    + rewrite pick_step_gt by done.
      right. destruct (IH (Some t) (score_table t))
        as [[Heq Hall] | (i & t' & Hi & Heq & Hlt & Hmax & Hfirst)].
      * exists 0%nat, t. split_and!; [done | done | lia | |].
        -- intros [|j] t' Hj; cbn in Hj.
           ++ injection Hj as <-. lia.
           ++ apply Hall. by eapply list_elem_of_lookup_2.
        -- intros j t' Hj. lia.
      * exists (S i), t'. split_and!; [done | done | lia | |].
        -- intros [|j] t'' Hj; cbn in Hj.
           ++ injection Hj as <-. lia.
           ++ by eapply Hmax.
        -- intros [|j] t'' Hji Hj; cbn in Hj.
           ++ injection Hj as <-. lia.
           ++ eapply Hfirst; [| done]. lia.
    + rewrite pick_step_le by done.
      destruct (IH best best_score)
        as [[Heq Hall] | (i & t' & Hi & Heq & Hlt & Hmax & Hfirst)].
      * left. split; [done |]. intros t' Ht'.
        apply elem_of_cons in Ht' as [-> | Ht']; [lia | by apply Hall].
      * right. exists (S i), t'. split_and!; [done | done | lia | |].
        -- intros [|j] t'' Hj; cbn in Hj.
           ++ injection Hj as <-. lia.
           ++ by eapply Hmax.
        -- intros [|j] t'' Hji Hj; cbn in Hj.
           ++ injection Hj as <-. lia.
           ++ eapply Hfirst; [| done]. lia.
Qed.

(** What the selector returns, read off the loop. *)
Lemma pick_session_table_cases (tables : list table) :
  match pick_session_table tables with
  | None => ∀ t, t ∈ tables → score_table t = 0
  | Some t =>
      ∃ i : nat,
        tables !! i = Some t
        ∧ 0 < score_table t
        ∧ (∀ (j : nat) (t' : table),
              tables !! j = Some t' → score_table t' ≤ score_table t)
        ∧ (∀ (j : nat) (t' : table),
              (j < i)%nat → tables !! j = Some t' → score_table t' < score_table t)
  end.
Proof.
  unfold pick_session_table.
  destruct (pick_loop tables None 0)
    as [[Heq Hall] | (i & t & Hi & Heq & Hlt & Hmax & Hfirst)]; rewrite Heq; cbn.
  - intros t Ht. pose proof (score_table_bounds t). specialize (Hall t Ht). lia.
  - exists i. by split_and!.
Qed.

(** C3. The selector gives 2 points each for "location", "schedule",
    "start" together with "date", and "reference" found in the lower-cased
    header text, and 1 point for three data rows or more; it returns the
    table of the highest score, the earliest one among equals, and none
    exactly when every table scores zero. *)
Theorem pick_session_table_spec :
  (∀ (headers : list string) (rows : list row),
      let text := join " " (map lower headers) in
      score_table (headers, rows)
      = points (bool_decide (substring_of "location" text)) 2
        + points (bool_decide (substring_of "schedule" text)) 2
        + points (bool_decide (substring_of "start" text ∧ substring_of "date" text)) 2
        + points (bool_decide (substring_of "reference" text)) 2
        + points (bool_decide (3 ≤ length rows)%nat) 1)
  ∧ (∀ (tables : list table) (t : table),
        pick_session_table tables = Some t
        → ∃ i : nat,
            tables !! i = Some t
            ∧ 0 < score_table t
            ∧ (∀ (j : nat) (t' : table),
                  tables !! j = Some t' → score_table t' ≤ score_table t)
            ∧ (∀ (j : nat) (t' : table),
                  (j < i)%nat → tables !! j = Some t'
                  → score_table t' < score_table t))
  ∧ (∀ tables : list table,
        pick_session_table tables = None
        ↔ ∀ t, t ∈ tables → score_table t = 0).
Proof.
  split; [| split].
  - intros headers rows text. rewrite score_table_points.
    rewrite bool_decide_and, !bool_decide_substring_of. done.
  - intros tables t Hpick. pose proof (pick_session_table_cases tables) as H.
    by rewrite Hpick in H.
  - intros tables. pose proof (pick_session_table_cases tables) as H.
    destruct (pick_session_table tables) as [t|]; split; try done.
    intros Hzero. destruct H as (i & Hi & Hpos & _).
    apply list_elem_of_lookup_2 in Hi. specialize (Hzero t Hi). lia.
Qed.

Lemma strict_superset_score (a b : table) (rows rows' : list row) :
  strict_superset a b → score_table (b.1, rows') < score_table (a.1, rows).
Proof.
  intros [Hsub (k & Hka & Hkb)]. rewrite !score_table_points.
  assert (Hm : ∀ (t : table) (r : list row) (k : keyword),
             matches (t.1, r) k = matches t k) by (by intros [? ?] ? []).
  rewrite !Hm. unfold points.
  pose proof (Hsub KwLocation) as H1. pose proof (Hsub KwSchedule) as H2.
  pose proof (Hsub KwStartDate) as H3. pose proof (Hsub KwReference) as H4.
  clear Hsub Hm.
  destruct k;
    destruct (matches a KwLocation), (matches a KwSchedule),
             (matches a KwStartDate), (matches a KwReference);
    try discriminate Hka;
    destruct (matches b KwLocation), (matches b KwSchedule),
             (matches b KwStartDate), (matches b KwReference);
    try discriminate Hkb;
    try (specialize (H1 eq_refl); discriminate H1);
    try (specialize (H2 eq_refl); discriminate H2);
    try (specialize (H3 eq_refl); discriminate H3);
    try (specialize (H4 eq_refl); discriminate H4);
    cbn [fst snd]; repeat case_bool_decide; lia.
Qed.

(** C2, as the code has it. When table [a] is among the candidates and
    passes a strict superset of the header tests that [b] passes, [a]
    scores strictly higher than [b] whatever the two row counts are, since
    rows add one point at most; so the selector never returns [b]. *)
Theorem superset_table_wins (tables : list table) (a b : table) :
  a ∈ tables → strict_superset a b →
  (∀ rows rows' : list row, score_table (b.1, rows') < score_table (a.1, rows))
  ∧ score_table b < score_table a
  ∧ pick_session_table tables ≠ Some b.
Proof.
  intros Hin Hsup.
  assert (Hlt : score_table b < score_table a).
  { destruct a as [ha ra], b as [hb rb].
    apply (strict_superset_score (ha, ra) (hb, rb) ra rb Hsup). }
  split_and!; [intros; by apply strict_superset_score | done |].
  intros Hpick. pose proof (pick_session_table_cases tables) as H.
  rewrite Hpick in H. destruct H as (i & _ & _ & Hmax & _).
  apply list_elem_of_lookup_1 in Hin as [j Hj].
  specialize (Hmax j a Hj). lia.
Qed.

(** Two tables for the examples below: the first passes the tests for
    "location" and "schedule", the second the test for "location" only. *)
Lemma example_strict_superset :
  strict_superset (["Location"; "Schedule"], []) (["Location"], []).
Proof.
  split.
  - by intros [].
  - by exists KwSchedule.
Qed.

(** [superset_table_wins] on these two tables, the smaller one first in
    the list. *)
Lemma superset_table_wins_witness :
  ((["Location"; "Schedule"], []) : table)
    ∈ [((["Location"], []) : table); (["Location"; "Schedule"], [])]
  ∧ strict_superset (["Location"; "Schedule"], []) (["Location"], [])
  ∧ ((∀ rows rows' : list row,
         score_table (["Location"], rows')
         < score_table (["Location"; "Schedule"], rows))
     ∧ score_table (["Location"], []) < score_table (["Location"; "Schedule"], [])
     ∧ pick_session_table
         [((["Location"], []) : table); (["Location"; "Schedule"], [])]
       ≠ Some (["Location"], [])).
Proof.
  split; [| split].
  - apply list_elem_of_further, list_elem_of_here.
  - exact example_strict_superset.
  - apply (superset_table_wins
             [((["Location"], []) : table); (["Location"; "Schedule"], [])]
             (["Location"; "Schedule"], []) (["Location"], [])).
    + apply list_elem_of_further, list_elem_of_here.
    + exact example_strict_superset.
Defined.

(** C2, as it is worded, fails: here the table that passes the strict
    superset of tests is the one returned, ahead of the other. *)
Lemma superset_table_selected :
  ∃ (tables : list table) (a b : table),
    a ∈ tables ∧ b ∈ tables ∧ strict_superset a b
    ∧ pick_session_table tables = Some a.
Proof.
  exists [((["Location"], []) : table); (["Location"; "Schedule"], [])],
         (["Location"; "Schedule"], []), (["Location"], []).
  split_and!.
  - apply list_elem_of_further, list_elem_of_here.
  - apply list_elem_of_here.
  - exact example_strict_superset.
  - by vm_compute.
Qed.

(** C10. The score of a table is decided by substring tests on one text,
    the lower-cased header cells joined by single spaces, and by the row
    count: the score is exactly the sum of the points of the four tests on
    that text and of the row bonus.  A keyword found inside any cell is
    found in that text, so "start" in one cell and "date" in another earn
    the start-and-date points, and a cell with a longer word such as
    "Cross-reference" earns the points for "reference"; no test looks at
    the cells one by one. *)
Theorem header_tests_on_joined_text :
  (∀ (headers : list string) (rows : list row),
      let text := join " " (map lower headers) in
      score_table (headers, rows)
      = points (bool_decide (substring_of "location" text)) 2
        + points (bool_decide (substring_of "schedule" text)) 2
        + points (bool_decide (substring_of "start" text
                               ∧ substring_of "date" text)) 2
        + points (bool_decide (substring_of "reference" text)) 2
        + points (bool_decide (3 ≤ length rows)%nat) 1)
  ∧ (∀ (headers : list string) (rows : list row) (h1 h2 : string),
        h1 ∈ headers → h2 ∈ headers
        → substring_of "start" (lower h1) → substring_of "date" (lower h2)
        → let text := join " " (map lower headers) in
          score_table (headers, rows)
          = points (bool_decide (substring_of "location" text)) 2
            + points (bool_decide (substring_of "schedule" text)) 2
            + 2
            + points (bool_decide (substring_of "reference" text)) 2
            + points (bool_decide (3 ≤ length rows)%nat) 1)
  ∧ (∀ (headers : list string) (rows : list row) (h : string),
        h ∈ headers → substring_of "reference" (lower h)
        → let text := join " " (map lower headers) in
          score_table (headers, rows)
          = points (bool_decide (substring_of "location" text)) 2
            + points (bool_decide (substring_of "schedule" text)) 2
            + points (bool_decide (substring_of "start" text
                                   ∧ substring_of "date" text)) 2
            + 2
            + points (bool_decide (3 ≤ length rows)%nat) 1)
  ∧ score_table (["Start"; "Date"], []) = 2
  ∧ existsb (fun h => contains "start" (lower h) && contains "date" (lower h))
      ["Start"; "Date"] = false
  ∧ score_table (["Cross-reference"], []) = 2.
Proof.
  assert (Hscore : ∀ (headers : list string) (rows : list row),
            let text := join " " (map lower headers) in
            score_table (headers, rows)
            = points (bool_decide (substring_of "location" text)) 2
              + points (bool_decide (substring_of "schedule" text)) 2
              + points (bool_decide (substring_of "start" text
                                     ∧ substring_of "date" text)) 2
              + points (bool_decide (substring_of "reference" text)) 2
              + points (bool_decide (3 ≤ length rows)%nat) 1).
  { intros headers rows text. rewrite score_table_points.
    unfold matches, header_text. cbn [fst snd]. fold text.
    by rewrite bool_decide_and, !bool_decide_substring_of. }
  split_and!; [exact Hscore | | | by vm_compute ..].
  - intros headers rows h1 h2 Hh1 Hh2 Hs Hd text. rewrite Hscore. fold text.
    rewrite (bool_decide_eq_true_2 (substring_of "start" text
                                    ∧ substring_of "date" text)); [done |].
    split.
    + apply (substring_of_join _ (lower h1)); [| done]. by apply list_elem_of_fmap_2.
    + apply (substring_of_join _ (lower h2)); [| done]. by apply list_elem_of_fmap_2.
  - intros headers rows h Hh Hr text. rewrite Hscore. fold text.
    rewrite (bool_decide_eq_true_2 (substring_of "reference" text)); [done |].
    apply (substring_of_join _ (lower h)); [| done]. by apply list_elem_of_fmap_2.
Qed.

(** The headers "Location", "Start" and "Date" over three rows: the two
    words in two cells earn the start-and-date points. *)
Lemma header_tests_on_joined_text_witness :
  score_table (["Location"; "Start"; "Date"],
               [([], ""); ([], ""); ([], "")] : list row) = 5.
Proof.
  etrans.
  - apply (proj1 (proj2 header_tests_on_joined_text)
             ["Location"; "Start"; "Date"] [([], ""); ([], ""); ([], "")]
             "Start" "Date").
    + apply list_elem_of_further, list_elem_of_here.
    + apply list_elem_of_further, list_elem_of_further, list_elem_of_here.
    + by exists "", "".
    + by exists "", "".
  - rewrite !bool_decide_substring_of. by vm_compute.
Defined.

End SelectorFacts.

(** ** The row-to-session mapper *)

Module MapperFacts.
Import Py Text TextFacts Checker.

Lemma index_None (x : string) (l : list string) :
  index x l = None ↔ x ∉ l.
Proof.
  induction l as [|y l IH]; cbn.
  - split; [intros _; apply not_elem_of_nil | done].
  - rewrite not_elem_of_cons. case_bool_decide as Hy.
    + split; [done | intros [Hne _]; by subst].
    + destruct (index x l) eqn:Hi; cbn.
      * split; [done |]. intros [_ Hn]. by apply IH in Hn.
      * split; [| done]. intros _. split; [congruence | by apply IH].
Qed.

Lemma index_Some (x : string) (l : list string) (i : nat) :
  index x l = Some i
  ↔ l !! i = Some x ∧ ∀ j, (j < i)%nat → l !! j ≠ Some x.
Proof.
  revert i. induction l as [|y l IH]; intros i; cbn.
  - split; [done | by intros [? _]].
  - case_bool_decide as Hy.
    + subst y. split.
      * intros [= <-]. split; [done |]. intros j Hj. lia.
      * intros [Hi Hmin]. destruct i as [|i]; [done |].
        exfalso. apply (Hmin 0%nat); [lia | done].
    + destruct (index x l) as [k|] eqn:Hk; cbn.
      * split.
        -- intros [= <-]. destruct (proj1 (IH k) eq_refl) as [Hk' Hmin].
           split; [done |].
           intros [|j] Hj; cbn; [congruence |]. apply Hmin. lia.
        -- intros [Hi Hmin]. destruct i as [|i]; cbn in Hi; [congruence |].
           f_equal. assert (Some k = Some i) as [= ->]; [| done].
           apply (IH i). split; [done |].
           intros j Hj. apply (Hmin (S j)). lia.
      * split; [done |]. intros [Hi _]. destruct i as [|i]; cbn in Hi; [congruence |].
        apply index_None in Hk. exfalso. apply Hk. by eapply list_elem_of_lookup_2.
Qed.

Lemma lookup_map {A B} (f : A → B) (l : list A) (i : nat) :
  map f l !! i = f <$> (l !! i).
Proof. apply (list_lookup_fmap f l i). Qed.

Lemma mem_spec (x : string) (l : list string) : mem x l = true ↔ x ∈ l.
Proof.
  unfold mem. rewrite existsb_exists. split.
  - intros (y & Hin & Hy). apply bool_decide_eq_true in Hy as ->.
    by apply list_elem_of_In.
  - intros Hin. exists x. split; [by apply list_elem_of_In | by apply bool_decide_eq_true].
Qed.

Lemma idx_of_pure (headers_l names : list string) :
  idx_of headers_l names = ret (resolve headers_l names).
Proof.
  induction names as [|name rest IH]; cbn; [done |].
  destruct (mem name headers_l) eqn:Hmem.
  - apply mem_spec in Hmem. unfold py_index.
    destruct (index name headers_l) as [i|] eqn:Hi; [done |].
    by apply index_None in Hi.
  - rewrite IH. destruct (index name headers_l) as [i|] eqn:Hi; [| done].
    apply index_Some in Hi as [Hi _]. apply list_elem_of_lookup_2, mem_spec in Hi.
    congruence.
Qed.

Lemma safe_get_pure (cells : list string) (idx : option nat) :
  safe_get cells idx = ret (cell_at cells idx).
Proof.
  destruct idx as [i|]; cbn; [| done].
  destruct (Z.geb_spec (Z.of_nat i) (Z.of_nat (length cells))) as [Hge | Hlt].
  - rewrite lookup_ge_None_2 by lia. done.
  - unfold py_item. destruct (cells !! i) eqn:Hi; [done |].
    apply lookup_ge_None in Hi. lia.
Qed.

Lemma for_each_pure {A B} (f : A → M B) (g : A → B) (l : list A) :
  (∀ x, f x = ret (g x)) → for_each f l = ret (map g l).
Proof.
  intros Hf. induction l as [|x l IH]; cbn; [done |].
  by rewrite Hf, IH.
Qed.

(** The mapper is a pure map over the rows. *)
Lemma build_sessions_from_table_pure (headers : list string) (rows : list row) :
  build_sessions_from_table headers rows
  = ret (map (session_of_row (map lower headers)) rows).
Proof.
  unfold build_sessions_from_table. rewrite !idx_of_pure. cbn [bind ret app].
  erewrite for_each_pure; [done |].
  intros [cells action]. by rewrite !safe_get_pure.
Qed.

Lemma resolve_None (headers_l names : list string) :
  (∀ name, name ∈ names → name ∉ headers_l) → resolve headers_l names = None.
Proof.
  induction names as [|name rest IH]; intros Hall; cbn; [done |].
  assert (Hn : index name headers_l = None).
  { apply index_None, Hall, list_elem_of_here. }
  rewrite Hn. apply IH. intros n Hin. by apply Hall, list_elem_of_further.
Qed.

Lemma resolve_Some (headers_l pre post : list string) (name : string) (j : nat) :
  (∀ n, n ∈ pre → n ∉ headers_l)
  → headers_l !! j = Some name
  → (∀ j', (j' < j)%nat → headers_l !! j' ≠ Some name)
  → resolve headers_l (pre ++ name :: post) = Some j.
Proof.
  intros Hpre Hj Hmin. induction pre as [|n pre IH]; cbn.
  - assert (Hi : index name headers_l = Some j) by by apply index_Some.
    by rewrite Hi.
  - assert (Hn : index n headers_l = None).
    { apply index_None, Hpre, list_elem_of_here. }
    rewrite Hn. apply IH. intros n' Hin. by apply Hpre, list_elem_of_further.
Qed.

(** C7. The mapper never fails and emits one session per data row, in row
    order.  A field is empty when none of its column names is among the
    lower-cased headers, and when the column found lies beyond the end of
    the row's cells; otherwise it is the cell of that column.  The
    availability of a row is classified from its action text and its cell
    texts joined by spaces. *)
Theorem build_sessions_from_table_spec :
  ∀ (headers : list string) (rows : list row),
    ∃ sessions : list Session,
      build_sessions_from_table headers rows = ([], Ok sessions)
      ∧ length sessions = length rows
      ∧ ∀ (i : nat) (cells : list string) (action : string),
          rows !! i = Some ((cells, action) : row)
          → ∃ s : Session,
              sessions !! i = Some s
              ∧ action_text s = action
              ∧ availability s = classify_availability [action; join " " cells]
              ∧ ∀ c : column,
                  ((∀ name, name ∈ column_names c → name ∉ map lower headers)
                   → column_value c s = "")
                  ∧ (∀ (pre post : list string) (name : string) (j : nat),
                        column_names c = pre ++ name :: post
                        → (∀ n, n ∈ pre → n ∉ map lower headers)
                        → map lower headers !! j = Some name
                        → (∀ j', (j' < j)%nat → map lower headers !! j' ≠ Some name)
                        → ((length cells ≤ j)%nat → column_value c s = "")
                          ∧ (∀ cell, cells !! j = Some cell → column_value c s = cell)).
Proof.
  intros headers rows.
  exists (map (session_of_row (map lower headers)) rows).
  split_and!.
  - apply build_sessions_from_table_pure.
  - apply length_map.
  - intros i cells action Hi.
    exists (session_of_row (map lower headers) (cells, action)).
    split_and!; [by rewrite lookup_map, Hi | done | done |].
    intros c.
    assert (Hval : column_value c (session_of_row (map lower headers) (cells, action))
                   = cell_at cells (resolve (map lower headers) (column_names c)))
      by by destruct c.
    rewrite Hval. split.
    + intros Habs. by rewrite resolve_None.
    + intros pre post name j Hnames Hpre Hj Hmin.
      rewrite Hnames, (resolve_Some _ pre post name j) by done. cbn. split.
      * intros Hlen. by rewrite lookup_ge_None_2.
      * intros cell Hcell. by rewrite Hcell.
Qed.

End MapperFacts.

(** ** One check: table path, fallback and reference filter *)

Module CheckFacts.
Import Py Text TextFacts Checker MapperFacts.

(** The table path never fails; it enters the mapper exactly when a table
    is selected. *)
Lemma table_path_cases (pg : page) :
  (pick_session_table (page_tables pg) = None ∧ table_path pg = ([], Ok []))
  ∨ ∃ (headers : list string) (rows : list row),
      pick_session_table (page_tables pg) = Some (headers, rows)
      ∧ table_path pg
        = ([Entered "build_sessions_from_table"],
           Ok (map (session_of_row (map lower headers)) rows)).
Proof.
  unfold table_path.
  destruct (pick_session_table (page_tables pg)) as [[headers rows]|].
  - right. exists headers, rows. split; [done |].
    by rewrite build_sessions_from_table_pure.
  - by left.
Qed.

Lemma extract_sessions_of_table_path (pg : page) (evs : list event)
    (sessions : list Session) :
  table_path pg = (evs, Ok sessions)
  → extract_sessions pg
    = match sessions with
      | [] => (evs ++ [Entered "fallback_extract_sessions"],
               Ok (fallback_extract_sessions (page_text pg)))
      | _ :: _ => (evs ++ [], Ok sessions)
      end.
Proof.
  intros H. unfold extract_sessions. rewrite H. by destruct sessions.
Qed.

Lemma table_path_no_fallback (pg : page) (evs : list event) (r : result (list Session)) :
  table_path pg = (evs, r) → Entered "fallback_extract_sessions" ∉ evs.
Proof.
  intros H.
  destruct (table_path_cases pg) as [[_ Heq] | (h & rows & _ & Heq)];
    rewrite Heq in H; injection H as <- <-.
  - apply not_elem_of_nil.
  - intros [=]%list_elem_of_singleton.
Qed.

Lemma check_once_events (pg : page) :
  events (check_once pg) = events (extract_sessions pg).
Proof.
  unfold check_once, bind. destruct (extract_sessions pg) as [evs [ss|e]]; cbn;
    [apply app_nil_r | done].
Qed.

(** C6. A check enters the fallback extractor exactly when the table path
    leaves no session, that is when no table is selected or the selected
    table has no data row; when the table path leaves a session, the
    sessions of the check before the reference filter are those of the
    table path. *)
Theorem fallback_iff_table_path_empty :
  ∀ pg : page,
    ∃ sessions : list Session,
      outcome (table_path pg) = Ok sessions
      ∧ (Entered "fallback_extract_sessions" ∈ events (check_once pg)
         ↔ sessions = [])
      ∧ (sessions = []
         ↔ pick_session_table (page_tables pg) = None
           ∨ ∃ headers, pick_session_table (page_tables pg) = Some (headers, []))
      ∧ (sessions = []
         → outcome (extract_sessions pg)
           = Ok (fallback_extract_sessions (page_text pg)))
      ∧ (sessions ≠ []
         → outcome (extract_sessions pg) = Ok sessions
           ∧ outcome (check_once pg)
             = Ok (filter_references DEFAULT_REFERENCES sessions)).
Proof.
  intros pg. rewrite check_once_events.
  destruct (table_path pg) as [evs r] eqn:Hpath.
  pose proof (table_path_no_fallback pg evs r Hpath) as Hno.
  assert (∃ sessions, r = Ok sessions
            ∧ (sessions = []
               ↔ pick_session_table (page_tables pg) = None
                 ∨ ∃ headers, pick_session_table (page_tables pg) = Some (headers, [])))
    as (sessions & -> & Hempty).
  { destruct (table_path_cases pg) as [[Hpick Heq] | (h & rows & Hpick & Heq)];
      rewrite Heq in Hpath; injection Hpath as <- <-.
    - exists []. split; [done |]. split; [by left | done].
    - eexists. split; [done |]. rewrite Hpick. split.
      + intros Hnil. right. exists h. by destruct rows.
      + intros [[=] | [h' [= <- ->]]]. done. }
  exists sessions. split_and!; [done | | done | |].
  - rewrite (extract_sessions_of_table_path pg evs sessions Hpath).
    destruct sessions as [|s ss]; cbn.
    + split; [done |]. intros _. apply elem_of_app. right. apply list_elem_of_here.
    + rewrite app_nil_r. split; [done | discriminate].
  - intros ->. by rewrite (extract_sessions_of_table_path pg evs [] Hpath).
  - intros Hne. unfold check_once.
    rewrite (extract_sessions_of_table_path pg evs sessions Hpath).
    by destruct sessions.
Qed.

(** C5. Every session of the fallback extractor has an empty [hours]
    field and is classified "available", whatever the text holds: the
    classifier sees the empty action text only.  On the sample line a
    session is found, and the word "full" around it changes nothing. *)
Theorem fallback_sessions_available :
  (∀ text : string,
      Forall (fun s => hours s = "" ∧ availability s = "available")
        (fallback_extract_sessions text))
  ∧ fallback_extract_sessions
      "Course full. INLL Belval 18:00-20:00 Mon-Fri 2024-09-01 00:00:00 2024-12-01 00:00:00 450 FR0074-7681 full"
    = [ {| location := "INLL Belval";
           schedule := "18:00-20:00";
           hours := "";
           days := "Mon-Fri";
           start_date := "2024-09-01 00:00:00";
           end_date := "2024-12-01 00:00:00";
           fee := "450";
           reference := "FR0074-7681";
           availability := "available";
           action_text := "" |} ].
Proof.
  split; [| by vm_compute].
  intros text. unfold fallback_extract_sessions.
  induction (Regex.finditer pattern text) as [|g gs IH]; cbn [map].
  - constructor.
  - constructor; [| exact IH]. split; [done | by vm_compute].
Qed.

(** What one pass of [main] keeps under [--references]: the sessions whose
    reference is in the default set and in the given set. *)
Lemma main_sessions_with_references (pg : page) (refs : string) :
  truthy refs = true
  → ∃ sessions : list Session,
      outcome (extract_sessions pg) = Ok sessions
      ∧ outcome (main_sessions pg (Some refs))
        = Ok (filter (fun s => reference s ∈ DEFAULT_REFERENCES
                               ∧ reference s ∈ wanted_of refs) sessions).
Proof.
  intros Hrefs.
  assert (∃ evs all, extract_sessions pg = (evs, Ok all)) as (evs & all & Hex).
  { destruct (table_path_cases pg) as [[_ Heq] | (h & rows & _ & Heq)];
      rewrite (extract_sessions_of_table_path pg _ _ Heq);
      [eauto | destruct (map _ rows); eauto]. }
  exists all. unfold main_sessions, check_once. rewrite Hex, Hrefs.
  cbn -[filter_references wanted_of DEFAULT_REFERENCES].
  split; [done |]. f_equal. unfold filter_references.
  rewrite list_filter_filter. apply list_filter_iff. intros; tauto.
Qed.

(** The sample page: one table, one row, the action link reads "Book";
    then the same row with the link reading "Full". *)
Example check_once_book :
  check_once
    {| page_tables :=
         [(["Location"; "Schedule"; "Start Date"; "End Date"; "Fee"; "Reference"],
           [(["INLL Belval"; "18:00-20:00"; "2024-09-01 00:00:00";
              "2024-12-01 00:00:00"; "450"; "FR0074-7681"], "Book")])];
       page_text := "" |}
  = ([Entered "build_sessions_from_table"],
     Ok [ {| location := "INLL Belval";
             schedule := "18:00-20:00";
             hours := "";
             days := "";
             start_date := "2024-09-01 00:00:00";
             end_date := "2024-12-01 00:00:00";
             fee := "450";
             reference := "FR0074-7681";
             availability := "available";
             action_text := "Book" |} ]).
Proof. by vm_compute. Qed.

Example check_once_full :
  availability
  <$> outcome_list
        (check_once
           {| page_tables :=
                [(["Location"; "Schedule"; "Start Date"; "End Date"; "Fee"; "Reference"],
                  [(["INLL Belval"; "18:00-20:00"; "2024-09-01 00:00:00";
                     "2024-12-01 00:00:00"; "450"; "FR0074-7681"], "Full")])];
              page_text := "" |})
  = ["unavailable"].
Proof. by vm_compute. Qed.

(** C1 fails on the code: a session whose reference is named by
    [--references] but is not one of the two default references is
    extracted and then dropped, because [check_once] has already filtered
    with the default set. *)
Theorem references_override_dropped :
  let pg :=
    {| page_tables :=
         [(["Location"; "Schedule"; "Start Date"; "End Date"; "Fee"; "Reference"],
           [(["INLL Belval"; "18:00-20:00"; "2024-09-01 00:00:00";
              "2024-12-01 00:00:00"; "450"; "FR0074-9999"], "Book")])];
       page_text := "" |} in
  (∃ s : Session,
      outcome (extract_sessions pg) = Ok [s]
      ∧ reference s = "FR0074-9999"
      ∧ filter_references (wanted_of "FR0074-9999") [s] = [s])
  ∧ outcome (main_sessions pg (Some "FR0074-9999")) = Ok [].
Proof.
  split; [| by vm_compute].
  eexists. split_and!; [by vm_compute | done | by vm_compute].
Qed.

End CheckFacts.

(** ** The JSON rendering and its round trip *)

Module JsonFacts.
Import Py Text TextFacts Json Checker.

(** *** Numbers: hexadecimal digits and surrogate pairs *)

Lemma lor_shifted (a b n : N) :
  (b < 2 ^ n)%N → N.lor (N.shiftl a n) b = (a * 2 ^ n + b)%N.
Proof.
  intros Hb. rewrite <- N.shiftl_mul_pow2.
  assert (Hland : N.land (N.shiftl a n) b = 0%N).
  { apply N.bits_inj. intros i. rewrite N.land_spec, N.bits_0.
    destruct (N.lt_ge_cases i n) as [Hi | Hi].
    - by rewrite N.shiftl_spec_low.
    - rewrite <- (N.mod_small b (2 ^ n)) by done.
      rewrite N.mod_pow2_bits_high by done. apply andb_false_r. }
  by rewrite N.add_nocarry_lxor, N.lxor_lor.
Qed.

Lemma lor_high (a b : N) :
  (b < 1024)%N → N.lor (a * 1024) b = (a * 1024 + b)%N.
Proof.
  intros Hb. pose proof (lor_shifted a b 10 Hb) as H.
  rewrite N.shiftl_mul_pow2 in H. exact H.
Qed.

Lemma land_1023 (a : N) : N.land a 1023 = (a mod 1024)%N.
Proof. change 1023%N with (N.ones 10). by rewrite N.land_ones. Qed.

Lemma shiftr_10 (a : N) : N.shiftr a 10 = (a / 1024)%N.
Proof. by rewrite N.shiftr_div_pow2. Qed.

Lemma shiftl_10 (a : N) : N.shiftl a 10 = (a * 1024)%N.
Proof. by rewrite N.shiftl_mul_pow2. Qed.

Lemma high_half_eq (c : N) :
  (65536 ≤ c)%N → (c ≤ 1114111)%N → high_half c = (55296 + (c - 65536) / 1024)%N.
Proof.
  intros Hlo Hhi. unfold high_half. rewrite land_1023, shiftr_10.
  assert (Hq : ((c - 65536) / 1024 < 1024)%N).
  { apply N.Div0.div_lt_upper_bound. lia. }
  rewrite N.mod_small by done.
  change 55296%N with (54 * 1024)%N at 1. by rewrite lor_high.
Qed.

Lemma low_half_eq (c : N) :
  low_half c = (56320 + (c - 65536) mod 1024)%N.
Proof.
  unfold low_half. rewrite land_1023.
  change 56320%N with (55 * 1024)%N at 1.
  rewrite lor_high; [done |]. by apply N.mod_lt.
Qed.

Lemma join_surrogates_eq (hi lo : N) :
  (55296 ≤ hi)%N → (56320 ≤ lo)%N → (lo ≤ 57343)%N
  → join_surrogates hi lo = (65536 + (hi - 55296) * 1024 + (lo - 56320))%N.
Proof.
  intros Hhi Hlo1 Hlo2. unfold join_surrogates.
  rewrite shiftl_10, lor_high by lia. lia.
Qed.

Lemma join_halves (c : N) :
  (65536 ≤ c)%N → (c ≤ 1114111)%N
  → join_surrogates (high_half c) (low_half c) = c.
Proof.
  intros Hlo Hhi. rewrite high_half_eq, low_half_eq by done.
  pose proof (N.mod_lt (c - 65536) 1024 ltac:(done)) as Hm.
  pose proof (N.div_mod (c - 65536) 1024 ltac:(done)) as Hdm.
  set (q := ((c - 65536) / 1024)%N) in *.
  set (m := ((c - 65536) mod 1024)%N) in *.
  rewrite join_surrogates_eq; lia.
Qed.

Lemma high_half_range (c : N) :
  (65536 ≤ c)%N → (c ≤ 1114111)%N
  → (55296 ≤ high_half c)%N ∧ (high_half c ≤ 56319)%N.
Proof.
  intros Hlo Hhi. rewrite high_half_eq by done.
  assert (Hq : ((c - 65536) / 1024 < 1024)%N).
  { apply N.Div0.div_lt_upper_bound. lia. }
  set (q := ((c - 65536) / 1024)%N) in *. lia.
Qed.

Lemma low_half_range (c : N) :
  (56320 ≤ low_half c)%N ∧ (low_half c ≤ 57343)%N.
Proof.
  rewrite low_half_eq.
  pose proof (N.mod_lt (c - 65536) 1024 ltac:(done)) as Hm.
  set (m := ((c - 65536) mod 1024)%N) in *. lia.
Qed.

Lemma hex_value_digit (d : N) :
  (d < 16)%N → hex_value (code (hex_digit d)) = Some d.
Proof.
  intros Hd.
  assert (H : d ∈ [0; 1; 2; 3; 4; 5; 6; 7; 8; 9; 10; 11; 12; 13; 14; 15]%N).
  { rewrite !elem_of_cons. lia. }
  rewrite !elem_of_cons in H.
  repeat (destruct H as [-> | H]; [reflexivity |]).
  by apply elem_of_nil in H.
Qed.

Lemma hex4_value_hex4 (n : N) :
  (n < 65536)%N
  → hex4_value (code (hex_digit (n / 4096))) (code (hex_digit (n / 256 mod 16)))
      (code (hex_digit (n / 16 mod 16))) (code (hex_digit (n mod 16)))
    = Some n.
Proof.
  intros Hn. unfold hex4_value.
  assert (H1 : (n / 4096 < 16)%N) by (apply N.Div0.div_lt_upper_bound; lia).
  pose proof (N.mod_lt (n / 256) 16 ltac:(done)) as H2.
  pose proof (N.mod_lt (n / 16) 16 ltac:(done)) as H3.
  pose proof (N.mod_lt n 16 ltac:(done)) as H4.
  rewrite !hex_value_digit by done. f_equal.
  pose proof (N.div_mod n 16 ltac:(done)) as E1.
  pose proof (N.div_mod (n / 16) 16 ltac:(done)) as E2.
  pose proof (N.div_mod (n / 256) 16 ltac:(done)) as E3.
  assert (E4 : (n / 16 / 16 = n / 256)%N) by (by rewrite N.Div0.div_div).
  assert (E5 : (n / 256 / 16 = n / 4096)%N) by (by rewrite N.Div0.div_div).
  rewrite E4 in E2. rewrite E5 in E3.
  set (a := (n / 4096)%N) in *. set (b := (n / 256 mod 16)%N) in *.
  set (c := (n / 16 mod 16)%N) in *. set (d := (n mod 16)%N) in *.
  set (x := (n / 256)%N) in *. set (y := (n / 16)%N) in *. lia.
Qed.

(** *** The text of a dump as code points *)

Lemma of_string_app (a b : string) :
  Unicode.of_string (a +:+ b) = Unicode.of_string a ++ Unicode.of_string b.
Proof.
  induction a as [|c a IH]; [by rewrite append_nil_l |].
  rewrite append_cons. cbn. by rewrite IH.
Qed.

Lemma length_of_string (a : string) :
  length (Unicode.of_string a) = String.length a.
Proof. induction a as [|c a IH]; [done |]. cbn. by rewrite IH. Qed.

Lemma code_ascii_of_N (c : N) : (c < 256)%N → code (Ascii.ascii_of_N c) = c.
Proof. intros Hc. unfold code. by apply Ascii.N_ascii_embedding. Qed.

Lemma escape_char_cases (c : N) :
  (∃ e, Unicode.of_string (escape_char c) = [92; e]%N ∧ e ≠ 117%N
        ∧ unescape e = Some c ∧ (c < 128)%N)
  ∨ (Unicode.of_string (escape_char c) = [c]
     ∧ (32 ≤ c)%N ∧ (c ≤ 126)%N ∧ c ≠ 34%N ∧ c ≠ 92%N)
  ∨ ((c < 65536)%N
     ∧ Unicode.of_string (escape_char c) = 92%N :: 117%N :: hex_codes c)
  ∨ ((65536 ≤ c)%N
     ∧ Unicode.of_string (escape_char c)
       = 92%N :: 117%N :: hex_codes (high_half c)
         ++ 92%N :: 117%N :: hex_codes (low_half c)).
Proof.
  unfold escape_char.
  destruct (N.eqb_spec c 34) as [-> | H34]; [left; by exists 34%N |].
  destruct (N.eqb_spec c 92) as [-> | H92]; [left; by exists 92%N |].
  destruct (N.eqb_spec c 8) as [-> | H8]; [left; by exists 98%N |].
  destruct (N.eqb_spec c 12) as [-> | H12]; [left; by exists 102%N |].
  destruct (N.eqb_spec c 10) as [-> | H10]; [left; by exists 110%N |].
  destruct (N.eqb_spec c 13) as [-> | H13]; [left; by exists 114%N |].
  destruct (N.eqb_spec c 9) as [-> | H9]; [left; by exists 116%N |].
  destruct ((32 <=? c)%N && (c <=? 126)%N) eqn:Hp.
  { apply andb_true_iff in Hp as [Hlo%N.leb_le Hhi%N.leb_le].
    right. left. split_and!; try done. cbn. by rewrite code_ascii_of_N by lia. }
  destruct (N.ltb_spec c 65536) as [Hb | Hb].
  - right. right. left. split; [done |]. by rewrite of_string_app.
  - right. right. right. split; [done |]. by rewrite !of_string_app.
Qed.

Lemma is_char_eq (ch : ascii) (c : N) : is_char ch c = true ↔ c = code ch.
Proof. unfold is_char. apply N.eqb_eq. Qed.

(** *** [scanstring] on an escape [\uXXXX] *)

Lemma scanstring_u_plain (h1 h2 h3 h4 uni : N) (x : Unicode.str) :
  hex4_value h1 h2 h3 h4 = Some uni
  → Unicode.is_high_surrogate uni = false
  → scanstring (92 :: 117 :: h1 :: h2 :: h3 :: h4 :: x)%N
    = prepend uni (scanstring x).
Proof.
  intros Hh Hhigh. cbn [scanstring].
  change (is_char dquote 92) with false. change (is_char backslash 92) with true.
  change (is_char "u" 117) with true. cbv iota. by rewrite Hh, Hhigh.
Qed.

Lemma scanstring_u_pair (h1 h2 h3 h4 g1 g2 g3 g4 uni uni2 : N) (y : Unicode.str) :
  hex4_value h1 h2 h3 h4 = Some uni
  → Unicode.is_high_surrogate uni = true
  → hex4_value g1 g2 g3 g4 = Some uni2
  → Unicode.is_low_surrogate uni2 = true
  → scanstring (92 :: 117 :: h1 :: h2 :: h3 :: h4
                :: 92 :: 117 :: g1 :: g2 :: g3 :: g4 :: y)%N
    = prepend (join_surrogates uni uni2) (scanstring y).
Proof.
  intros Hh Hhigh Hg Hlow. cbn [scanstring].
  change (is_char dquote 92) with false. change (is_char backslash 92) with true.
  change (is_char "u" 117) with true. cbv iota. rewrite Hh, Hhigh.
  cbn [andb]. by rewrite Hg, Hlow.
Qed.

Lemma scanstring_u_not_low (h1 h2 h3 h4 g1 g2 g3 g4 uni uni2 : N) (y : Unicode.str) :
  hex4_value h1 h2 h3 h4 = Some uni
  → Unicode.is_high_surrogate uni = true
  → hex4_value g1 g2 g3 g4 = Some uni2
  → Unicode.is_low_surrogate uni2 = false
  → scanstring (92 :: 117 :: h1 :: h2 :: h3 :: h4
                :: 92 :: 117 :: g1 :: g2 :: g3 :: g4 :: y)%N
    = prepend uni (scanstring (92 :: 117 :: g1 :: g2 :: g3 :: g4 :: y)%N).
Proof.
  intros Hh Hhigh Hg Hlow.
  set (tail := (92 :: 117 :: g1 :: g2 :: g3 :: g4 :: y)%N).
  cbn [scanstring].
  change (is_char dquote 92) with false. change (is_char backslash 92) with true.
  change (is_char "u" 117) with true. cbv iota. rewrite Hh, Hhigh.
  unfold tail at 1.
  change (is_char backslash 92) with true. change (is_char "u" 117) with true.
  cbn [andb]. by rewrite Hg, Hlow.
Qed.

Lemma scanstring_u_other (h1 h2 h3 h4 uni : N) (x : Unicode.str) :
  hex4_value h1 h2 h3 h4 = Some uni
  → (∀ t, x ≠ (92 :: 117 :: t)%N)
  → scanstring (92 :: 117 :: h1 :: h2 :: h3 :: h4 :: x)%N
    = prepend uni (scanstring x).
Proof.
  intros Hh Hx.
  destruct (Unicode.is_high_surrogate uni) eqn:Hhigh;
    [| by apply scanstring_u_plain].
  set (r := prepend uni (scanstring x)).
  cbn [scanstring].
  change (is_char dquote 92) with false. change (is_char backslash 92) with true.
  change (is_char "u" 117) with true. cbv iota. rewrite Hh, Hhigh.
  destruct x as [|b [|u [|g1 [|g2 [|g3 [|g4 s4]]]]]]; try done.
  destruct (is_char backslash b && is_char "u" u) eqn:Hbu; [| done].
  apply andb_true_iff in Hbu as [->%is_char_eq ->%is_char_eq].
  by destruct (Hx (g1 :: g2 :: g3 :: g4 :: s4)).
Qed.

Lemma hex4_value_codes (n : N) (x : Unicode.str) :
  (n < 65536)%N
  → ∃ h1 h2 h3 h4, hex_codes n ++ x = h1 :: h2 :: h3 :: h4 :: x
                   ∧ hex4_value h1 h2 h3 h4 = Some n.
Proof. intros Hn. eexists _, _, _, _. split; [done |]. by apply hex4_value_hex4. Qed.

Lemma read_back_cons (c : N) (s : Unicode.str) :
  Unicode.is_high_surrogate c = false → read_back (c :: s) = c :: read_back s.
Proof. intros Hc. destruct s as [|c2 s]; [done |]. cbn [read_back]. by rewrite Hc. Qed.

Lemma read_back_not_low (c c2 : N) (s : Unicode.str) :
  Unicode.is_low_surrogate c2 = false
  → read_back (c :: c2 :: s) = c :: read_back (c2 :: s).
Proof. intros Hc. cbn [read_back]. by rewrite Hc, andb_false_r. Qed.

Lemma read_back_pair (c c2 : N) (s : Unicode.str) :
  Unicode.is_high_surrogate c = true → Unicode.is_low_surrogate c2 = true
  → read_back (c :: c2 :: s) = join_surrogates c c2 :: read_back s.
Proof. intros Hc Hc2. cbn [read_back]. by rewrite Hc, Hc2. Qed.

Lemma scanstring_plain (c : N) (x : Unicode.str) :
  (32 ≤ c)%N → c ≠ 34%N → c ≠ 92%N
  → scanstring (c :: x) = prepend c (scanstring x).
Proof.
  intros Hlo H34 H92. cbn [scanstring].
  assert (Hq : is_char dquote c = false) by by apply N.eqb_neq.
  assert (Hb : is_char backslash c = false) by by apply N.eqb_neq.
  rewrite Hq, Hb. by destruct (N.ltb_spec c 32); [lia |].
Qed.

Lemma scanstring_short (e c : N) (x : Unicode.str) :
  e ≠ 117%N → unescape e = Some c
  → scanstring (92 :: e :: x)%N = prepend c (scanstring x).
Proof.
  intros He Hu. cbn [scanstring].
  change (is_char dquote 92) with false. change (is_char backslash 92) with true.
  cbv iota. assert (Hn : is_char "u" e = false) by by apply N.eqb_neq.
  by rewrite Hn, Hu.
Qed.

Lemma high_is_bmp (c : N) :
  Unicode.is_high_surrogate c = true → (55296 ≤ c)%N ∧ (c ≤ 56319)%N.
Proof.
  unfold Unicode.is_high_surrogate.
  by intros [?%N.leb_le ?%N.leb_le]%andb_true_iff.
Qed.

Lemma low_is_bmp (c : N) :
  Unicode.is_low_surrogate c = true → (56320 ≤ c)%N ∧ (c ≤ 57343)%N.
Proof.
  unfold Unicode.is_low_surrogate.
  by intros [?%N.leb_le ?%N.leb_le]%andb_true_iff.
Qed.

Lemma not_high (c : N) :
  (c < 55296)%N ∨ (56319 < c)%N → Unicode.is_high_surrogate c = false.
Proof.
  intros H. unfold Unicode.is_high_surrogate. apply andb_false_iff.
  destruct H; [left; by apply N.leb_gt | right; by apply N.leb_gt].
Qed.

Lemma not_low (c : N) :
  (c < 56320)%N ∨ (57343 < c)%N → Unicode.is_low_surrogate c = false.
Proof.
  intros H. unfold Unicode.is_low_surrogate. apply andb_false_iff.
  destruct H; [left; by apply N.leb_gt | right; by apply N.leb_gt].
Qed.

Lemma high_half_high (c : N) :
  (65536 ≤ c)%N → (c ≤ 1114111)%N
  → Unicode.is_high_surrogate (high_half c) = true ∧ (high_half c < 65536)%N.
Proof.
  intros Hlo Hhi. destruct (high_half_range c Hlo Hhi) as [H1 H2].
  split; [| lia]. unfold Unicode.is_high_surrogate.
  apply andb_true_iff. split; by apply N.leb_le.
Qed.

Lemma low_half_low (c : N) :
  Unicode.is_low_surrogate (low_half c) = true ∧ (low_half c < 65536)%N.
Proof.
  destruct (low_half_range c) as [H1 H2].
  split; [| lia]. unfold Unicode.is_low_surrogate.
  apply andb_true_iff. split; by apply N.leb_le.
Qed.

(** What follows an escaped high surrogate [uni] in the escaped form of a
    text: the escape of the next character [c2], or the closing quote. *)
Lemma scanstring_after_high (h1 h2 h3 h4 uni c2 : N) (x : Unicode.str) :
  hex4_value h1 h2 h3 h4 = Some uni
  → Unicode.is_high_surrogate uni = true
  → Unicode.is_code_point c2
  → scanstring (92 :: 117 :: h1 :: h2 :: h3 :: h4
                :: Unicode.of_string (escape_char c2) ++ x)%N
    = if Unicode.is_low_surrogate c2
      then prepend (join_surrogates uni c2) (scanstring x)
      else prepend uni (scanstring (Unicode.of_string (escape_char c2) ++ x)).
Proof.
  intros Hh Hhigh Hc2.
  destruct (escape_char_cases c2)
    as [(e & -> & He & Hu & Hsmall) | [(-> & Hlo & Hhi & H34 & H92)
        | [(Hb & ->) | (Hb & ->)]]].
  - rewrite not_low by lia.
    apply scanstring_u_other; [done |]. intros t [= Ht _]. done.
  - rewrite not_low by lia.
    apply scanstring_u_other; [done |]. intros t [= Ht]. lia.
  - destruct (hex4_value_codes c2 x Hb) as (g1 & g2 & g3 & g4 & Heq & Hg).
    change ((92 :: 117 :: hex_codes c2) ++ x)%N
      with (92 :: 117 :: hex_codes c2 ++ x)%N.
    rewrite Heq. destruct (Unicode.is_low_surrogate c2) eqn:Hl.
    + by apply (scanstring_u_pair _ _ _ _ _ _ _ _ uni c2).
    + by apply (scanstring_u_not_low _ _ _ _ _ _ _ _ uni c2).
  - unfold Unicode.is_code_point in Hc2.
    destruct (high_half_high c2 Hb Hc2) as [Hhh Hhb].
    rewrite not_low by lia.
    rewrite <- !app_comm_cons, <- app_assoc.
    destruct (hex4_value_codes (high_half c2)
                ((92 :: 117 :: hex_codes (low_half c2))%N ++ x) Hhb)
      as (g1 & g2 & g3 & g4 & Heq & Hg).
    rewrite Heq.
    apply (scanstring_u_not_low _ _ _ _ _ _ _ _ uni (high_half c2)); try done.
    apply high_is_bmp in Hhh. apply not_low. lia.
Qed.

Lemma escape_text_cons (c : N) (s : Unicode.str) (x : Unicode.str) :
  Unicode.of_string (escape (c :: s)) ++ x
  = Unicode.of_string (escape_char c) ++ Unicode.of_string (escape s) ++ x.
Proof. cbn [escape]. by rewrite of_string_app, <- app_assoc. Qed.

Lemma scanstring_escape_bound (n : nat) :
  ∀ (s rest : Unicode.str),
    (length s ≤ n)%nat → Unicode.is_str s
    → scanstring (Unicode.of_string (escape s) ++ 34%N :: rest)
      = Some (read_back s, rest).
Proof.
  induction n as [n IH] using lt_wf_ind. intros s rest Hlen Hstr.
  destruct s as [|c s]; [done |].
  apply Forall_cons in Hstr as [Hc Hs]. cbn [length] in Hlen.
  assert (IHs : ∀ t, (length t ≤ length s)%nat → Unicode.is_str t
                     → scanstring (Unicode.of_string (escape t) ++ 34%N :: rest)
                       = Some (read_back t, rest)).
  { intros t Ht Hstr. apply (IH (length s)); [lia | done | done]. }
  rewrite escape_text_cons.
  set (x := Unicode.of_string (escape s) ++ 34%N :: rest).
  destruct (Unicode.is_high_surrogate c) eqn:Hhigh.
  - pose proof (high_is_bmp c Hhigh) as [Hlo Hhi].
    destruct (escape_char_cases c)
      as [(e & _ & _ & _ & Hsmall) | [(_ & _ & Hp & _)
          | [(Hb & ->) | (Hb & _)]]]; [lia | lia | | lia].
    rewrite <- !app_comm_cons.
    destruct (hex4_value_codes c x Hb) as (h1 & h2 & h3 & h4 & -> & Hh).
    subst x. destruct s as [|c2 s].
    + rewrite (scanstring_u_other _ _ _ _ c); [done | done |].
      intros t. cbn. by intros [=].
    + apply Forall_cons in Hs as [Hc2 Hs]. rewrite escape_text_cons.
      rewrite (scanstring_after_high _ _ _ _ c c2) by done.
      destruct (Unicode.is_low_surrogate c2) eqn:Hl.
      * rewrite IHs; [| cbn; lia | done]. by rewrite read_back_pair.
      * rewrite <- escape_text_cons, IHs; [| done | by constructor].
        by rewrite read_back_not_low.
  - rewrite read_back_cons by done.
    assert (Hx : scanstring x = Some (read_back s, rest)) by by apply IHs.
    destruct (escape_char_cases c)
      as [(e & -> & He & Hu & _) | [(-> & Hlo & Hhi & H34 & H92)
          | [(Hb & ->) | (Hb & ->)]]].
    + cbn [app]. by rewrite (scanstring_short e c), Hx.
    + cbn [app]. by rewrite scanstring_plain, Hx.
    + rewrite <- !app_comm_cons.
      destruct (hex4_value_codes c x Hb) as (h1 & h2 & h3 & h4 & -> & Hh).
      by rewrite (scanstring_u_plain _ _ _ _ c), Hx.
    + unfold Unicode.is_code_point in Hc.
      destruct (high_half_high c Hb Hc) as [Hhh Hhb].
      destruct (low_half_low c) as [Hll Hlb].
      rewrite <- !app_comm_cons, <- app_assoc, <- !app_comm_cons.
      destruct (hex4_value_codes (low_half c) x Hlb)
        as (g1 & g2 & g3 & g4 & -> & Hg).
      destruct (hex4_value_codes (high_half c)
                  (92 :: 117 :: g1 :: g2 :: g3 :: g4 :: x)%N Hhb)
        as (h1 & h2 & h3 & h4 & -> & Hh).
      rewrite (scanstring_u_pair _ _ _ _ _ _ _ _ (high_half c) (low_half c))
        by done.
      by rewrite join_halves, Hx.
Qed.

(** The decoder on the escaped form of a text: what comes back is the
    text with its surrogate pairs joined. *)
Lemma scanstring_escape (s rest : Unicode.str) :
  Unicode.is_str s
  → scanstring (Unicode.of_string (escape s) ++ 34%N :: rest)
    = Some (read_back s, rest).
Proof. by apply (scanstring_escape_bound (length s)). Qed.

(** *** The scanner on a dump *)

Lemma skip_ws_spaces (n : nat) (x : Unicode.str) :
  skip_ws (Unicode.of_string (spaces n) ++ x) = skip_ws x.
Proof. induction n as [|n IH]; [done | exact IH]. Qed.

Lemma skip_ws_newline_indent (level : nat) (x : Unicode.str) :
  skip_ws (Unicode.of_string (newline_indent level) ++ x) = skip_ws x.
Proof. unfold newline_indent. cbn. apply skip_ws_spaces. Qed.

Lemma expect_here (c : ascii) (x : Unicode.str) :
  expect c (code c :: x) = Some x.
Proof. unfold expect, is_char. by rewrite N.eqb_refl. Qed.

Lemma expect_other (c : ascii) (c' : N) (x : Unicode.str) :
  c' ≠ code c → expect c (c' :: x) = None.
Proof. intros H. unfold expect, is_char. by apply N.eqb_neq in H as ->. Qed.

Lemma expect_length (c : ascii) (s rest : Unicode.str) :
  expect c s = Some rest → length s = S (length rest).
Proof.
  destruct s as [|c' s]; [done |]. unfold expect.
  destruct (is_char c c'); [| done]. by intros [= ->].
Qed.

Lemma encode_string_text (s : Unicode.str) (x : Unicode.str) :
  Unicode.of_string (encode_string s) ++ x
  = 34%N :: Unicode.of_string (escape s) ++ 34%N :: x.
Proof.
  unfold encode_string. cbn [Unicode.of_string app].
  rewrite of_string_app, <- app_assoc. done.
Qed.

Lemma scan_once_string (n : nat) (s rest : Unicode.str) :
  Unicode.is_str s
  → scan_once (S n) (Unicode.of_string (encode_string s) ++ rest)
    = Some (JStr (read_back s), rest).
Proof.
  intros Hs. rewrite encode_string_text. cbn [scan_once].
  change (is_char dquote 34) with true. cbv iota.
  by rewrite scanstring_escape.
Qed.

Lemma member_text_body (kv : Unicode.str * Unicode.str) (tail : Unicode.str) :
  Unicode.of_string (member_text kv) ++ tail = 34%N :: member_body kv tail.
Proof.
  unfold member_text, member_body.
  rewrite !of_string_app, <- !app_assoc, encode_string_text. done.
Qed.

Lemma members_step (n fuel : nat) (kv : Unicode.str * Unicode.str)
    (acc : list (Unicode.str * value)) (tail : Unicode.str) :
  is_entry kv
  → members (scan_once (S n)) (S fuel) (member_body kv tail) acc
    = match expect "}" (skip_ws tail) with
      | Some rest => Some (JObj (dict (acc ++ [member_read kv])), rest)
      | None =>
          match expect "," (skip_ws tail) with
          | None => None
          | Some rest =>
              match expect dquote (skip_ws rest) with
              | Some rest' =>
                  members (scan_once (S n)) fuel rest' (acc ++ [member_read kv])
              | None => None
              end
          end
      end.
Proof.
  intros [Hk Hv]. unfold member_body. cbn [members].
  rewrite scanstring_escape by done.
  change (skip_ws (58 :: 32 :: ?x)%N) with (58 :: 32 :: x)%N.
  change (expect ":" (58 :: ?x)%N) with (Some x).
  cbv iota beta.
  change (skip_ws (32 :: ?x)%N) with (skip_ws x).
  rewrite encode_string_text.
  change (skip_ws (34 :: ?x)%N) with (34 :: x)%N.
  rewrite <- encode_string_text, scan_once_string by done. reflexivity.
Qed.

Lemma join_cons2 (sep x y : string) (l : list string) :
  join sep (x :: y :: l) = x +:+ sep +:+ join sep (y :: l).
Proof. reflexivity. Qed.

Lemma members_join (n level : nat) (d : list (Unicode.str * Unicode.str)) :
  ∀ (kv : Unicode.str * Unicode.str) (acc : list (Unicode.str * value))
    (fuel : nat) (tail rest : Unicode.str),
    (length (kv :: d) ≤ fuel)%nat
    → Forall is_entry (kv :: d)
    → skip_ws tail = code "}" :: rest
    → ∃ body,
        Unicode.of_string
          (join ("," +:+ newline_indent level) (map member_text (kv :: d)))
        ++ tail
        = 34%N :: body
        ∧ members (scan_once (S n)) fuel body acc
          = Some (JObj (dict (acc ++ map member_read (kv :: d))), rest).
Proof.
  induction d as [|kv' d IH]; intros kv acc fuel tail rest Hfuel Hall Htail;
    (destruct fuel as [|fuel]; [cbn in Hfuel; lia |]);
    apply Forall_cons in Hall as [Hkv Hall].
  - exists (member_body kv tail). split; [apply member_text_body |].
    by rewrite members_step, Htail, expect_here.
  - destruct (IH kv' (acc ++ [member_read kv]) fuel tail rest)
      as (body & Hbody & Hmem); [cbn in *; lia | done | done |].
    exists (member_body kv
              (Unicode.of_string ("," +:+ newline_indent level) ++ 34%N :: body)).
    split.
    + cbn [map] in *. rewrite join_cons2, !of_string_app, <- !app_assoc.
      rewrite Hbody. by rewrite <- member_text_body.
    + rewrite members_step by done. rewrite of_string_app, <- app_assoc.
      change (Unicode.of_string "," ++ ?x) with (44%N :: x).
      change (skip_ws (44 :: ?x)%N) with (44 :: x)%N.
      rewrite expect_other by done.
      change (expect "," (44 :: ?x)%N) with (Some x). cbv iota beta.
      rewrite skip_ws_newline_indent.
      change (skip_ws (34 :: ?x)%N) with (34 :: x)%N.
      change (expect dquote (34 :: ?x)%N) with (Some x). cbv iota beta.
      rewrite Hmem. by rewrite <- app_assoc.
Qed.

Lemma dumps_dict_head (level : nat) (d : list (Unicode.str * Unicode.str))
    (x : Unicode.str) :
  ∃ body, Unicode.of_string (dumps_dict level d) ++ x = 123%N :: body.
Proof. destruct d; by eexists. Qed.

Lemma scan_once_object (fuel : nat) (s : Unicode.str) :
  scan_once (S fuel) (123%N :: s)
  = match expect "}" (skip_ws s) with
    | Some rest => Some (JObj [], rest)
    | None =>
        match expect dquote (skip_ws s) with
        | Some rest => members (scan_once fuel) fuel rest []
        | None => None
        end
    end.
Proof. reflexivity. Qed.

Lemma scan_once_array (fuel : nat) (s : Unicode.str) :
  scan_once (S fuel) (91%N :: s)
  = match expect "]" (skip_ws s) with
    | Some rest => Some (JArr [], rest)
    | None => items (scan_once fuel) fuel (skip_ws s) []
    end.
Proof. reflexivity. Qed.

Lemma scan_once_dict (n level : nat) (d : list (Unicode.str * Unicode.str))
    (rest : Unicode.str) :
  (length d ≤ S n)%nat
  → Forall is_entry d
  → scan_once (S (S n)) (Unicode.of_string (dumps_dict level d) ++ rest)
    = Some (JObj (dict (map member_read d)), rest).
Proof.
  intros Hfuel Hall. destruct d as [|kv d]; [done |].
  unfold dumps_dict.
  destruct (members_join n (S level) d kv [] (S n)
              (Unicode.of_string (newline_indent level +:+ "}") ++ rest) rest)
    as (body & Hbody & Hmem); [done | done | |].
  { rewrite of_string_app, <- app_assoc. by rewrite skip_ws_newline_indent. }
  rewrite !of_string_app, <- !app_assoc.
  rewrite !of_string_app, <- !app_assoc in Hbody. rewrite Hbody.
  change (Unicode.of_string "{" ++ ?x) with (123%N :: x).
  rewrite scan_once_object, skip_ws_newline_indent.
  change (skip_ws (34 :: ?x)%N) with (34 :: x)%N.
  rewrite expect_other by done.
  change (expect dquote (34 :: ?x)%N) with (Some x). cbv iota beta.
  by rewrite Hmem.
Qed.

Lemma skip_ws_dumps_dict (level : nat) (d : list (Unicode.str * Unicode.str))
    (x : Unicode.str) :
  skip_ws (Unicode.of_string (dumps_dict level d) ++ x)
  = Unicode.of_string (dumps_dict level d) ++ x.
Proof. by destruct d. Qed.

Lemma skip_ws_join_dicts (sep : string) (d : list (Unicode.str * Unicode.str))
    (ds : list (list (Unicode.str * Unicode.str))) (x : Unicode.str) :
  skip_ws (Unicode.of_string
             (join sep (dumps_dict 1 d :: map (dumps_dict 1) ds)) ++ x)
  = Unicode.of_string (join sep (dumps_dict 1 d :: map (dumps_dict 1) ds)) ++ x.
Proof.
  destruct ds as [|d' ds]; cbn [map].
  - apply skip_ws_dumps_dict.
  - rewrite join_cons2, of_string_app, <- app_assoc. apply skip_ws_dumps_dict.
Qed.

Lemma items_join (n : nat) (ds : list (list (Unicode.str * Unicode.str))) :
  ∀ (d : list (Unicode.str * Unicode.str)) (acc : list value) (fuel : nat)
    (tail rest : Unicode.str),
    (length (d :: ds) ≤ fuel)%nat
    → Forall (fun d => length d ≤ S n)%nat (d :: ds)
    → Forall (Forall is_entry) (d :: ds)
    → skip_ws tail = code "]" :: rest
    → items (scan_once (S (S n))) fuel
        (Unicode.of_string
           (join ("," +:+ newline_indent 1)
              (dumps_dict 1 d :: map (dumps_dict 1) ds)) ++ tail) acc
      = Some (JArr (acc ++ JObj (dict (map member_read d))
                          :: map (fun d => JObj (dict (map member_read d))) ds),
              rest).
Proof.
  induction ds as [|d' ds IH]; intros d acc fuel tail rest Hfuel Hall Hent Htail;
    (destruct fuel as [|fuel]; [cbn in Hfuel; lia |]);
    apply Forall_cons in Hall as [Hd Hall];
    apply Forall_cons in Hent as [Hde Hent].
  - cbn [map join items]. rewrite scan_once_dict by done.
    cbv iota beta. by rewrite Htail, expect_here.
  - cbn [map]. rewrite join_cons2, !of_string_app, <- !app_assoc. cbn [items].
    rewrite scan_once_dict by done. cbv iota beta.
    change (Unicode.of_string "," ++ ?x) with (44%N :: x).
    change (skip_ws (44 :: ?x)%N) with (44 :: x)%N.
    rewrite expect_other by done.
    change (expect "," (44 :: ?x)%N) with (Some x). cbv iota beta.
    rewrite skip_ws_newline_indent, skip_ws_join_dicts.
    rewrite (IH d' _ fuel tail rest); [| cbn in *; lia | done | done | done].
    by rewrite <- app_assoc.
Qed.

Lemma dict_set_fresh {V} (k : Unicode.str) (v : V) (d : list (Unicode.str * V)) :
  k ∉ map fst d → dict_set k v d = d ++ [(k, v)].
Proof.
  induction d as [|[k' v'] d IH]; intros Hk; cbn; [done |].
  cbn in Hk. apply not_elem_of_cons in Hk as [Hne Hk].
  rewrite bool_decide_eq_false_2 by done. by rewrite IH.
Qed.

Lemma dict_fold_NoDup {V} (pairs acc : list (Unicode.str * V)) :
  NoDup (map fst (acc ++ pairs))
  → fold_left (fun d kv => dict_set kv.1 kv.2 d) pairs acc = acc ++ pairs.
Proof.
  revert acc. induction pairs as [|[k v] pairs IH]; intros acc Hnd; cbn.
  - by rewrite app_nil_r.
  - rewrite dict_set_fresh.
    + rewrite IH; rewrite <- app_assoc; done.
    + rewrite map_app in Hnd. cbn in Hnd.
      apply NoDup_app in Hnd as (_ & Hdisj & _).
      intros Hin. apply (Hdisj k Hin). apply list_elem_of_here.
Qed.

Lemma dict_NoDup {V} (pairs : list (Unicode.str * V)) :
  NoDup (map fst pairs) → dict pairs = pairs.
Proof. intros H. unfold dict. by rewrite dict_fold_NoDup. Qed.

Lemma length_append (a b : string) :
  String.length (a +:+ b) = (String.length a + String.length b)%nat.
Proof.
  induction a as [|c a IH]; [done |].
  rewrite append_cons. cbn [String.length]. by rewrite IH.
Qed.

Lemma length_join_elem (sep x : string) (l : list string) :
  x ∈ l → (String.length x ≤ String.length (join sep l))%nat.
Proof.
  induction l as [|y l IH]; intros Hin; [by apply elem_of_nil in Hin |].
  destruct l as [|z l].
  - apply list_elem_of_singleton in Hin as ->. done.
  - rewrite join_cons2, !length_append.
    apply elem_of_cons in Hin as [-> | Hin]; [lia |].
    specialize (IH Hin). lia.
Qed.

Lemma length_join_count (sep : string) (l : list string) :
  Forall (fun x => 1 ≤ String.length x)%nat l
  → (length l ≤ String.length (join sep l))%nat.
Proof.
  induction l as [|y l IH]; intros Hall; [done |].
  apply Forall_cons in Hall as [Hy Hall]. destruct l as [|z l].
  - cbn. lia.
  - rewrite join_cons2, !length_append. specialize (IH Hall). cbn in *. lia.
Qed.

Lemma length_member_text (kv : Unicode.str * Unicode.str) :
  (1 ≤ String.length (member_text kv))%nat.
Proof. unfold member_text, encode_string. rewrite append_cons. cbn. lia. Qed.

Lemma length_dumps_dict (level : nat) (d : list (Unicode.str * Unicode.str)) :
  (length d + 2 ≤ String.length (dumps_dict level d))%nat.
Proof.
  destruct d as [|kv d]; [cbn; lia |]. unfold dumps_dict.
  rewrite !length_append.
  change (String.length "{") with 1%nat. change (String.length "}") with 1%nat.
  pose proof (length_join_count ("," +:+ newline_indent (S level))
                (map member_text (kv :: d))) as H.
  rewrite length_map in H.
  assert (Hall : Forall (λ x : string, (1 ≤ String.length x)%nat)
                   (map member_text (kv :: d))).
  { apply Forall_forall. intros x [kv' [-> _]]%list_elem_of_fmap.
    apply length_member_text. }
  specialize (H Hall). lia.
Qed.

Lemma length_dumps (ds : list (list (Unicode.str * Unicode.str))) :
  (length ds ≤ String.length (dumps ds))%nat
  ∧ Forall (fun d => length d + 3 ≤ String.length (dumps ds))%nat ds.
Proof.
  destruct ds as [|d ds]; [split; [cbn; lia | constructor] |]. unfold dumps.
  rewrite !length_append.
  change (String.length "[") with 1%nat. change (String.length "]") with 1%nat.
  set (l := map (dumps_dict 1) (d :: ds)).
  set (sep := "," +:+ newline_indent 1).
  assert (Hall : Forall (λ x : string, (1 ≤ String.length x)%nat) l).
  { apply Forall_forall. intros x [d' [-> _]]%list_elem_of_fmap.
    pose proof (length_dumps_dict 1 d'). lia. }
  split.
  - pose proof (length_join_count sep l Hall) as H. unfold l in H at 1.
    rewrite length_map in H. lia.
  - apply Forall_forall. intros d' Hd'.
    pose proof (length_dumps_dict 1 d').
    assert (Hin : dumps_dict 1 d' ∈ l) by by apply list_elem_of_fmap_2.
    pose proof (length_join_elem sep (dumps_dict 1 d') l Hin). lia.
Qed.

Lemma join_dicts_head (sep : string) (d : list (Unicode.str * Unicode.str))
    (ds : list (list (Unicode.str * Unicode.str))) (x : Unicode.str) :
  ∃ body,
    Unicode.of_string (join sep (dumps_dict 1 d :: map (dumps_dict 1) ds)) ++ x
    = 123%N :: body.
Proof.
  destruct ds as [|d' ds]; cbn [map].
  - apply dumps_dict_head.
  - rewrite join_cons2, of_string_app, <- app_assoc. apply dumps_dict_head.
Qed.

Lemma scan_once_dumps (n : nat) (ds : list (list (Unicode.str * Unicode.str)))
    (trail : Unicode.str) :
  (length ds ≤ S (S n))%nat
  → Forall (fun d => length d ≤ S n)%nat ds
  → Forall (Forall is_entry) ds
  → scan_once (S (S (S n))) (Unicode.of_string (dumps ds) ++ trail)
    = Some (JArr (map (fun d => JObj (dict (map member_read d))) ds), trail).
Proof.
  intros Hlen Hall Hent. destruct ds as [|d ds]; [done |].
  unfold dumps. cbn [map]. rewrite !of_string_app, <- !app_assoc.
  change (Unicode.of_string "[" ++ ?x) with (91%N :: x).
  rewrite scan_once_array, skip_ws_newline_indent, skip_ws_join_dicts.
  destruct (join_dicts_head ("," +:+ newline_indent 1) d ds
              (Unicode.of_string (newline_indent 0)
               ++ Unicode.of_string "]" ++ trail)) as [body Hbody].
  rewrite Hbody, expect_other by done. rewrite <- Hbody.
  by rewrite (items_join n ds d [] (S (S n)) _ trail).
Qed.

(** Round trip of the dump of a list of dictionaries, whatever white
    space follows the dump: every entry comes back read from its escaped
    form. *)
Lemma loads_dumps (ds : list (list (Unicode.str * Unicode.str)))
    (trail : Unicode.str) :
  Forall (Forall is_entry) ds
  → skip_ws trail = []
  → loads (Unicode.of_string (dumps ds) ++ trail)
    = Ok (JArr (map (fun d => JObj (dict (map member_read d))) ds)).
Proof.
  intros Hent Htrail. unfold loads.
  assert (Hskip : skip_ws (Unicode.of_string (dumps ds) ++ trail)
                  = Unicode.of_string (dumps ds) ++ trail) by by destruct ds.
  pose proof (length_dumps ds) as [Hlen Hall].
  assert (Hfuel : S (length (Unicode.of_string (dumps ds) ++ trail))
                  = S (S (S (length (Unicode.of_string (dumps ds) ++ trail) - 2)))).
  { rewrite length_app, length_of_string. destruct ds as [|d ds]; [cbn; lia |].
    apply Forall_cons in Hall as [Hd _]. lia. }
  rewrite Hskip, Hfuel, scan_once_dumps, Htrail; [done | | | done].
  - rewrite length_app, length_of_string. lia.
  - eapply Forall_impl; [exact Hall |]. intros d Hd. cbn beta in Hd.
    rewrite length_app, length_of_string. lia.
Qed.

(** *** The bound on the recursion of the scanner *)

Lemma skip_ws_length (s : Unicode.str) : (length (skip_ws s) ≤ length s)%nat.
Proof.
  induction s as [|c s IH]; cbn [skip_ws length]; [done |].
  destruct (is_ws c); cbn [length]; lia.
Qed.

Lemma prepend_shorter (c : N) (s x rest : Unicode.str) (n : nat) :
  (∀ y r, scanstring s = Some (y, r) → (length r < n)%nat)
  → prepend c (scanstring s) = Some (x, rest) → (length rest < n)%nat.
Proof.
  intros H. destruct (scanstring s) as [[y r]|] eqn:Hs; [| done].
  intros [= <- <-]. by eapply H.
Qed.

Lemma scanstring_shorter (s x rest : Unicode.str) :
  scanstring s = Some (x, rest) → (length rest < length s)%nat.
Proof.
  remember (length s) as n eqn:Hn. revert s x rest Hn.
  induction n as [n IH] using lt_wf_ind. intros s x rest -> Hs.
  assert (Hrec : ∀ (t : Unicode.str) c,
            (length t < length s)%nat
            → prepend c (scanstring t) = Some (x, rest)
            → (length rest < length s)%nat).
  { intros t c Ht Hp. eapply (prepend_shorter c t x rest); [| exact Hp].
    intros y r Hy. specialize (IH (length t) Ht t y r eq_refl Hy). lia. }
  destruct s as [|c s]; [done |]. cbn [scanstring] in Hs.
  destruct (is_char dquote c).
  { injection Hs as <- <-. cbn. lia. }
  destruct (is_char backslash c).
  - destruct s as [|e s]; [done |]. destruct (is_char "u" e).
    + destruct s as [|h1 [|h2 [|h3 [|h4 s]]]]; try done.
      destruct (hex4_value h1 h2 h3 h4) as [uni|]; [| done].
      destruct (Unicode.is_high_surrogate uni).
      * destruct s as [|b [|u [|g1 [|g2 [|g3 [|g4 s4]]]]]];
          try (apply Hrec in Hs; [done | cbn; lia]).
        destruct (is_char backslash b && is_char "u" u);
          [| apply Hrec in Hs; [done | cbn; lia]].
        destruct (hex4_value g1 g2 g3 g4) as [uni2|]; [| done].
        destruct (Unicode.is_low_surrogate uni2);
          apply Hrec in Hs; try done; cbn; lia.
      * apply Hrec in Hs; [done | cbn; lia].
    + destruct (unescape e); [| done]. apply Hrec in Hs; [done | cbn; lia].
  - destruct (c <? 32)%N; [done |]. apply Hrec in Hs; [done | cbn; lia].
Qed.

Lemma strip_prefix_length (p : string) (s rest : Unicode.str) :
  strip_prefix p s = Some rest → length s = (String.length p + length rest)%nat.
Proof.
  revert s. induction p as [|a p IH]; intros s; cbn.
  - by intros [= ->].
  - destruct s as [|b s]; [done |]. destruct (is_char a b); [| done].
    intros Hp%IH. cbn. lia.
Qed.

Lemma span_digits_length (s d r : Unicode.str) :
  span_digits s = (d, r) → length s = (length d + length r)%nat.
Proof.
  revert d r. induction s as [|c s IH]; intros d r; cbn.
  - by intros [= <- <-].
  - destruct (is_digit c).
    + destruct (span_digits s) as [d' r'] eqn:Hs. intros [= <- <-].
      specialize (IH d' r' eq_refl). cbn. lia.
    + by intros [= <- <-].
Qed.

Lemma scan_int_part_shorter (s i r : Unicode.str) :
  scan_int_part s = Some (i, r) → (length r < length s)%nat.
Proof.
  unfold scan_int_part.
  destruct (match expect "-" s with
            | Some s' => ([code "-"], s')
            | None => ([], s)
            end) as [sign s1] eqn:Hsign.
  assert (Hs1 : (length s1 ≤ length s)%nat).
  { destruct (expect "-" s) as [s'|] eqn:He; injection Hsign as <- <-; [| done].
    apply expect_length in He. lia. }
  destruct s1 as [|c s2]; [done |]. cbn [length] in Hs1.
  destruct (is_char "0" c).
  - intros [= <- <-]. lia.
  - destruct (is_digit c); [| done].
    destruct (span_digits s2) as [d r'] eqn:Hd. intros [= <- <-].
    apply span_digits_length in Hd. lia.
Qed.

Lemma scan_frac_length (s f r : Unicode.str) :
  scan_frac s = (f, r) → (length r ≤ length s)%nat.
Proof.
  unfold scan_frac. destruct (expect "." s) as [s'|] eqn:He;
    [| by intros [= <- <-]].
  apply expect_length in He.
  destruct (span_digits s') as [[|d0 d] r'] eqn:Hd.
  - by intros [= <- <-].
  - intros [= <- <-]. apply span_digits_length in Hd. cbn in Hd. lia.
Qed.

Lemma scan_exp_length (s e r : Unicode.str) :
  scan_exp s = (e, r) → (length r ≤ length s)%nat.
Proof.
  unfold scan_exp. destruct s as [|c s]; [by intros [= <- <-] |].
  destruct (_ || _); [| by intros [= <- <-]].
  destruct (match s with
            | [] => ([], s)
            | c0 :: s3 =>
                if is_char "+" c0 || is_char "-" c0
                then ([c0], s3) else ([], s)
            end) as [sg s2] eqn:Hsg.
  assert (Hs2 : (length s2 ≤ length s)%nat).
  { destruct s as [|c0 s3]; [by injection Hsg as <- <- |].
    destruct (_ || _); injection Hsg as <- <-; cbn; lia. }
  destruct (span_digits s2) as [[|d0 d] r'] eqn:Hd.
  - by intros [= <- <-].
  - intros [= <- <-]. apply span_digits_length in Hd. cbn. lia.
Qed.

Lemma scan_number_shorter (s : Unicode.str) (v : value) (r : Unicode.str) :
  scan_number s = Some (v, r) → (length r < length s)%nat.
Proof.
  unfold scan_number.
  destruct (scan_int_part s) as [[i r1]|] eqn:Hi; [| done].
  destruct (scan_frac r1) as [f r2] eqn:Hf.
  destruct (scan_exp r2) as [e r3] eqn:He.
  apply scan_int_part_shorter in Hi. apply scan_frac_length in Hf.
  apply scan_exp_length in He.
  destruct (_ || _); intros [= <- <-]; lia.
Qed.

Lemma scan_word_shorter (w : string) (v0 : value) (s : Unicode.str)
    (v : value) (r : Unicode.str) :
  (0 < String.length w)%nat → scan_word w v0 s = Some (v, r)
  → (length r < length s)%nat.
Proof.
  intros Hw. unfold scan_word. destruct (strip_prefix w s) as [r'|] eqn:Hp; [| done].
  intros [= <- <-]. apply strip_prefix_length in Hp. lia.
Qed.

Lemma scan_atom_shorter (s : Unicode.str) (v : value) (r : Unicode.str) :
  scan_atom s = Some (v, r) → (length r < length s)%nat.
Proof.
  unfold scan_atom.
  repeat match goal with
         | |- context [match scan_word ?w ?v0 s with _ => _ end] =>
             let H := fresh in
             destruct (scan_word w v0 s) as [[? ?]|] eqn:H;
             [intros [= <- <-]; by apply scan_word_shorter in H; [| cbn; lia] |]
         | |- context [match scan_number s with _ => _ end] =>
             let H := fresh in
             destruct (scan_number s) as [[? ?]|] eqn:H;
             [intros [= <- <-]; by apply scan_number_shorter in H |]
         end.
  intros Hlast. apply scan_word_shorter in Hlast; [done | cbn; lia].
Qed.

Section LoopFacts.
Variables scan scan' : Unicode.str → option (value * Unicode.str).

Hypothesis scan_shorter :
  ∀ x v r, scan x = Some (v, r) → (length r < length x)%nat.

Lemma members_shorter (fuel : nat) :
  ∀ (s : Unicode.str) (acc : list (Unicode.str * value)) (v : value)
    (r : Unicode.str),
    members scan fuel s acc = Some (v, r) → (length r < length s)%nat.
Proof.
  induction fuel as [|fuel IH]; intros s acc v r; [done |]. cbn [members].
  destruct (scanstring s) as [[key rest]|] eqn:Hkey; [| done].
  apply scanstring_shorter in Hkey.
  pose proof (skip_ws_length rest) as Hws.
  destruct (expect ":" (skip_ws rest)) as [rest1|] eqn:H1; [| done].
  apply expect_length in H1.
  pose proof (skip_ws_length rest1) as Hws1.
  destruct (scan (skip_ws rest1)) as [[v1 rest2]|] eqn:Hscan; [| done].
  apply scan_shorter in Hscan.
  pose proof (skip_ws_length rest2) as Hws2.
  destruct (expect "}" (skip_ws rest2)) as [rest3|] eqn:H3.
  { apply expect_length in H3. intros [= <- <-]. lia. }
  destruct (expect "," (skip_ws rest2)) as [rest3|] eqn:H4; [| done].
  apply expect_length in H4.
  pose proof (skip_ws_length rest3) as Hws3.
  destruct (expect dquote (skip_ws rest3)) as [rest4|] eqn:H5; [| done].
  apply expect_length in H5.
  intros Hrec%IH. lia.
Qed.

Lemma items_shorter (fuel : nat) :
  ∀ (s : Unicode.str) (acc : list value) (v : value) (r : Unicode.str),
    items scan fuel s acc = Some (v, r) → (length r < length s)%nat.
Proof.
  induction fuel as [|fuel IH]; intros s acc v r; [done |]. cbn [items].
  destruct (scan s) as [[v1 rest]|] eqn:Hscan; [| done].
  apply scan_shorter in Hscan.
  pose proof (skip_ws_length rest) as Hws.
  destruct (expect "]" (skip_ws rest)) as [rest1|] eqn:H1.
  { apply expect_length in H1. intros [= <- <-]. lia. }
  destruct (expect "," (skip_ws rest)) as [rest1|] eqn:H2; [| done].
  apply expect_length in H2.
  pose proof (skip_ws_length rest1) as Hws1.
  intros Hrec%IH. lia.
Qed.

(** With enough fuel, the loops do not depend on the fuel, nor on the
    scanner beyond the texts they hand to it. *)
Lemma members_fuel (fuel : nat) :
  ∀ (fuel' : nat) (s : Unicode.str) (acc : list (Unicode.str * value)),
    (length s < fuel)%nat → (length s < fuel')%nat
    → (∀ x, (length x < length s)%nat → scan x = scan' x)
    → members scan fuel s acc = members scan' fuel' s acc.
Proof.
  induction fuel as [|fuel IH]; intros fuel' s acc Hf Hf' Hagree; [lia |].
  destruct fuel' as [|fuel']; [lia |]. cbn [members].
  destruct (scanstring s) as [[key rest]|] eqn:Hkey; [| done].
  apply scanstring_shorter in Hkey.
  pose proof (skip_ws_length rest) as Hws.
  destruct (expect ":" (skip_ws rest)) as [rest1|] eqn:H1; [| done].
  apply expect_length in H1.
  pose proof (skip_ws_length rest1) as Hws1.
  rewrite <- Hagree by lia.
  destruct (scan (skip_ws rest1)) as [[v1 rest2]|] eqn:Hscan; [| done].
  apply scan_shorter in Hscan.
  pose proof (skip_ws_length rest2) as Hws2.
  destruct (expect "}" (skip_ws rest2)) as [rest3|] eqn:H3; [done |].
  destruct (expect "," (skip_ws rest2)) as [rest3|] eqn:H4; [| done].
  apply expect_length in H4.
  pose proof (skip_ws_length rest3) as Hws3.
  destruct (expect dquote (skip_ws rest3)) as [rest4|] eqn:H5; [| done].
  apply expect_length in H5.
  apply IH; [lia | lia |]. intros x Hx. apply Hagree. lia.
Qed.

Lemma items_fuel (fuel : nat) :
  ∀ (fuel' : nat) (s : Unicode.str) (acc : list value),
    (length s < fuel)%nat → (length s < fuel')%nat
    → (∀ x, (length x ≤ length s)%nat → scan x = scan' x)
    → items scan fuel s acc = items scan' fuel' s acc.
Proof.
  induction fuel as [|fuel IH]; intros fuel' s acc Hf Hf' Hagree; [lia |].
  destruct fuel' as [|fuel']; [lia |]. cbn [items].
  rewrite <- Hagree by lia.
  destruct (scan s) as [[v1 rest]|] eqn:Hscan; [| done].
  apply scan_shorter in Hscan.
  pose proof (skip_ws_length rest) as Hws.
  destruct (expect "]" (skip_ws rest)) as [rest1|] eqn:H1; [done |].
  destruct (expect "," (skip_ws rest)) as [rest1|] eqn:H2; [| done].
  apply expect_length in H2.
  pose proof (skip_ws_length rest1) as Hws1.
  apply IH; [lia | lia |]. intros x Hx. apply Hagree. lia.
Qed.
End LoopFacts.

Lemma scan_once_shorter (fuel : nat) :
  ∀ (s : Unicode.str) (v : value) (r : Unicode.str),
    scan_once fuel s = Some (v, r) → (length r < length s)%nat.
Proof.
  induction fuel as [|fuel IH]; intros s v r; [done |].
  destruct s as [|c s]; [done |]. cbn [scan_once length].
  pose proof (skip_ws_length s) as Hws.
  destruct (is_char dquote c).
  { destruct (scanstring s) as [[str rest]|] eqn:Hs; [| done].
    intros [= <- <-]. apply scanstring_shorter in Hs. lia. }
  destruct (is_char "{" c).
  { destruct (expect "}" (skip_ws s)) as [rest|] eqn:H1.
    { apply expect_length in H1. intros [= <- <-]. lia. }
    destruct (expect dquote (skip_ws s)) as [rest|] eqn:H2; [| done].
    apply expect_length in H2.
    intros Hm%members_shorter; [lia | exact IH]. }
  destruct (is_char "[" c).
  { destruct (expect "]" (skip_ws s)) as [rest|] eqn:H1.
    { apply expect_length in H1. intros [= <- <-]. lia. }
    intros Hi%items_shorter; [lia | exact IH]. }
  intros Ha%scan_atom_shorter. cbn in Ha. lia.
Qed.

(** The scanner does not depend on its fuel once the fuel exceeds the
    length of the text. *)
Lemma scan_once_fuel (n : nat) :
  ∀ (m : nat) (s : Unicode.str),
    (length s < n)%nat → (length s < m)%nat → scan_once n s = scan_once m s.
Proof.
  induction n as [|n IH]; intros m s Hn Hm; [lia |].
  destruct m as [|m]; [lia |].
  destruct s as [|c s]; [done |]. cbn [scan_once length] in *.
  pose proof (skip_ws_length s) as Hws.
  destruct (is_char dquote c); [done |].
  destruct (is_char "{" c).
  { destruct (expect "}" (skip_ws s)) as [rest|] eqn:H1; [done |].
    destruct (expect dquote (skip_ws s)) as [rest|] eqn:H2; [| done].
    apply expect_length in H2.
    apply members_fuel; [apply scan_once_shorter | lia | lia |].
    intros x Hx. apply IH; lia. }
  destruct (is_char "[" c); [| done].
  destruct (expect "]" (skip_ws s)) as [rest|] eqn:H1; [done |].
  apply items_fuel; [apply scan_once_shorter | lia | lia |].
  intros x Hx. apply IH; lia.
Qed.

(** [loads] returns the same under any larger bound on the recursion. *)
Lemma loads_fuel (s : Unicode.str) (n : nat) :
  (length s < n)%nat
  → loads s
    = match scan_once n (skip_ws s) with
      | Some (v, rest) =>
          match skip_ws rest with
          | [] => Ok v
          | _ :: _ => Raise JSONDecodeError
          end
      | None => Raise JSONDecodeError
      end.
Proof.
  intros Hn. unfold loads. pose proof (skip_ws_length s).
  rewrite (scan_once_fuel (S (length s)) n); [done | lia | lia].
Qed.

(** *** The round trip of the JSON rendering *)

Lemma read_back_cons2 (c c2 : N) (s : Unicode.str) :
  read_back (c :: c2 :: s)
  = if Unicode.is_high_surrogate c && Unicode.is_low_surrogate c2
    then join_surrogates c c2 :: read_back s
    else c :: read_back (c2 :: s).
Proof. reflexivity. Qed.

Lemma has_pair_cons2 (c c2 : N) (s : Unicode.str) :
  Unicode.has_pair (c :: c2 :: s)
  = (Unicode.is_high_surrogate c && Unicode.is_low_surrogate c2)
    || Unicode.has_pair (c2 :: s).
Proof. reflexivity. Qed.

Lemma read_back_no_pair (s : Unicode.str) :
  Unicode.has_pair s = false → read_back s = s.
Proof.
  induction s as [|c s IH]; [done |]. destruct s as [|c2 s]; [done |].
  rewrite has_pair_cons2, read_back_cons2. intros [Hp Hs]%orb_false_iff.
  rewrite Hp. f_equal. by apply IH.
Qed.

Lemma length_read_back (s : Unicode.str) :
  (length (read_back s) ≤ length s)%nat
  ∧ (Unicode.has_pair s = true → (length (read_back s) < length s)%nat).
Proof.
  remember (length s) as n eqn:Hn. revert s Hn.
  induction n as [n IH] using lt_wf_ind. intros s ->.
  destruct s as [|c [|c2 s]]; [done | done |].
  rewrite read_back_cons2, has_pair_cons2.
  destruct (Unicode.is_high_surrogate c && Unicode.is_low_surrogate c2).
  - destruct (IH (length s) ltac:(cbn; lia) s eq_refl) as [Hle _].
    cbn [length]. split; [lia | intros _; lia].
  - destruct (IH (length (c2 :: s)) ltac:(cbn; lia) (c2 :: s) eq_refl) as [Hle Hlt].
    cbn [length orb] in *. split; [lia |]. intros Hp. specialize (Hlt Hp). lia.
Qed.

Lemma read_back_pair_changes (s : Unicode.str) :
  Unicode.has_pair s = true → read_back s ≠ s.
Proof.
  intros Hp Heq. destruct (length_read_back s) as [_ Hlt].
  specialize (Hlt Hp). rewrite Heq in Hlt. lia.
Qed.

Lemma of_string_small (x : string) :
  Forall (fun c => (c < 256)%N) (Unicode.of_string x).
Proof.
  induction x as [|c x IH]; constructor; [| done].
  unfold code. apply N_ascii_bounded.
Qed.

Lemma small_is_str (s : Unicode.str) :
  Forall (fun c => (c < 256)%N) s → Unicode.is_str s.
Proof.
  intros H. eapply Forall_impl; [exact H |].
  intros c Hc. cbn beta in Hc. unfold Unicode.is_code_point. lia.
Qed.

Lemma small_no_pair (s : Unicode.str) :
  Forall (fun c => (c < 256)%N) s → Unicode.has_pair s = false.
Proof.
  induction 1 as [|c s Hc Hs IH]; [done |]. destruct s as [|c2 s]; [done |].
  rewrite has_pair_cons2, IH, orb_false_r, not_high; [done | lia].
Qed.


Lemma read_back_of_string (x : string) :
  read_back (Unicode.of_string x) = Unicode.of_string x.
Proof. apply read_back_no_pair, small_no_pair, of_string_small. Qed.

Lemma asdict_entries (s : Wide.Session) :
  is_session s → Forall is_entry (Wide.asdict s).
Proof.
  unfold is_session, Wide.fields. intros Hs.
  repeat match goal with
         | H : Forall _ (_ :: _) |- _ => apply Forall_cons in H as [? H]
         end.
  repeat constructor; cbn [fst snd]; try done;
    apply small_is_str, of_string_small.
Qed.

Lemma asdict_read (s : Wide.Session) :
  dict (map member_read (Wide.asdict s))
  = [(Unicode.of_string "location", JStr (read_back (Wide.location s)));
     (Unicode.of_string "schedule", JStr (read_back (Wide.schedule s)));
     (Unicode.of_string "hours", JStr (read_back (Wide.hours s)));
     (Unicode.of_string "days", JStr (read_back (Wide.days s)));
     (Unicode.of_string "start_date", JStr (read_back (Wide.start_date s)));
     (Unicode.of_string "end_date", JStr (read_back (Wide.end_date s)));
     (Unicode.of_string "fee", JStr (read_back (Wide.fee s)));
     (Unicode.of_string "reference", JStr (read_back (Wide.reference s)));
     (Unicode.of_string "availability", JStr (read_back (Wide.availability s)));
     (Unicode.of_string "action_text", JStr (read_back (Wide.action_text s)))].
Proof.
  rewrite dict_NoDup.
  - unfold Wide.asdict, member_read. cbn [map fst snd].
    by rewrite !read_back_of_string.
  - unfold Wide.asdict, member_read. cbn [map fst snd].
    rewrite !read_back_of_string. apply (bool_decide_unpack _). by vm_compute.
Qed.

Lemma object_read_back (s : Wide.Session) :
  JObj (dict (map member_read (Wide.asdict s)))
  = Wide.session_object (Wide.read_back s).
Proof. by rewrite asdict_read. Qed.

Lemma read_back_pair_free (s : Wide.Session) :
  pair_free s → Wide.read_back s = s.
Proof.
  unfold pair_free, Wide.fields. intros Hs.
  repeat match goal with
         | H : Forall _ (_ :: _) |- _ => apply Forall_cons in H as [? H]
         end.
  destruct s. unfold Wide.read_back. cbn in *.
  by rewrite !read_back_no_pair.
Qed.

(** What the watcher's [json.loads] makes of what the [json] format
    prints. *)
Lemma loads_output (sessions : list Wide.Session) :
  Forall is_session sessions
  → loads (Unicode.of_string
             (stdout_of (events (Wide.output_sessions_json sessions))))
    = Ok (JArr (map Wide.session_object (map Wide.read_back sessions))).
Proof.
  intros Hs. cbn [Wide.output_sessions_json emit events fst stdout_of].
  rewrite of_string_app. change (Unicode.of_string (String newline "")) with [10%N].
  rewrite loads_dumps; [| | done].
  - rewrite !map_map. erewrite map_ext; [reflexivity |].
    intros s. apply object_read_back.
  - apply Forall_forall. intros d [s [-> Hin]]%list_elem_of_fmap.
    apply asdict_entries. by eapply Forall_forall in Hs.
Qed.

Lemma session_object_fields (s t : Wide.Session) :
  Wide.session_object s = Wide.session_object t → Wide.fields s = Wide.fields t.
Proof. unfold Wide.session_object, Wide.fields. intros [= -> -> -> -> -> -> -> -> -> ->]. done. Qed.

Lemma read_back_fields (s : Wide.Session) :
  Wide.fields (Wide.read_back s) = map read_back (Wide.fields s).
Proof. reflexivity. Qed.

Lemma read_back_fixed (s : Wide.Session) :
  Wide.session_object (Wide.read_back s) = Wide.session_object s → pair_free s.
Proof.
  intros Heq%session_object_fields. rewrite read_back_fields in Heq.
  unfold pair_free. apply Forall_forall. intros f Hf.
  destruct (Unicode.has_pair f) eqn:Hp; [| done]. exfalso.
  apply (read_back_pair_changes f Hp).
  apply list_elem_of_lookup_1 in Hf as [i Hi].
  assert (Hm : map read_back (Wide.fields s) !! i = Some (read_back f)).
  { change (map read_back (Wide.fields s)) with (read_back <$> Wide.fields s).
    by rewrite list_lookup_fmap, Hi. }
  rewrite Heq, Hi in Hm. by injection Hm.
Qed.

(** C8. Rendering a session list in the json format and parsing the
    printed text back gives a list of objects in the same order, each
    with exactly the ten fields.  Every field comes back as it is read
    from its escaped form: a high surrogate directly followed by a low
    surrogate returns as the one character of the pair, everything else
    unchanged.  So the round trip gives back the original values exactly
    when no field holds such a pair. *)
Theorem json_round_trip (sessions : list Wide.Session) :
  Forall is_session sessions
  → let out :=
      Unicode.of_string
        (stdout_of (events (Wide.output_sessions_json sessions))) in
    loads out = Ok (JArr (map Wide.session_object (map Wide.read_back sessions)))
    ∧ (Forall pair_free sessions
       ↔ loads out = Ok (JArr (map Wide.session_object sessions))).
Proof.
  intros Hs out. pose proof (loads_output sessions Hs) as Hout. fold out in Hout.
  split; [exact Hout |]. rewrite Hout. split.
  - intros Hfree. do 2 f_equal. rewrite <- (map_id sessions) at 2.
    f_equal. unfold id. clear -Hfree.
    induction Hfree as [|s l Hf _ IH]; [done |]. cbn [map].
    by rewrite read_back_pair_free, IH.
  - intros [= Heq]. clear -Heq.
    induction sessions as [|s l IH]; [constructor |].
    cbn [map] in Heq.
    constructor; [apply read_back_fixed | apply IH]; congruence.
Qed.

(** A session with a euro sign, a character beyond the basic plane and a
    lone surrogate comes back as it was. *)
Lemma json_round_trip_witness :
  let s :=
    {| Wide.location := [73; 78; 76; 76; 32; 8364; 128512; 55357]%N;
       Wide.schedule := Unicode.of_string "18:00-20:00";
       Wide.hours := [];
       Wide.days := Unicode.of_string "Mon-Fri";
       Wide.start_date := [];
       Wide.end_date := [];
       Wide.fee := Unicode.of_string "450";
       Wide.reference := Unicode.of_string "FR0074-7681";
       Wide.availability := Unicode.of_string "available";
       Wide.action_text := [56832; 55357]%N |} in
  Forall is_session [s]
  ∧ Forall pair_free [s]
  ∧ loads (Unicode.of_string
             (stdout_of (events (Wide.output_sessions_json [s]))))
    = Ok (JArr [Wide.session_object s]).
Proof.
  intros s.
  assert (Hs : Forall is_session [s]).
  { repeat constructor; by vm_compute. }
  assert (Hf : Forall pair_free [s]).
  { repeat constructor; by vm_compute. }
  split_and!; [exact Hs | exact Hf |].
  exact (proj1 (proj2 (json_round_trip [s] Hs)) Hf).
Defined.

(** C8, as it is worded, fails: a location made of the two code points
    U+D83D and U+DE00 is printed as the two escapes of a surrogate pair
    and parsed back as the one character U+1F600. *)
Lemma json_round_trip_joins_pair :
  let s :=
    {| Wide.location := [55357; 56832]%N;
       Wide.schedule := []; Wide.hours := []; Wide.days := [];
       Wide.start_date := []; Wide.end_date := []; Wide.fee := [];
       Wide.reference := Unicode.of_string "FR0074-7681";
       Wide.availability := Unicode.of_string "available";
       Wide.action_text := [] |} in
  let s' :=
    {| Wide.location := [128512]%N;
       Wide.schedule := []; Wide.hours := []; Wide.days := [];
       Wide.start_date := []; Wide.end_date := []; Wide.fee := [];
       Wide.reference := Unicode.of_string "FR0074-7681";
       Wide.availability := Unicode.of_string "available";
       Wide.action_text := [] |} in
  is_session s
  ∧ loads (Unicode.of_string
             (stdout_of (events (Wide.output_sessions_json [s]))))
    = Ok (JArr [Wide.session_object s'])
  ∧ Wide.session_object s' ≠ Wide.session_object s.
Proof.
  intros s s'. split_and!.
  - repeat constructor; by vm_compute.
  - by vm_compute.
  - by intros [=].
Qed.

Lemma widen_is_session (s : Session) : is_session (widen s).
Proof. repeat constructor; apply small_is_str, of_string_small. Qed.

Lemma widen_pair_free (s : Session) : pair_free (widen s).
Proof. repeat constructor; apply small_no_pair, of_string_small. Qed.

(** The output of the checker of this file, read by [json.loads]. *)
Lemma loads_checker_output (sessions : list Session) :
  loads (Unicode.of_string (stdout_of (events (output_sessions_json sessions))))
  = Ok (JArr (map session_object sessions)).
Proof.
  unfold output_sessions_json. rewrite loads_output.
  - rewrite !map_map. do 2 f_equal. apply map_ext. intros s.
    unfold session_object. by rewrite read_back_pair_free by apply widen_pair_free.
  - apply Forall_forall. intros w [s [-> _]]%list_elem_of_fmap.
    apply widen_is_session.
Qed.

End JsonFacts.

(** ** The watcher cycle *)

Module WatcherFacts.
Import Py Text TextFacts Json Checker Watcher JsonFacts.

Lemma bind_ret_l {A B} (a : A) (f : A → M B) : bind (ret a) f = f a.
Proof. unfold bind, ret. by destruct (f a). Qed.

Lemma utf8_char_None (c : N) :
  Unicode.utf8_char c = None ↔ Unicode.is_surrogate c = true.
Proof.
  unfold Unicode.utf8_char, Unicode.is_surrogate.
  destruct (N.ltb_spec c 128) as [H1 | H1].
  { split; [done |]. intros [?%N.leb_le _]%andb_true_iff. lia. }
  destruct (N.ltb_spec c 2048) as [H2 | H2].
  { split; [done |]. intros [?%N.leb_le _]%andb_true_iff. lia. }
  destruct (N.ltb_spec c 65536) as [H3 | H3].
  - by destruct ((55296 <=? c)%N && (c <=? 57343)%N).
  - split; [done |]. intros [_ ?%N.leb_le]%andb_true_iff. lia.
Qed.

Lemma encode_utf8_None (s : Unicode.str) :
  Unicode.encode_utf8 s = None ↔ Unicode.has_surrogate s = true.
Proof.
  unfold Unicode.has_surrogate.
  induction s as [|c s IH]; [done |]. cbn [Unicode.encode_utf8 existsb].
  destruct (Unicode.utf8_char c) as [b|] eqn:Hc.
  - assert (Hs : Unicode.is_surrogate c = false).
    { destruct (Unicode.is_surrogate c) eqn:H; [| done].
      apply utf8_char_None in H. congruence. }
    rewrite Hs, orb_false_l, <- IH. by destruct (Unicode.encode_utf8 s).
  - apply utf8_char_None in Hc. by rewrite Hc.
Qed.

Lemma encode_utf8_Some (s : Unicode.str) :
  Unicode.has_surrogate s = false → ∃ data, Unicode.encode_utf8 s = Some data.
Proof.
  intros Hs. destruct (Unicode.encode_utf8 s) as [data|] eqn:He; [by exists data |].
  apply encode_utf8_None in He. congruence.
Qed.

Lemma run_check_no_post (proc : result Unicode.str) :
  existsb is_post (events (run_check proc)) = false.
Proof.
  destruct proc as [out | e]; unfold run_check.
  - cbn. destruct (loads _) as [v | e]; [done | by destruct e].
  - by destruct e.
Qed.

Lemma select_available_objects (l : list value) :
  Forall (fun s => is_object s = true) l
  → select_available l = ret (List.filter is_available l).
Proof.
  induction l as [|s l IH]; intros Hall; [done |].
  apply Forall_cons in Hall as [Hs Hall]. cbn [select_available List.filter].
  rewrite (IH Hall). by destruct s.
Qed.

Lemma existsb_filter {A} (f : A → bool) (l : list A) :
  List.filter f l ≠ [] ↔ ∃ x, x ∈ l ∧ f x = true.
Proof.
  induction l as [|y l IH]; cbn.
  - split; [done | intros (x & Hx & _); by apply elem_of_nil in Hx].
  - destruct (f y) eqn:Hy.
    + split; [| done]. intros _. exists y. split; [apply list_elem_of_here | done].
    + rewrite IH. split.
      * intros (x & Hx & Hfx). exists x. split; [by apply list_elem_of_further | done].
      * intros (x & Hx & Hfx). apply elem_of_cons in Hx as [-> | Hx]; [congruence |].
        by exists x.
Qed.

Lemma for_each_lines (render : value → Unicode.str) (l : list value) :
  Forall (fun s => is_object s = true) l
  → for_each (fun s => r <- get s "reference" ;
                       a <- get s "availability" ;
                       ret (format render r ++ Unicode.of_string " | "
                            ++ format render a)) l
    = ret (map (line render) l).
Proof.
  induction l as [|s l IH]; intros Hall; [done |].
  apply Forall_cons in Hall as [Hs Hall].
  cbn [for_each]. rewrite (IH Hall). by destruct s.
Qed.

(** What [handle_available] does on a list of objects. *)
Lemma handle_available_objects (render : value → Unicode.str)
    (net : result unit) (l : list value) :
  Forall (fun s => is_object s = true) l
  → handle_available render net l
    = match Unicode.encode_utf8 (body_of (map (line render) l)) with
      | None => ([], Raise ValueError)
      | Some data =>
          match net with
          | Ok _ => ([Posted "https://ntfy.sh/INLL-free-spot-checker-mo" data], Ok tt)
          | Raise e =>
              if is_request_exception e
              then ([Posted "https://ntfy.sh/INLL-free-spot-checker-mo" data;
                     Printed "[warn] ntfy send failed"], Ok tt)
              else ([Posted "https://ntfy.sh/INLL-free-spot-checker-mo" data],
                    Raise e)
          end
      end.
Proof.
  intros Hall. unfold handle_available. rewrite for_each_lines by done.
  rewrite bind_ret_l. unfold encode.
  destruct (Unicode.encode_utf8 _) as [data|]; [| done].
  destruct net as [[] | e]; [done |]. cbn. by destruct (is_request_exception e).
Qed.

Lemma filter_objects (f : value → bool) (l : list value) :
  Forall (fun s => is_object s = true) l
  → Forall (fun s => is_object s = true) (List.filter f l).
Proof.
  intros Hall. apply Forall_forall. intros x Hx%list_elem_of_In%filter_In.
  destruct Hx as [Hx _]. by eapply Forall_forall in Hall; [| apply list_elem_of_In].
Qed.

(** The events of a cycle whose check returned a list of objects. *)
Lemma cycle_objects (render : value → Unicode.str) (proc : result Unicode.str)
    (net : result unit) (sessions : list value) :
  outcome (run_check proc) = Ok (JArr sessions)
  → Forall (fun s => is_object s = true) sessions
  → events (cycle render proc net)
    = events (run_check proc)
      ++ match List.filter is_available sessions with
         | [] => []
         | _ :: _ =>
             match Unicode.encode_utf8 (notification render sessions) with
             | None => [Printed "[warn] unexpected error"]
             | Some data =>
                 Posted "https://ntfy.sh/INLL-free-spot-checker-mo" data
                 :: after_post net
             end
         end.
Proof.
  intros Hrun Hall. unfold cycle, notification.
  destruct (run_check proc) as [evs r]. cbn in Hrun. subst r.
  cbn [bind iterate ret events fst].
  rewrite (select_available_objects sessions Hall), bind_ret_l.
  destruct (List.filter is_available sessions) as [|a av] eqn:Hf.
  - cbn. by rewrite !app_nil_r.
  - rewrite handle_available_objects by (rewrite <- Hf; by apply filter_objects).
    destruct (Unicode.encode_utf8 _) as [data|]; [| cbn; by rewrite app_nil_r].
    destruct net as [[] | e]; cbn; [done |].
    destruct (is_request_exception e); cbn; by rewrite <- ?app_assoc.
Qed.

Lemma select_available_cases (l : list value) :
  (Forall (fun s => is_object s = true) l
   ∧ select_available l = ret (List.filter is_available l))
  ∨ select_available l = ([], Raise AttributeError).
Proof.
  induction l as [|s l IH]; [left; by split |].
  destruct s as [| | | | |items|fields];
    try (right; reflexivity).
  destruct IH as [[Hall Hsel] | Hsel].
  - left. split; [by constructor |].
    by apply select_available_objects; constructor.
  - right. cbn [select_available get]. rewrite bind_ret_l, Hsel. done.
Qed.

Lemma select_available_first (s : value) (l : list value) :
  is_object s = false → select_available (s :: l) = ([], Raise AttributeError).
Proof. by destruct s. Qed.

Lemma filter_post_run_check (proc : result Unicode.str) :
  List.filter is_post (events (run_check proc)) = [].
Proof.
  pose proof (run_check_no_post proc) as H.
  induction (events (run_check proc)) as [|ev evs IH]; [done |].
  cbn in *. destruct (is_post ev); [done |]. by apply IH.
Qed.

Lemma filter_post_after (net : result unit) :
  List.filter is_post (after_post net) = [].
Proof. by destruct net. Qed.

(** The shapes of the run of one cycle: either no request is made, or
    the check returned a list of objects with an available one whose
    notification can be encoded, and the request is made once. *)
Lemma cycle_cases (render : value → Unicode.str) (proc : result Unicode.str)
    (net : result unit) :
  (∃ warn, events (cycle render proc net) = events (run_check proc) ++ warn
           ∧ List.filter is_post warn = [])
  ∨ (∃ sessions data,
       outcome (run_check proc) = Ok (JArr sessions)
       ∧ Forall (fun s => is_object s = true) sessions
       ∧ List.filter is_available sessions ≠ []
       ∧ Unicode.encode_utf8 (notification render sessions) = Some data
       ∧ events (cycle render proc net)
         = events (run_check proc)
           ++ Posted "https://ntfy.sh/INLL-free-spot-checker-mo" data
              :: after_post net).
Proof.
  destruct (run_check proc) as [evs [v | e]] eqn:Hrc.
  2: { left. unfold cycle. rewrite Hrc. eexists. by split. }
  destruct v as [| b | n | f | s | items | fields].
  1-4: left; unfold cycle; rewrite Hrc; cbn; rewrite ?app_nil_r; eexists;
       (split; [reflexivity | done]).
  - left. unfold cycle. rewrite Hrc. cbn [bind iterate ret].
    destruct s as [|c cs]; cbn [map].
    + cbn. exists []. by rewrite ?app_nil_r.
    + rewrite select_available_first by done. cbn. rewrite ?app_nil_r.
      eexists. split; [reflexivity | done].
  - destruct (select_available_cases items) as [[Hall Hsel] | Hsel].
    + pose proof (cycle_objects render proc net items) as Hev.
      rewrite Hrc in Hev. specialize (Hev eq_refl Hall). cbn [events fst] in *.
      destruct (List.filter is_available items) as [|a av] eqn:Hf.
      * left. exists []. by split.
      * destruct (Unicode.encode_utf8 (notification render items))
          as [data|] eqn:Henc.
        -- right. exists items, data. split_and!; try done. by rewrite Hf.
        -- left. eexists. split; [exact Hev | done].
    + left. unfold cycle. rewrite Hrc. cbn [bind iterate ret]. rewrite Hsel.
      cbn. rewrite ?app_nil_r. eexists. split; [reflexivity | done].
  - left. unfold cycle. rewrite Hrc. cbn [bind iterate ret].
    destruct fields as [|kv fields]; cbn [map].
    + cbn. exists []. by rewrite ?app_nil_r.
    + rewrite select_available_first by done. cbn. rewrite ?app_nil_r.
      eexists. split; [reflexivity | done].
Qed.

Lemma existsb_filter_nil {A} (f : A → bool) (l : list A) :
  List.filter f l = [] → existsb f l = false.
Proof.
  induction l as [|x l IH]; [done |]. cbn. destruct (f x); [done |]. exact IH.
Qed.

(** When a cycle makes its request. *)
Lemma cycle_posted (render : value → Unicode.str) (proc : result Unicode.str)
    (net : result unit) :
  posted (cycle render proc net) = true
  ↔ ∃ sessions : list value,
      outcome (run_check proc) = Ok (JArr sessions)
      ∧ Forall (fun s => is_object s = true) sessions
      ∧ (∃ s, s ∈ sessions ∧ is_available s = true)
      ∧ Unicode.has_surrogate (notification render sessions) = false.
Proof.
  split.
  - intros Hpost.
    destruct (cycle_cases render proc net)
      as [(warn & Hev & Hwarn)
         | (sessions & data & Hrun & Hall & Hav & Henc & _)].
    + unfold posted in Hpost. rewrite Hev, existsb_app in Hpost.
      rewrite run_check_no_post, (existsb_filter_nil _ _ Hwarn) in Hpost. done.
    + exists sessions. split_and!; [done | done | by apply existsb_filter |].
      destruct (Unicode.has_surrogate _) eqn:Hs; [| done].
      apply encode_utf8_None in Hs. congruence.
  - intros (sessions & Hrun & Hall & Hav%existsb_filter & Hs).
    unfold posted. rewrite (cycle_objects render proc net sessions Hrun Hall).
    destruct (List.filter is_available sessions) as [|a av]; [done |].
    destruct (encode_utf8_Some _ Hs) as [data ->].
    rewrite existsb_app. cbn. apply orb_true_r.
Qed.

Lemma cycle_outcome (render : value → Unicode.str) (proc : result Unicode.str)
    (net : result unit) :
  outcome (cycle render proc net) = Ok tt.
Proof.
  unfold cycle, try_except.
  match goal with |- context [match ?m with _ => _ end] => destruct m as [evs [[]|e]] end; done.
Qed.


(** [run_check] on a standard output: the parsed value, or the empty
    list and a warning. *)
Lemma run_check_output (out : Unicode.str) :
  run_check (Ok out)
  = match loads (if Unicode.truthy out then out else Unicode.of_string "[]") with
    | Ok v => ([], Ok v)
    | Raise _ => ([Printed "[warn] invalid JSON from checker"], Ok (JArr []))
    end.
Proof.
  unfold run_check. cbn.
  assert (Hraise : ∀ s e, loads s = Raise e → e = JSONDecodeError).
  { intros s e. unfold loads. destruct (scan_once _ _) as [[v rest]|]; [| congruence].
    destruct (skip_ws rest); congruence. }
  destruct (loads _) as [v | e] eqn:Hl; [done |].
  by rewrite (Hraise _ _ Hl).
Qed.

(** *** The watcher on what the checker prints *)

Lemma join_surrogates_large (c c2 : N) : (65536 ≤ join_surrogates c c2)%N.
Proof. unfold join_surrogates. lia. Qed.

Lemma read_back_large (s : Unicode.str) :
  Unicode.has_pair s = true → ∃ c, c ∈ read_back s ∧ (65536 ≤ c)%N.
Proof.
  remember (length s) as n eqn:Hn. revert s Hn.
  induction n as [n IH] using lt_wf_ind. intros s ->.
  destruct s as [|c [|c2 s]]; [done | done |].
  rewrite read_back_cons2, has_pair_cons2.
  destruct (Unicode.is_high_surrogate c && Unicode.is_low_surrogate c2).
  - intros _. exists (join_surrogates c c2).
    split; [apply list_elem_of_here | apply join_surrogates_large].
  - cbn [orb]. intros Hp.
    destruct (IH (length (c2 :: s)) ltac:(cbn; lia) (c2 :: s) eq_refl Hp)
      as (x & Hx & Hlarge).
    exists x. split; [by apply list_elem_of_further | done].
Qed.

Lemma read_back_eq_of_string (a : Unicode.str) (x : string) :
  read_back a = Unicode.of_string x ↔ a = Unicode.of_string x.
Proof.
  split; [| intros ->; apply read_back_of_string].
  intros Heq. destruct (Unicode.has_pair a) eqn:Hp.
  - destruct (read_back_large a Hp) as (c & Hc & Hlarge).
    rewrite Heq in Hc. pose proof (of_string_small x) as Hsmall.
    eapply Forall_forall in Hsmall; [| exact Hc]. cbn beta in Hsmall. lia.
  - by rewrite read_back_no_pair in Heq.
Qed.

Lemma is_available_session_object (s : Wide.Session) :
  is_available (Wide.session_object s)
  = bool_decide (Wide.availability s = Unicode.of_string "available").
Proof. reflexivity. Qed.

Lemma is_available_read_back (s : Wide.Session) :
  is_available (Wide.session_object (Wide.read_back s))
  = bool_decide (Wide.availability s = Unicode.of_string "available").
Proof.
  rewrite is_available_session_object. cbn [Wide.read_back Wide.availability].
  apply bool_decide_ext, read_back_eq_of_string.
Qed.

Lemma run_check_on_output (sessions : list Wide.Session) :
  Forall is_session sessions
  → run_check (Ok (Unicode.of_string
                     (stdout_of (events (Wide.output_sessions_json sessions)))))
    = ([], Ok (JArr (parsed sessions))).
Proof.
  intros Hs. rewrite run_check_output.
  assert (Ht : Unicode.truthy
                 (Unicode.of_string
                    (stdout_of (events (Wide.output_sessions_json sessions))))
               = true) by by destruct sessions.
  by rewrite Ht, loads_output.
Qed.

Lemma parsed_objects (sessions : list Wide.Session) :
  Forall (fun s => is_object s = true) (parsed sessions).
Proof.
  apply Forall_forall. unfold parsed.
  by intros v [s [-> _]]%list_elem_of_fmap.
Qed.

Lemma filter_available_parsed (sessions : list Wide.Session) :
  List.filter is_available (parsed sessions)
  = parsed (filter wide_available sessions).
Proof.
  unfold parsed. induction sessions as [|s l IH]; [done |].
  cbn [map List.filter]. rewrite is_available_read_back.
  unfold wide_available at 1. case_bool_decide as Hav.
  - rewrite filter_cons_True by done. cbn [map]. by rewrite IH.
  - by rewrite filter_cons_False.
Qed.

Lemma lines_parsed (render : value → Unicode.str) (l : list Wide.Session) :
  Forall wide_available l
  → map (line render) (parsed l) = map wide_line l.
Proof.
  unfold parsed. induction 1 as [|s l Hs _ IH]; [done |].
  cbn [map]. rewrite IH. f_equal.
  unfold line, wide_line, Wide.session_object, Wide.read_back.
  cbn. unfold wide_available in Hs. rewrite Hs. by rewrite read_back_of_string.
Qed.

Lemma notification_parsed (render : value → Unicode.str)
    (sessions : list Wide.Session) :
  notification render (parsed sessions)
  = body_of (map wide_line (filter wide_available sessions)).
Proof.
  unfold notification. rewrite filter_available_parsed, lines_parsed; [done |].
  apply Forall_forall. by intros s [Hs _]%list_elem_of_filter.
Qed.













End WatcherFacts.

(** ** White-space normalisation *)

Module NormalizeFacts.
Import Py Text TextFacts Checker CheckerRest.

Lemma split_ws_space (c : ascii) (s : string) :
  is_space c = true → split_ws (String c s) = split_ws s.
Proof. intros H. cbn [split_ws]. by rewrite H. Qed.

Lemma split_ws_words (t : string) : Forall is_word (split_ws t).
Proof.
  induction t as [|c s IH]; [constructor |]. cbn [split_ws].
  destruct (is_space c) eqn:Hc; [exact IH |].
  assert (Hone : is_word (String c "")).
  { split; [done |]. cbn. unfold not_space. by rewrite Hc. }
  destruct s as [|c' s']; [by constructor |].
  destruct (is_space c') eqn:Hc'; [by constructor |].
  destruct (split_ws (String c' s')) as [|w ws]; [by constructor |].
  apply Forall_cons in IH as [[Hw1 Hw2] Hws]. constructor; [| done].
  split; [done |]. cbn. unfold not_space at 1. by rewrite Hc, Hw2.
Qed.

Lemma split_ws_word_app (w r : string) :
  is_word w → split_ws (w +:+ String " " r) = w :: split_ws r.
Proof.
  intros [Hne Hall]. induction w as [|c w IH]; [done |].
  cbn in Hall. apply andb_true_iff in Hall as [Hc Hall].
  unfold not_space in Hc. apply negb_true_iff in Hc.
  rewrite append_cons. cbn [split_ws]. rewrite Hc.
  destruct w as [|c0 w0].
  - by rewrite append_nil_l.
  - rewrite append_cons. cbn in Hall.
    pose proof Hall as Hall'. apply andb_true_iff in Hall' as [Hc0 _].
    unfold not_space in Hc0. apply negb_true_iff in Hc0. rewrite Hc0.
    rewrite <- append_cons, IH; done.
Qed.

Lemma split_ws_word (w : string) : is_word w → split_ws w = [w].
Proof.
  intros [Hne Hall]. induction w as [|c w IH]; [done |].
  cbn in Hall. apply andb_true_iff in Hall as [Hc Hall].
  unfold not_space in Hc. apply negb_true_iff in Hc.
  cbn [split_ws]. rewrite Hc. destruct w as [|c0 w0]; [done |].
  pose proof Hall as Hall'. cbn in Hall'. apply andb_true_iff in Hall' as [Hc0 _].
  unfold not_space in Hc0. apply negb_true_iff in Hc0. rewrite Hc0.
  by rewrite IH.
Qed.

Lemma split_ws_join (ws : list string) :
  Forall is_word ws → split_ws (join " " ws) = ws.
Proof.
  induction ws as [|w ws IH]; intros Hall; [done |].
  apply Forall_cons in Hall as [Hw Hall]. destruct ws as [|w' ws].
  - by apply split_ws_word.
  - change (join " " (w :: w' :: ws)) with (w +:+ String " " (join " " (w' :: ws))).
    by rewrite split_ws_word_app, IH.
Qed.

(** X1. Normalising white space twice gives what normalising once
    gives. *)
Theorem normalize_space_idempotent :
  ∀ text : string,
    normalize_space (normalize_space text) = normalize_space text.
Proof.
  intros text. unfold normalize_space.
  by rewrite split_ws_join by apply split_ws_words.
Qed.

Lemma not_space_false (c : ascii) : not_space c = true → is_space c = false.
Proof. unfold not_space. by intros ?%negb_true_iff. Qed.

Lemma word_head (w : string) :
  is_word w → ∃ c r, w = String c r ∧ is_space c = false.
Proof.
  intros [Hne Hall]. destruct w as [|c r]; [done |].
  cbn in Hall. apply andb_true_iff in Hall as [Hc _].
  exists c, r. split; [done | by apply not_space_false].
Qed.

Lemma join_words_head (w : string) (ws : list string) :
  is_word w → ∃ c r, join " " (w :: ws) = String c r ∧ is_space c = false.
Proof.
  intros (c & r & -> & Hc)%word_head. destruct ws as [|w' ws].
  - by exists c, r.
  - exists c, (r +:+ " " +:+ join " " (w' :: ws)). split; [| done].
    change (join " " (String c r :: w' :: ws))
      with (String c r +:+ " " +:+ join " " (w' :: ws)).
    by rewrite append_cons.
Qed.

Lemma rstrip_word (w : string) : is_word w → rstrip w = w.
Proof.
  intros [Hne Hall]. induction w as [|c w IH]; [done |].
  cbn in Hall. apply andb_true_iff in Hall as [Hc%not_space_false Hall].
  cbn [rstrip]. destruct w as [|c0 w0].
  - cbn. by rewrite Hc.
  - by rewrite IH.
Qed.

Lemma rstrip_app (a x : string) :
  rstrip x ≠ "" → rstrip (a +:+ x) = a +:+ rstrip x.
Proof.
  intros Hx. induction a as [|c a IH]; [done |].
  rewrite !append_cons. cbn [rstrip]. rewrite IH.
  destruct (a +:+ rstrip x) as [|c0 r] eqn:Heq; [| done].
  destruct a; [by rewrite append_nil_l in Heq | by rewrite append_cons in Heq].
Qed.

Lemma rstrip_join_words (ws : list string) :
  Forall is_word ws → rstrip (join " " ws) = join " " ws.
Proof.
  induction ws as [|w ws IH]; intros Hall; [done |].
  apply Forall_cons in Hall as [Hw Hall]. destruct ws as [|w' ws].
  - by apply rstrip_word.
  - change (join " " (w :: w' :: ws)) with (w +:+ " " +:+ join " " (w' :: ws)).
    rewrite <- append_assoc, rstrip_app; rewrite (IH Hall); [done |].
    apply Forall_cons in Hall as [Hw' _].
    by destruct (join_words_head w' ws Hw') as (c & r & -> & _).
Qed.

Lemma lstrip_join_words (ws : list string) :
  Forall is_word ws → lstrip (join " " ws) = join " " ws.
Proof.
  destruct ws as [|w ws]; [done |]. intros [Hw _]%Forall_cons.
  destruct (join_words_head w ws Hw) as (c & r & -> & Hc). cbn. by rewrite Hc.
Qed.

Lemma all_chars_app (p : ascii → bool) (a b : string) :
  all_chars p (a +:+ b) = all_chars p a && all_chars p b.
Proof.
  induction a as [|c a IH]; [done |].
  rewrite append_cons. cbn. by rewrite IH, andb_assoc.
Qed.

Lemma all_chars_impl (p q : ascii → bool) (s : string) :
  (∀ c, p c = true → q c = true) → all_chars p s = true → all_chars q s = true.
Proof.
  intros Hpq. induction s as [|c s IH]; [done |]. cbn.
  intros [Hc Hs]%andb_true_iff. by rewrite (Hpq c Hc), IH.
Qed.

Lemma plain_join_words (ws : list string) :
  Forall is_word ws → all_chars plain (join " " ws) = true.
Proof.
  induction ws as [|w ws IH]; intros Hall; [done |].
  apply Forall_cons in Hall as [[_ Hw] Hall].
  assert (Hpw : all_chars plain w = true).
  { eapply all_chars_impl; [| exact Hw]. intros c Hc. unfold plain. by rewrite Hc. }
  destruct ws as [|w' ws]; [done |].
  change (join " " (w :: w' :: ws)) with (w +:+ " " +:+ join " " (w' :: ws)).
  by rewrite !all_chars_app, Hpw, (IH Hall).
Qed.

Lemma single_spaced_cons2 (c c' : ascii) (s : string) :
  single_spaced (String c (String c' s))
  = negb (is_space c && is_space c') && single_spaced (String c' s).
Proof. reflexivity. Qed.

Lemma single_spaced_word_app (w x : string) (c : ascii) :
  is_word w → is_space c = false → single_spaced (String c x) = true
  → single_spaced (w +:+ String " " (String c x)) = true.
Proof.
  intros [Hne Hall] Hc Hx. induction w as [|a w IH]; [done |].
  cbn in Hall. apply andb_true_iff in Hall as [Ha%not_space_false Hall].
  rewrite append_cons. destruct w as [|a0 w0].
  - rewrite append_nil_l, (single_spaced_cons2 a), (single_spaced_cons2 " " c).
    by rewrite Ha, Hc, Hx, andb_false_r.
  - rewrite append_cons, single_spaced_cons2, Ha. cbn [andb negb].
    rewrite <- append_cons. by apply IH.
Qed.

Lemma single_spaced_word (w : string) : is_word w → single_spaced w = true.
Proof.
  intros [Hne Hall]. induction w as [|a w IH]; [done |].
  cbn in Hall. apply andb_true_iff in Hall as [Ha%not_space_false Hall].
  destruct w as [|a0 w0]; [done |]. rewrite single_spaced_cons2, Ha. cbn [andb negb].
  by apply IH.
Qed.

Lemma single_spaced_join_words (ws : list string) :
  Forall is_word ws → single_spaced (join " " ws) = true.
Proof.
  induction ws as [|w ws IH]; intros Hall; [done |].
  apply Forall_cons in Hall as [Hw Hall]. destruct ws as [|w' ws].
  - by apply single_spaced_word.
  - change (join " " (w :: w' :: ws)) with (w +:+ String " " (join " " (w' :: ws))).
    pose proof Hall as [Hw' _]%Forall_cons.
    destruct (join_words_head w' ws Hw') as (c & r & Heq & Hc).
    specialize (IH Hall). rewrite Heq in *. by apply single_spaced_word_app.
Qed.

Lemma contains_cons (k : string) (c : ascii) (s : string) :
  contains k (String c s) = startswith k (String c s) || contains k s.
Proof. reflexivity. Qed.

Lemma single_spaced_no_double (s : string) :
  single_spaced s = true → contains "  " s = false.
Proof.
  induction s as [|c s IH]; [done |]. intros Hs.
  destruct s as [|c' s']; [cbn; by rewrite andb_false_r |].
  rewrite single_spaced_cons2 in Hs. apply andb_true_iff in Hs as [Hcc Hs].
  rewrite contains_cons, (IH Hs), orb_false_r. cbn [startswith].
  repeat case_bool_decide; subst; done.
Qed.

Lemma split_ws_nonspace (c : ascii) (s : string) :
  is_space c = false → ∃ w ws, split_ws (String c s) = w :: ws.
Proof.
  intros Hc. cbn [split_ws]. rewrite Hc.
  destruct s as [|c' s']; [by eexists _, _ |].
  destruct (is_space c'); [by eexists _, _ |].
  destruct (split_ws (String c' s')); by eexists _, _.
Qed.

Lemma join_empty_cons (x : string) (l : list string) :
  join "" (x :: l) = x +:+ join "" l.
Proof. destruct l; [by rewrite append_nil_r | done]. Qed.

Lemma keep_chars_split_ws (t : string) :
  keep_chars not_space t = join "" (split_ws t).
Proof.
  induction t as [|c s IH]; [done |]. cbn [keep_chars split_ws]. unfold not_space at 1.
  destruct (is_space c) eqn:Hc; cbn [negb]; [exact IH |].
  rewrite IH. destruct s as [|c' s']; [done |].
  destruct (is_space c') eqn:Hc'.
  - by rewrite join_empty_cons.
  - destruct (split_ws_nonspace c' s' Hc') as (w & ws & ->).
    by rewrite !join_empty_cons.
Qed.

Lemma keep_chars_app (p : ascii → bool) (a b : string) :
  keep_chars p (a +:+ b) = keep_chars p a +:+ keep_chars p b.
Proof.
  induction a as [|c a IH]; [done |]. rewrite append_cons. cbn.
  destruct (p c); by rewrite IH.
Qed.

Lemma keep_chars_all (p : ascii → bool) (s : string) :
  all_chars p s = true → keep_chars p s = s.
Proof.
  induction s as [|c s IH]; [done |]. cbn. intros [Hc Hs]%andb_true_iff.
  by rewrite Hc, IH.
Qed.

Lemma keep_chars_join_words (ws : list string) :
  Forall is_word ws → keep_chars not_space (join " " ws) = join "" ws.
Proof.
  induction ws as [|w ws IH]; intros Hall; [done |].
  apply Forall_cons in Hall as [[_ Hw] Hall]. destruct ws as [|w' ws].
  - by apply keep_chars_all.
  - change (join " " (w :: w' :: ws)) with (w +:+ " " +:+ join " " (w' :: ws)).
    rewrite !keep_chars_app, (keep_chars_all _ w Hw), (IH Hall).
    change (keep_chars not_space " ") with "".
    by rewrite append_nil_l, (join_empty_cons w).
Qed.

Lemma split_ws_nil (t : string) :
  split_ws t = [] ↔ all_chars is_space t = true.
Proof.
  induction t as [|c s IH]; [done |]. cbn [all_chars].
  destruct (is_space c) eqn:Hc.
  - rewrite split_ws_space by done. exact IH.
  - destruct (split_ws_nonspace c s Hc) as (w & ws & ->). done.
Qed.

(** X2. A normalised text has no white space at either end, no white
    space character other than the plain space, and never two spaces in a
    row. *)
Theorem normalize_space_shape :
  ∀ text : string,
    strip (normalize_space text) = normalize_space text
    ∧ all_chars (fun c => not_space c || bool_decide (c = " "%char))
        (normalize_space text) = true
    ∧ contains "  " (normalize_space text) = false.
Proof.
  intros text. pose proof (split_ws_words text) as Hw. unfold normalize_space.
  split_and!.
  - unfold strip. by rewrite lstrip_join_words, rstrip_join_words.
  - by apply plain_join_words.
  - by apply single_spaced_no_double, single_spaced_join_words.
Qed.

(** X3. Normalising keeps every character that is not white space, in
    order, and gives the empty text exactly for a text of white space
    only. *)
Theorem normalize_space_keeps_text :
  ∀ text : string,
    keep_chars not_space (normalize_space text) = keep_chars not_space text
    ∧ (normalize_space text = "" ↔ all_chars is_space text = true).
Proof.
  intros text. pose proof (split_ws_words text) as Hw. unfold normalize_space.
  split.
  - by rewrite keep_chars_join_words, keep_chars_split_ws.
  - rewrite <- split_ws_nil. split.
    + destruct (split_ws text) as [|w ws]; [done |].
      apply Forall_cons in Hw as [Hw _].
      by destruct (join_words_head w ws Hw) as (c & r & -> & _).
    + by intros ->.
Qed.

End NormalizeFacts.

(** ** Keywords in fragments and rows *)

Module KeywordFacts.
Import Py Text TextFacts Checker CheckerRest MapperFacts.

Lemma lower_app (a b : string) : lower (a +:+ b) = lower a +:+ lower b.
Proof.
  induction a as [|c a IH]; [done |]. rewrite append_cons. cbn. by rewrite IH.
Qed.

Lemma lower_join (sep : string) (l : list string) :
  lower (join sep l) = join (lower sep) (map lower l).
Proof.
  induction l as [|x l IH]; [done |]. destruct l as [|y l]; [done |].
  change (join sep (x :: y :: l)) with (x +:+ sep +:+ join sep (y :: l)).
  rewrite !lower_app, IH. done.
Qed.

Lemma classify_fragment (texts : list string) (t k : string) :
  t ∈ texts → k ∈ UNAVAILABLE_KEYWORDS → substring_of k (lower t)
  → classify_availability texts = "unavailable".
Proof.
  intros Ht Hk Hsub. unfold classify_availability.
  assert (Hany : any_in UNAVAILABLE_KEYWORDS (lower (join " " texts)) = true).
  { apply any_in_spec. exists k. split; [done |].
    rewrite lower_join. apply (substring_of_join _ (lower t)); [| done].
    by apply list_elem_of_fmap_2. }
  by rewrite Hany.
Qed.

(** X4. When one fragment holds one of the five keywords, in any letter
    case and inside any longer word, the classifier answers "unavailable"
    whatever the other fragments are. *)
Theorem classify_fragment_unavailable (texts : list string) (t k : string) :
  t ∈ texts → k ∈ UNAVAILABLE_KEYWORDS → substring_of k (lower t)
  → classify_availability texts = "unavailable".
Proof. apply classify_fragment. Qed.

(** The fragments "Book now" and "Sorry, class is FULL". *)
Lemma classify_fragment_unavailable_witness :
  classify_availability ["Book now"; "Sorry, class is FULL"] = "unavailable".
Proof.
  apply (classify_fragment_unavailable _ "Sorry, class is FULL" "full").
  - apply list_elem_of_further, list_elem_of_here.
  - apply list_elem_of_here.
  - by exists "sorry, class is ", "".
Defined.

(** X5. A table row is mapped to an "unavailable" session as soon as its
    action text or any one of its cells holds a keyword, in any letter
    case and inside any longer word, whatever the headers are. *)
Theorem row_with_keyword_unavailable
    (headers : list string) (rows : list row) (i : nat)
    (cells : list string) (action k : string) :
  rows !! i = Some ((cells, action) : row)
  → k ∈ UNAVAILABLE_KEYWORDS
  → substring_of k (lower action) ∨ (∃ c, c ∈ cells ∧ substring_of k (lower c))
  → ∃ s : Session,
      outcome_list (build_sessions_from_table headers rows) !! i = Some s
      ∧ availability s = "unavailable".
Proof.
  intros Hi Hk Hsub. rewrite build_sessions_from_table_pure.
  exists (session_of_row (map lower headers) (cells, action)).
  split; [cbn; by rewrite lookup_map, Hi |].
  cbn [session_of_row availability fst snd].
  destruct Hsub as [Ha | (c & Hc & Hsub)].
  - apply (classify_fragment _ action k); [apply list_elem_of_here | done | done].
  - apply (classify_fragment _ (join " " cells) k);
      [apply list_elem_of_further, list_elem_of_here | done |].
    rewrite lower_join. apply (substring_of_join _ (lower c)); [| done].
    by apply list_elem_of_fmap_2.
Qed.

(** The row of "INLL Fullerton", whose link reads "Book". *)
Lemma row_with_keyword_unavailable_witness :
  ∃ s : Session,
    outcome_list
      (build_sessions_from_table ["Location"; "Reference"]
         [(["INLL Fullerton"; "FR0074-7681"], "Book")]) !! 0%nat = Some s
    ∧ availability s = "unavailable".
Proof.
  apply (row_with_keyword_unavailable _ _ 0 ["INLL Fullerton"; "FR0074-7681"] "Book" "full").
  - reflexivity.
  - apply list_elem_of_here.
  - right. exists "INLL Fullerton". split; [apply list_elem_of_here |].
    by exists "inll ", "erton".
Defined.

End KeywordFacts.

(** ** More on one check *)

Module CheckRestFacts.
Import Py Text TextFacts Checker CheckerRest SelectorFacts MapperFacts CheckFacts
  NormalizeFacts.

Lemma is_space_lower_char (c : ascii) : is_space (lower_char c) = is_space c.
Proof. destruct c as [[] [] [] [] [] [] [] []]; reflexivity. Qed.

Lemma rstrip_lower (s : string) : rstrip (lower s) = lower (rstrip s).
Proof.
  induction s as [|c s IH]; [done |]. cbn [lower rstrip]. rewrite IH.
  destruct (rstrip s) as [|c0 r]; cbn [lower]; [| done].
  rewrite is_space_lower_char. by destruct (is_space c).
Qed.

Lemma rstrip_normalize_space (text : string) :
  rstrip (normalize_space text) = normalize_space text.
Proof. apply rstrip_join_words, split_ws_words. Qed.

Lemma lower_normalized_rstrip (r name : string) :
  lower (normalize_space r) = name → rstrip name = name.
Proof.
  intros <-. by rewrite rstrip_lower, rstrip_normalize_space.
Qed.

(** X6. The header cells that [extract_tables] stores are normalised, so
    no lower-cased header ends in a space: the alternate column names
    with a trailing space never match, and the look-up of the start and
    end dates goes by "start date" and "end date" alone. *)
Theorem trailing_space_names_never_match :
  ∀ raw : list string,
    let headers_l := map lower (normalized_headers raw) in
    ("start date " ∉ headers_l)
    ∧ ("end date " ∉ headers_l)
    ∧ idx_of headers_l ["start date"; "start date "]
      = idx_of headers_l ["start date"]
    ∧ idx_of headers_l ["end date"; "end date "]
      = idx_of headers_l ["end date"].
Proof.
  intros raw headers_l.
  assert (Hno : ∀ name, rstrip name ≠ name → name ∉ headers_l).
  { intros name Hname.
    intros [h [-> [r [-> _]]%list_elem_of_fmap]]%list_elem_of_fmap.
    apply Hname. by eapply lower_normalized_rstrip. }
  assert (H1 := Hno "start date " ltac:(done)).
  assert (H2 := Hno "end date " ltac:(done)).
  split_and!; [done | done | |]; rewrite !idx_of_pure; f_equal; cbn [resolve].
  - apply index_None in H1. rewrite H1. by destruct (index "start date" _).
  - apply index_None in H2. rewrite H2. by destruct (index "end date" _).
Qed.

Lemma default_references_nonempty : "" ∉ DEFAULT_REFERENCES.
Proof. apply (bool_decide_unpack _). by vm_compute. Qed.

Lemma filter_references_all_out (wanted : gset string) (l : list Session) :
  Forall (fun s => reference s ∉ wanted) l → filter_references wanted l = [].
Proof.
  unfold filter_references. induction l as [|s l IH]; intros Hall; [done |].
  apply Forall_cons in Hall as [Hs Hall].
  rewrite filter_cons_False by done. by apply IH.
Qed.

(** X7. When the selected table has data rows but no header cell equal,
    letter case apart, to "reference", every mapped session has an empty
    reference: the check returns no session and does not try the
    fallback extractor. *)
Theorem no_reference_column_no_sessions
    (pg : page) (headers : list string) (rows : list row) :
  pick_session_table (page_tables pg) = Some (headers, rows)
  → rows ≠ []
  → "reference" ∉ map lower headers
  → check_once pg = ([Entered "build_sessions_from_table"], Ok []).
Proof.
  intros Hpick Hrows Href.
  assert (Hpath : table_path pg
                  = ([Entered "build_sessions_from_table"],
                     Ok (map (session_of_row (map lower headers)) rows))).
  { unfold table_path. rewrite Hpick. by rewrite build_sessions_from_table_pure. }
  unfold check_once. rewrite (extract_sessions_of_table_path pg _ _ Hpath).
  destruct rows as [|r rows]; [done |]. cbn [map bind ret app].
  f_equal. f_equal. apply filter_references_all_out.
  apply Forall_forall. intros s Hs.
  assert (Hin : s ∈ map (session_of_row (map lower headers)) (r :: rows)) by done.
  apply list_elem_of_fmap in Hin as [r' [-> _]].
  cbn [session_of_row reference column_names].
  rewrite (resolve_None _ ["reference"]).
  - apply default_references_nonempty.
  - by intros name ->%list_elem_of_singleton.
Qed.

(** A table whose header reads "Reference No.", on a page whose text the
    fallback pattern would match. *)
Lemma no_reference_column_no_sessions_witness :
  check_once
    {| page_tables :=
         [(["Location"; "Reference No."],
           [(["INLL Belval"; "FR0074-7681"], "Book")])];
       page_text :=
         "INLL Belval 18:00-20:00 Mon-Fri 2024-09-01 00:00:00 2024-12-01 00:00:00 450 FR0074-7681" |}
  = ([Entered "build_sessions_from_table"], Ok []).
Proof.
  apply (no_reference_column_no_sessions _ ["Location"; "Reference No."]
           [(["INLL Belval"; "FR0074-7681"], "Book")]).
  - by vm_compute.
  - done.
  - apply (bool_decide_unpack _). by vm_compute.
Defined.

(** X8. A candidate table with three data rows or more makes the
    selector return a table, one of the candidates and scoring no less,
    whatever the headers are. *)
Theorem three_rows_suffice :
  ∀ (tables : list table) (t : table),
    t ∈ tables → (3 ≤ length t.2)%nat
    → ∃ t' : table,
        pick_session_table tables = Some t' ∧ t' ∈ tables
        ∧ score_table t ≤ score_table t'.
Proof.
  intros tables t Hin Hrows.
  pose proof (pick_session_table_cases tables) as H.
  assert (Hpos : 0 < score_table t).
  { rewrite score_table_points. rewrite (bool_decide_eq_true_2 _ Hrows).
    unfold points.
    repeat match goal with |- context [if ?b then _ else _] => destruct b end; lia. }
  destruct (pick_session_table tables) as [t'|].
  - destruct H as (i & Hi & _ & Hmax & _). exists t'. split_and!; [done | |].
    + by eapply list_elem_of_lookup_2.
    + apply list_elem_of_lookup_1 in Hin as [j Hj]. by eapply Hmax.
  - specialize (H t Hin). lia.
Qed.

(** One table of three rows under the header "Menu". *)
Lemma three_rows_suffice_witness :
  ∃ t' : table,
    pick_session_table [(["Menu"], [([], ""); ([], ""); ([], "")])] = Some t'
    ∧ t' ∈ [((["Menu"], [([], ""); ([], ""); ([], "")]) : table)]
    ∧ score_table (["Menu"], [([], ""); ([], ""); ([], "")]) ≤ score_table t'.
Proof.
  apply (three_rows_suffice _ (["Menu"], [([], ""); ([], ""); ([], "")])).
  - apply list_elem_of_here.
  - cbn. lia.
Defined.

Lemma extract_sessions_ok (pg : page) :
  ∃ evs all, extract_sessions pg = (evs, Ok all).
Proof.
  destruct (table_path_cases pg) as [[_ Heq] | (h & rows & _ & Heq)];
    rewrite (extract_sessions_of_table_path pg _ _ Heq);
    [eauto | destruct (map _ rows); eauto].
Qed.

(** X9. Whatever [--references] holds, the sessions that [main] hands to
    the renderer are a sub-list, in order, of the extracted sessions, and
    each carries one of the two default references. *)
Theorem main_sessions_within_default :
  ∀ (pg : page) (references : option string),
    ∃ all kept : list Session,
      outcome (extract_sessions pg) = Ok all
      ∧ outcome (main_sessions pg references) = Ok kept
      ∧ kept `sublist_of` all
      ∧ Forall (fun s => reference s = "FR0074-7681" ∨ reference s = "FR0074-7682")
          kept.
Proof.
  intros pg references.
  destruct (extract_sessions_ok pg) as (evs & all & Hex).
  assert (Hdef : ∀ l, Forall (fun s => reference s = "FR0074-7681"
                                     ∨ reference s = "FR0074-7682")
                        (filter_references DEFAULT_REFERENCES l)).
  { intros l. apply Forall_forall. intros s [Hs _]%list_elem_of_filter.
    unfold DEFAULT_REFERENCES in Hs. set_solver. }
  assert (Hsub : ∀ w l, filter_references w l `sublist_of` l)
    by (intros; apply sublist_filter).
  exists all. unfold main_sessions, check_once. rewrite Hex.
  cbn -[filter_references wanted_of DEFAULT_REFERENCES].
  destruct references as [refs|]; [destruct (truthy refs) |];
    cbn -[filter_references wanted_of DEFAULT_REFERENCES];
    eexists; (split_and!; [done | done | |]).
  - etrans; apply Hsub.
  - apply Forall_forall. intros s [_ Hs]%list_elem_of_filter.
    by eapply Forall_forall in Hs; [| apply Hdef].
  - apply Hsub.
  - apply Hdef.
  - apply Hsub.
  - apply Hdef.
Qed.

End CheckRestFacts.

(** ** Facts about the parsing of [--references] *)

Module ReferenceFacts.

Import Py Text TextFacts Checker CheckerRest CheckFacts CheckRestFacts.

Lemma split_all_chars (p : ascii → bool) (sep : ascii) (s : string) :
  all_chars (fun c => p c || bool_decide (c = sep)) s = true
  → Forall (fun piece => all_chars p piece = true) (split sep s).
Proof.
  induction s as [|c s IH]; [by repeat constructor |].
  cbn [all_chars split]. intros [Hc Hs]%andb_true_iff. specialize (IH Hs).
  case_bool_decide as Hsep; [by constructor |].
  rewrite orb_false_r in Hc.
  destruct (split sep s) as [|piece ps]; [by repeat constructor; cbn; rewrite Hc |].
  apply Forall_cons in IH as [Hp Hps]. constructor; [| done]. cbn. by rewrite Hc, Hp.
Qed.

Lemma split_no_sep (sep : ascii) (s : string) :
  Forall (fun piece => all_chars (fun c => negb (bool_decide (c = sep))) piece = true)
    (split sep s).
Proof.
  apply split_all_chars. induction s as [|c s IH]; [done |]. cbn.
  rewrite IH. by case_bool_decide.
Qed.

Lemma lstrip_all_space (s : string) : all_chars is_space s = true → lstrip s = "".
Proof.
  induction s as [|c s IH]; [done |]. cbn. intros [Hc Hs]%andb_true_iff.
  by rewrite Hc, IH.
Qed.

Lemma strip_all_space (s : string) : all_chars is_space s = true → strip s = "".
Proof. intros H. unfold strip. by rewrite lstrip_all_space. Qed.

Lemma all_chars_lstrip (p : ascii → bool) (s : string) :
  all_chars p s = true → all_chars p (lstrip s) = true.
Proof.
  induction s as [|c s IH]; [done |]. cbn [lstrip].
  destruct (is_space c); [| done]. cbn. intros [_ Hs]%andb_true_iff. by apply IH.
Qed.

Lemma all_chars_rstrip (p : ascii → bool) (s : string) :
  all_chars p s = true → all_chars p (rstrip s) = true.
Proof.
  induction s as [|c s IH]; [done |]. cbn [rstrip all_chars].
  intros [Hc Hs]%andb_true_iff. specialize (IH Hs).
  destruct (rstrip s) as [|c0 r].
  - destruct (is_space c); [done |]. cbn. by rewrite Hc.
  - cbn [all_chars] in *. by rewrite Hc, IH.
Qed.

Lemma rstrip_idempotent (s : string) : rstrip (rstrip s) = rstrip s.
Proof.
  induction s as [|c s IH]; [done |]. cbn [rstrip].
  destruct (rstrip s) as [|c0 r] eqn:Hr.
  - destruct (is_space c) eqn:Hc; [done |]. cbn. by rewrite Hc.
  - cbn [rstrip]. cbn [rstrip] in IH. by rewrite IH.
Qed.

Lemma lstrip_head (s : string) :
  lstrip s = "" ∨ ∃ c r, lstrip s = String c r ∧ is_space c = false.
Proof.
  induction s as [|c s IH]; [by left |]. cbn [lstrip].
  destruct (is_space c) eqn:Hc; [done |]. right. by exists c, s.
Qed.

Lemma rstrip_head (c : ascii) (s : string) :
  is_space c = false → ∃ r, rstrip (String c s) = String c r.
Proof.
  intros Hc. cbn [rstrip]. destruct (rstrip s) as [|c0 r].
  - rewrite Hc. by exists "".
  - by exists (String c0 r).
Qed.

Lemma strip_idempotent (s : string) : strip (strip s) = strip s.
Proof.
  unfold strip. destruct (lstrip_head s) as [-> | (c & r & -> & Hc)]; [done |].
  destruct (rstrip_head c r Hc) as [r' Hr]. rewrite Hr. cbn [lstrip]. rewrite Hc.
  rewrite <- Hr. apply rstrip_idempotent.
Qed.

Lemma split_word (sep : ascii) (r : string) :
  all_chars (fun c => negb (bool_decide (c = sep))) r = true → split sep r = [r].
Proof.
  induction r as [|c r IH]; [done |]. cbn [all_chars split].
  intros [Hc Hr]%andb_true_iff. rewrite (IH Hr).
  by destruct (bool_decide (c = sep)).
Qed.

Lemma split_word_sep (sep : ascii) (r x : string) :
  all_chars (fun c => negb (bool_decide (c = sep))) r = true
  → split sep (r +:+ String sep x) = r :: split sep x.
Proof.
  induction r as [|c r IH].
  - intros _. rewrite append_nil_l. cbn [split]. by rewrite bool_decide_eq_true_2.
  - cbn [all_chars]. intros [Hc Hr]%andb_true_iff. rewrite append_cons.
    cbn [split]. rewrite (IH Hr). by destruct (bool_decide (c = sep)).
Qed.

Lemma split_join (sep : ascii) (r : string) (rs : list string) :
  Forall (fun x => all_chars (fun c => negb (bool_decide (c = sep))) x = true) (r :: rs)
  → split sep (join (String sep "") (r :: rs)) = r :: rs.
Proof.
  revert r. induction rs as [|r' rs IH]; intros r [Hr Hrs]%Forall_cons.
  - cbn. by apply split_word.
  - change (join (String sep "") (r :: r' :: rs))
      with (r +:+ String sep "" +:+ join (String sep "") (r' :: rs)).
    change (String sep "" +:+ join (String sep "") (r' :: rs))
      with (String sep (join (String sep "") (r' :: rs))).
    rewrite split_word_sep by done. by rewrite IH.
Qed.

Lemma wanted_of_elem (refs x : string) :
  x ∈ wanted_of refs ↔ x ≠ "" ∧ ∃ piece, piece ∈ split "," refs ∧ x = strip piece.
Proof.
  unfold wanted_of. rewrite elem_of_list_to_set, list_elem_of_filter.
  change (map strip (split "," refs)) with (strip <$> split "," refs).
  rewrite list_elem_of_fmap. split.
  - intros [Ht (piece & -> & Hin)]. split; [| by exists piece].
    by destruct (strip piece).
  - intros [Hne (piece & Hin & ->)]. split; [| by exists piece].
    by destruct (strip piece).
Qed.

(** X10. Every reference that [main] reads from [--references] is clean:
    it is not empty, has no white space at either end and holds no
    comma. *)
Theorem wanted_of_clean (references x : string) :
  x ∈ wanted_of references → clean_reference x.
Proof.
  intros [Hne (piece & Hin & ->)]%wanted_of_elem. split_and!; [done | |].
  - apply strip_idempotent.
  - unfold strip. apply all_chars_rstrip, all_chars_lstrip.
    pose proof (split_no_sep "," references) as Hall.
    by eapply Forall_forall in Hall.
Qed.

Lemma wanted_of_clean_witness :
  "FR0074-7682" ∈ wanted_of " FR0074-7681 ,, FR0074-7682,"
  ∧ clean_reference "FR0074-7682".
Proof.
  assert (H : "FR0074-7682" ∈ wanted_of " FR0074-7681 ,, FR0074-7682,").
  { apply (bool_decide_unpack _). by vm_compute. }
  split; [exact H |]. exact (wanted_of_clean _ _ H).
Defined.

Lemma filter_truthy_clean (rs : list string) :
  Forall clean_reference rs
  → filter (fun r => truthy r = true) (map strip rs) = rs.
Proof.
  induction 1 as [|r rs (Hne & Hstrip & _) _ IH]; [done |].
  cbn [map]. rewrite filter_cons_True.
  - by rewrite Hstrip, IH.
  - rewrite Hstrip. by destruct r.
Qed.

(** X11. Joining clean references with commas and handing the result to
    [--references] gives back exactly those references as the wanted
    set. *)
Theorem wanted_of_join (rs : list string) :
  Forall clean_reference rs → wanted_of (join "," rs) = list_to_set rs.
Proof.
  intros Hall. destruct rs as [|r rs]; [done |].
  unfold wanted_of. rewrite split_join.
  - by rewrite filter_truthy_clean.
  - eapply Forall_impl; [exact Hall |]. by intros x (_ & _ & Hx).
Qed.

Lemma wanted_of_join_witness :
  Forall clean_reference ["FR0074-7681"; "FR 12"]
  ∧ wanted_of (join "," ["FR0074-7681"; "FR 12"])
    = list_to_set ["FR0074-7681"; "FR 12"].
Proof.
  assert (H : Forall clean_reference ["FR0074-7681"; "FR 12"]).
  { repeat constructor; done. }
  split; [exact H |]. exact (wanted_of_join _ H).
Defined.

Lemma wanted_of_separators (refs : string) :
  all_chars separator refs = true → wanted_of refs = ∅.
Proof.
  intros Hall. apply set_eq. intros x. split; [| set_solver].
  intros [Hne (piece & Hin & ->)]%wanted_of_elem. exfalso. apply Hne.
  apply strip_all_space.
  pose proof (split_all_chars is_space "," refs Hall) as Hp.
  by eapply Forall_forall in Hp.
Qed.

(** X12. A [--references] value that is not empty but holds only commas
    and white space selects nothing: [main] hands no session to the
    renderer.  The empty value, in contrast, is ignored: [main] behaves as
    if the option were absent. *)
Theorem separators_only_references (pg : page) (references : string) :
  references ≠ ""
  → all_chars separator references = true
  → outcome (main_sessions pg (Some references)) = Ok []
    ∧ main_sessions pg (Some "") = main_sessions pg None.
Proof.
  intros Hne Hall. split; [| done].
  destruct (extract_sessions_ok pg) as (evs & all & Hex).
  unfold main_sessions, check_once. rewrite Hex.
  destruct references as [|c r]; [done |].
  cbn -[filter_references wanted_of DEFAULT_REFERENCES all_chars].
  f_equal. rewrite wanted_of_separators by done.
  apply filter_references_all_out, Forall_forall. set_solver.
Qed.

(** The value [" , ,"] on a page whose table lists a default reference. *)
Lemma separators_only_references_witness :
  " , ," ≠ ""
  ∧ all_chars separator " , ," = true
  ∧ outcome
      (main_sessions
         {| page_tables :=
              [(["Location"; "Reference"],
                [(["INLL Belval"; "FR0074-7681"], "Book")])];
            page_text := "" |}
         (Some " , ,")) = Ok []
  ∧ outcome
      (main_sessions
         {| page_tables :=
              [(["Location"; "Reference"],
                [(["INLL Belval"; "FR0074-7681"], "Book")])];
            page_text := "" |}
         None)
    = Ok [{| location := "INLL Belval"; schedule := ""; hours := "";
             days := ""; start_date := ""; end_date := ""; fee := "";
             reference := "FR0074-7681"; availability := "available";
             action_text := "Book" |}].
Proof.
  assert (Hne : " , ," ≠ "") by done.
  assert (Hall : all_chars separator " , ," = true) by (by vm_compute).
  split_and!; [exact Hne | exact Hall | | by vm_compute].
  exact (proj1 (separators_only_references _ _ Hne Hall)).
Defined.

End ReferenceFacts.

(** ** The notification, and the checker's watch loop *)

Module NotifyFacts.

Import Py Text TextFacts Json Checker Watcher CheckerRest JsonFacts
  WatcherFacts CheckFacts CheckRestFacts.

(** X13. The watcher on the checker's own JSON output, for sessions over
    all of [str]: one cycle leaves nothing behind when no session is
    available.  Otherwise the text of the notification is the heading
    followed by one line "<reference> | available" per available session,
    in the order of the checker, with the reference as the watcher read
    it back.  When that text holds a surrogate its encoding raises: the
    cycle prints a warning and posts nothing.  When it does not, the cycle
    sends exactly one POST to the ntfy topic with the UTF-8 bytes of the
    text, and a failed delivery adds one warning. *)
Theorem notification_of_checker_output (render : value → Unicode.str)
    (net : result unit) (sessions : list Wide.Session) :
  Forall is_session sessions
  → let out :=
      Unicode.of_string
        (stdout_of (events (Wide.output_sessions_json sessions))) in
    let available :=
      filter (fun s => Wide.availability s = Unicode.of_string "available")
        sessions in
    let body :=
      Unicode.join [Text.code newline]
        (Unicode.of_string "Available sessions detected:"
         :: map (fun s => read_back (Wide.reference s)
                          ++ Unicode.of_string " | available") available) in
    events (cycle render (Ok out) net)
    = match available with
      | [] => []
      | _ :: _ =>
          match Unicode.encode_utf8 body with
          | None => [Printed "[warn] unexpected error"]
          | Some data =>
              Posted "https://ntfy.sh/INLL-free-spot-checker-mo" data
              :: match net with
                 | Ok _ => []
                 | Raise e =>
                     [Printed (if is_request_exception e
                               then "[warn] ntfy send failed"
                               else "[warn] unexpected error")]
                 end
          end
      end.
Proof.
  intros Hs out available body.
  pose proof (run_check_on_output sessions Hs) as Hrun. fold out in Hrun.
  rewrite (cycle_objects render (Ok out) net (parsed sessions));
    [| by rewrite Hrun | apply parsed_objects].
  rewrite Hrun, notification_parsed, filter_available_parsed.
  cbn [events fst app]. subst body available.
  unfold parsed, body_of, after_post.
  change (fun s : Wide.Session =>
            Wide.availability s = Unicode.of_string "available")
    with wide_available.
  change (fun s : Wide.Session =>
            read_back (Wide.reference s) ++ Unicode.of_string " | available")
    with wide_line.
  by destruct (filter wide_available sessions).
Qed.

(** Two sessions, one of them available, with a euro sign in its
    location and an accented letter in its reference. *)
Lemma notification_of_checker_output_witness :
  let sessions :=
    [ {| Wide.location := [73; 78; 76; 76; 32; 8364]%N;
         Wide.schedule := []; Wide.hours := []; Wide.days := [];
         Wide.start_date := []; Wide.end_date := []; Wide.fee := [];
         Wide.reference := [70; 82; 233]%N;
         Wide.availability := Unicode.of_string "available";
         Wide.action_text := Unicode.of_string "Book" |};
      {| Wide.location := []; Wide.schedule := []; Wide.hours := [];
         Wide.days := []; Wide.start_date := []; Wide.end_date := [];
         Wide.fee := [];
         Wide.reference := Unicode.of_string "FR0074-7682";
         Wide.availability := Unicode.of_string "unavailable";
         Wide.action_text := Unicode.of_string "Full" |} ] in
  Forall is_session sessions
  ∧ ∃ data : Unicode.bytes,
      Unicode.encode_utf8
        (Unicode.of_string "Available sessions detected:"
         ++ [10; 70; 82; 233]%N ++ Unicode.of_string " | available")
      = Some data
      ∧ events (cycle (fun _ => [])
                  (Ok (Unicode.of_string
                         (stdout_of
                            (events (Wide.output_sessions_json sessions)))))
                  (Raise RequestException))
        = [Posted "https://ntfy.sh/INLL-free-spot-checker-mo" data;
           Printed "[warn] ntfy send failed"].
Proof.
  intros sessions.
  assert (Hs : Forall is_session sessions) by (repeat constructor; by vm_compute).
  split; [exact Hs |]. eexists. split; [by vm_compute |].
  rewrite (notification_of_checker_output (fun _ => []) (Raise RequestException)
             sessions Hs).
  by vm_compute.
Defined.

(** X14. A cycle sends a notification only if the checker's output
    parsed as a list all of whose entries are objects, one of them marked
    available.  Output of any other shape (a dictionary, a string, a
    number, a list with an entry that is not an object) never leads to a
    POST. *)
Theorem post_needs_available_session (render : value → Unicode.str)
    (proc : result Unicode.str) (net : result unit) :
  posted (cycle render proc net) = true
  → ∃ sessions : list value,
      outcome (run_check proc) = Ok (JArr sessions)
      ∧ Forall (fun s => is_object s = true) sessions
      ∧ ∃ s, s ∈ sessions ∧ is_available s = true.
Proof.
  intros (sessions & Hrun & Hall & Hav & _)%cycle_posted. by exists sessions.
Qed.

Lemma post_needs_available_session_witness :
  let out :=
    Unicode.of_string
      (stdout_of (events (output_sessions_json
        [ {| location := "INLL Belval"; schedule := "18:00-20:00"; hours := "";
             days := "Mon-Fri"; start_date := ""; end_date := ""; fee := "450";
             reference := "FR0074-7681"; availability := "available";
             action_text := "Book" |} ]))) in
  posted (cycle (fun _ => []) (Ok out) (Ok tt)) = true
  ∧ ∃ sessions : list value,
      outcome (run_check (Ok out)) = Ok (JArr sessions)
      ∧ Forall (fun s => is_object s = true) sessions
      ∧ ∃ s, s ∈ sessions ∧ is_available s = true.
Proof.
  intros out.
  assert (H : posted (cycle (fun _ => []) (Ok out) (Ok tt)) = true)
    by (by vm_compute).
  split; [exact H |].
  exact (post_needs_available_session (fun _ => []) (Ok out) (Ok tt) H).
Defined.

(** X15. Whatever the subprocess and the network do, one cycle sends at
    most one POST, and only to https://ntfy.sh/INLL-free-spot-checker-mo. *)
Theorem cycle_single_post (render : value → Unicode.str)
    (proc : result Unicode.str) (net : result unit) :
  List.filter is_post (events (cycle render proc net)) = []
  ∨ ∃ body : Unicode.bytes,
      List.filter is_post (events (cycle render proc net))
      = [Posted "https://ntfy.sh/INLL-free-spot-checker-mo" body].
Proof.
  destruct (cycle_cases render proc net)
    as [(warn & -> & Hwarn) | (sessions & data & _ & _ & _ & _ & ->)];
    rewrite List.filter_app, filter_post_run_check.
  - by left.
  - right. exists data. cbn. by rewrite filter_post_after.
Qed.

Lemma output_sessions_ok (sessions : list Session) (fmt : CheckerRest.format) :
  outcome (output_sessions sessions fmt) = Ok tt.
Proof.
  destruct fmt; [| done]. cbn. destruct sessions as [|s l]; [done |].
  cbn [output_sessions_text map]. generalize (text_line s :: map text_line l).
  intros lines. induction lines as [|x lines IH]; [done |].
  cbn [print_lines]. destruct (print_lines lines) as [evs r]. cbn in *. by subst.
Qed.

Lemma main_pass_ok (fmt : CheckerRest.format) (references : option string)
    (pg : page) :
  outcome (main_pass fmt references (Ok pg)) = Ok tt.
Proof.
  unfold main_pass. change (([], Ok pg) : M page) with (ret pg).
  rewrite bind_ret_l.
  destruct (extract_sessions_ok pg) as (evs & all & Hex).
  unfold main_sessions, check_once. rewrite Hex.
  pose proof (output_sessions_ok) as Hout.
  destruct references as [refs|]; [destruct (truthy refs) |];
    cbn -[filter_references wanted_of DEFAULT_REFERENCES output_sessions];
    match goal with |- context [output_sessions ?l fmt] =>
      specialize (Hout l fmt); destruct (output_sessions l fmt) as [evs' r] end;
    by cbn in *.
Qed.

(** X16. The checker's own [--watch] loop has no handler: the passes
    before the first failed fetch print their output, the exception of
    that fetch ends the loop, and no later pass runs. *)
Theorem main_watch_stops_at_failure (fmt : CheckerRest.format)
    (references : option string) (pages : list page) (e : exn)
    (rest : list (result page)) :
  main_watch fmt references (map Ok pages ++ Raise e :: rest)
  = (concat (map (fun pg => events (main_pass fmt references (Ok pg))) pages),
     Raise e).
Proof.
  induction pages as [|pg pages IH]; [done |].
  cbn [map app main_watch concat]. rewrite IH.
  pose proof (main_pass_ok fmt references pg) as Hok.
  destruct (main_pass fmt references (Ok pg)) as [evs r]. cbn in *. by subst.
Qed.

(** X21. With [--once] the watcher runs exactly one cycle and returns
    normally, whatever the subprocess and the network did in that cycle;
    what the environment would have given to later cycles is never
    used. *)
Theorem once_runs_one_cycle (render : value → Unicode.str)
    (proc : result Unicode.str) (net : result unit)
    (env : list (result Unicode.str * result unit)) :
  main_loop render true ((proc, net) :: env)
  = (events (cycle render proc net), Ok tt).
Proof.
  cbn [main_loop]. pose proof (cycle_outcome render proc net) as Hok.
  destruct (cycle render proc net) as [evs r]. cbn in *. subst r.
  by rewrite app_nil_r.
Qed.

End NotifyFacts.

(** ** The fallback pattern *)

Module FallbackFacts.

Import Py Text TextFacts Checker CheckerRest CheckFacts JsonFacts.

Section Sound.
Context {R : Type}.

Lemma cls_star_sound (p : ascii → bool) (s : string)
    (k : string → option R) (x : R) :
  Regex.cls_star p s k = Some x
  → ∃ w rest, all_chars p w = true ∧ s = w +:+ rest ∧ k rest = Some x.
Proof.
  induction s as [|c s IH]; cbn [Regex.cls_star].
  - intros Hk. by exists "", "".
  - destruct (p c) eqn:Hc.
    + destruct (Regex.cls_star p s k) as [y|] eqn:Hs.
      * intros [= ->]. destruct (IH eq_refl) as (w & rest & Hw & -> & Hk).
        exists (String c w), rest. split_and!; [| done | done].
        cbn. by rewrite Hc, Hw.
      * intros Hk. by exists "", (String c s).
    + intros Hk. by exists "", (String c s).
Qed.

Lemma exec_sound (r : Regex.re) :
  ∀ (s : string) (g : Regex.groups) (k : string → Regex.groups → option R) (x : R),
    Regex.exec r s g k = Some x
    → ∃ rest g', sem r s g rest g' ∧ k rest g' = Some x.
Proof.
  induction r as [c | p | p | r1 IH1 r2 IH2 | n r1 IH1 | r1 IH1 | r1 IH1 | name r1 IH1];
    intros s g k x; cbn [Regex.exec sem].
  - destruct s as [|a s]; [done |]. case_bool_decide as Ha; [| done].
    subst a. intros Hk. by exists s, g.
  - destruct s as [|a s]; [done |]. destruct (p a) eqn:Ha; [| done].
    intros Hk. exists s, g. split; [by exists a | done].
  - unfold Regex.cls_plus. destruct s as [|a s]; [done |].
    destruct (p a) eqn:Ha; [| done].
    intros (w & rest & Hw & -> & Hk)%cls_star_sound.
    exists rest, g. split; [| done]. exists (String a w). split_and!; try done.
    cbn. by rewrite Ha, Hw.
  - intros (mid & g1 & H1 & H2)%IH1. apply IH2 in H2 as (rest & g' & H2 & Hk).
    exists rest, g'. split; [by exists mid, g1 | done].
  - revert s g. induction n as [|n IHn]; intros s g.
    + intros Hk. by exists s, g.
    + intros (mid & g1 & H1 & H2)%IH1. apply IHn in H2 as (rest & g' & H2 & Hk).
      exists rest, g'. split; [by exists mid, g1 | done].
  - destruct (Regex.exec r1 s g k) as [y|] eqn:Hr.
    + intros [= ->]. apply IH1 in Hr as (rest & g' & H1 & Hk).
      exists rest, g'. split; [by left | done].
    + intros Hk. exists s, g. split; [by right | done].
  - apply IH1.
  - intros (rest & g1 & H1 & Hk)%IH1. eexists rest, _. split; [| exact Hk].
    by exists g1.
Qed.
End Sound.

Lemma sem_lang (r : Regex.re) :
  ∀ s g rest g', sem r s g rest g' → ∃ w, s = w +:+ rest ∧ lang r w.
Proof.
  induction r as [c | p | p | r1 IH1 r2 IH2 | n r1 IH1 | r1 IH1 | r1 IH1 | name r1 IH1];
    intros s g rest g'; cbn [sem lang].
  - intros [-> _]. by exists (String c "").
  - intros (a & Ha & -> & _). exists (String a ""). split; [done | by exists a].
  - intros (w & Hne & Hw & -> & _). by exists w.
  - intros (mid & g1 & (w1 & -> & H1)%IH1 & (w2 & -> & H2)%IH2).
    exists (w1 +:+ w2). split; [by rewrite append_assoc | by exists w1, w2].
  - revert s g. induction n as [|n IHn]; intros s g.
    + intros [-> _]. by exists "".
    + intros (mid & g1 & (w1 & -> & H1)%IH1 & (w2 & -> & H2)%IHn).
      exists (w1 +:+ w2). split; [by rewrite append_assoc | by exists w1, w2].
  - intros [(w & -> & H1)%IH1 | [-> _]]; [exists w | exists ""]; split; auto.
  - apply IH1.
  - intros (g1 & H1 & _). by eapply IH1.
Qed.

Lemma take_append (w rest : string) :
  Regex.take (String.length w) (w +:+ rest) = w.
Proof.
  induction w as [|c w IH]; [by destruct rest |].
  rewrite append_cons. cbn. by rewrite IH.
Qed.

Lemma matched_append (w rest : string) : Regex.matched (w +:+ rest) rest = w.
Proof.
  unfold Regex.matched. rewrite length_append.
  replace (String.length w + String.length rest - String.length rest)%nat
    with (String.length w) by lia.
  apply take_append.
Qed.

Lemma substring_of_suffix (v w s : string) :
  substring_of v s → substring_of v (w +:+ s).
Proof.
  intros (p & q & ->). exists (w +:+ p), q. by rewrite !append_assoc.
Qed.

Lemma substring_of_prefix (w rest : string) : substring_of w (w +:+ rest).
Proof. exists "", rest. by rewrite append_nil_l. Qed.

Lemma sem_groups (r : Regex.re) (name v : string) :
  ∀ s g rest g',
    sem r s g rest g' → g' !! name = Some v
    → g !! name = Some v ∨ (group_lang r name v ∧ substring_of v s).
Proof.
  induction r as [c | p | p | r1 IH1 r2 IH2 | n r1 IH1 | r1 IH1 | r1 IH1 | nm r1 IH1];
    intros s g rest g'; cbn [sem group_lang].
  - intros [_ ->]. by left.
  - intros (a & _ & _ & ->). by left.
  - intros (w & _ & _ & _ & ->). by left.
  - intros (mid & g1 & H1 & H2) Hv.
    destruct (IH2 _ _ _ _ H2 Hv) as [Hg1 | [Hl Hsub]].
    + destruct (IH1 _ _ _ _ H1 Hg1) as [Hg | [Hl Hsub]]; [by left |].
      right. split; [by left | done].
    + right. split; [by right |].
      destruct (sem_lang _ _ _ _ _ H1) as (w & -> & _).
      by apply substring_of_suffix.
  - revert s g. induction n as [|n IHn]; intros s g.
    + intros [_ ->]. by left.
    + intros (mid & g1 & H1 & H2) Hv.
      destruct (IHn _ _ H2 Hv) as [Hg1 | [Hl Hsub]].
      * destruct (IH1 _ _ _ _ H1 Hg1) as [Hg | [Hl Hsub]]; [by left |].
        right. by split.
      * right. split; [done |].
        destruct (sem_lang _ _ _ _ _ H1) as (w & -> & _).
        by apply substring_of_suffix.
  - intros [H1 | [_ ->]] Hv; [by eapply IH1 | by left].
  - apply IH1.
  - intros (g1 & H1 & ->) Hv.
    destruct (decide (nm = name)) as [-> | Hne].
    + unfold Regex.groups in *. rewrite lookup_insert_eq in Hv. injection Hv as <-.
      destruct (sem_lang _ _ _ _ _ H1) as (w & -> & Hw).
      rewrite matched_append. right. split; [by left |].
      apply substring_of_prefix.
    + unfold Regex.groups in *. rewrite lookup_insert_ne in Hv by done.
      destruct (IH1 _ _ _ _ H1 Hv) as [Hg | [Hl Hsub]]; [by left |].
      right. split; [by right | done].
Qed.

Lemma sem_binds (r : Regex.re) (name : string) :
  ∀ s g rest g',
    sem r s g rest g' → binds r name = true ∨ is_Some (g !! name)
    → is_Some (g' !! name).
Proof.
  induction r as [c | p | p | r1 IH1 r2 IH2 | n r1 IH1 | r1 IH1 | r1 IH1 | nm r1 IH1];
    intros s g rest g'; cbn [sem binds].
  - intros [_ ->] [? | ?]; done.
  - intros (a & _ & _ & ->) [? | ?]; done.
  - intros (w & _ & _ & _ & ->) [? | ?]; done.
  - intros (mid & g1 & H1 & H2) [[Hb | Hb]%orb_true_iff | Hg].
    + eapply IH2; [done |]. right. eapply IH1; [done |]. by left.
    + eapply IH2; [done |]. by left.
    + eapply IH2; [done |]. right. eapply IH1; [done |]. by right.
  - assert (Hkeep : ∀ n s g, 
      (fix rep (n : nat) (s : string) (g : Regex.groups) : Prop :=
         match n with
         | O => rest = s ∧ g' = g
         | S n' => ∃ mid g1, sem r1 s g mid g1 ∧ rep n' mid g1
         end) n s g → is_Some (g !! name) → is_Some (g' !! name)).
    { clear n. induction n as [|n IHn]; intros s0 g0.
      - by intros [_ ->].
      - intros (mid & g1 & H1 & H2) Hg. eapply IHn; [done |].
        eapply IH1; [done |]. by right. }
    intros Hrep [[Hn Hb]%andb_true_iff | Hg]; [| by eapply Hkeep].
    destruct n as [|n]; [done |]. destruct Hrep as (mid & g1 & H1 & H2).
    eapply Hkeep; [done |]. eapply IH1; [done |]. by left.
  - intros [H1 | [_ ->]] [? | Hg]; try done. eapply IH1; [done |]. by right.
  - apply IH1.
  - intros (g1 & H1 & ->) Hb.
    destruct (decide (nm = name)) as [-> | Hne].
    + unfold Regex.groups in *. rewrite lookup_insert_eq. done.
    + unfold Regex.groups in *. rewrite lookup_insert_ne by done.
      eapply IH1; [done |].
      destruct Hb as [[Hb | Hb]%orb_true_iff | Hg]; [| by left | by right].
      by apply bool_decide_eq_true in Hb.
Qed.

Lemma finditer_from_elem (r : Regex.re) (g : Regex.groups) :
  ∀ (s : string) (skip : nat),
    g ∈ Regex.finditer_from r s skip
    → ∃ pre s' rest, s = pre +:+ s' ∧ Regex.match_here r s' = Some (rest, g).
Proof.
  assert (Hcons : ∀ c s,
            (∃ pre s' rest, s = pre +:+ s' ∧ Regex.match_here r s' = Some (rest, g))
            → ∃ pre s' rest, String c s = pre +:+ s'
                             ∧ Regex.match_here r s' = Some (rest, g)).
  { intros c s (pre & s' & rest & -> & Hm). by exists (String c pre), s', rest. }
  induction s as [|c s IH]; intros skip.
  - destruct skip as [|n]; cbn [Regex.finditer_from]; [| by intros ?%elem_of_nil].
    destruct (Regex.match_here r "") as [[rest g0]|] eqn:Hm; [| by intros ?%elem_of_nil].
    intros ->%list_elem_of_singleton. by exists "", "", rest.
  - destruct skip as [|n]; cbn [Regex.finditer_from].
    + destruct (Regex.match_here r (String c s)) as [[rest g0]|] eqn:Hm.
      * intros [-> | Hin]%elem_of_cons.
        -- by exists "", (String c s), rest.
        -- apply Hcons. by eapply IH.
      * intros Hin. apply Hcons. by eapply IH.
    + intros Hin. apply Hcons. by eapply IH.
Qed.

Lemma match_groups (r : Regex.re) (text : string) (g : Regex.groups) (name : string) :
  g ∈ Regex.finditer r text
  → binds r name = true
  → ∃ v, Regex.group g name = v
         ∧ group_lang r name v ∧ substring_of v text.
Proof.
  intros (pre & s' & rest & -> & Hm)%finditer_from_elem Hb.
  unfold Regex.match_here in Hm.
  apply exec_sound in Hm as (rest' & g' & Hsem & [= -> ->]).
  destruct (sem_binds r name _ _ _ _ Hsem (or_introl Hb)) as [v Hv].
  destruct (sem_groups r name v _ _ _ _ Hsem Hv) as [Hg | [Hl Hsub]].
  { unfold Regex.groups in *. by rewrite lookup_empty in Hg. }
  exists v. unfold Regex.group. unfold Regex.groups in *. rewrite Hv.
  split_and!; [done | done | by apply substring_of_suffix].
Qed.

Lemma lang_rep_cls (p : ascii → bool) (n : nat) (w : string) :
  lang (Regex.Rep n (Regex.Cls p)) w
  → String.length w = n ∧ all_chars p w = true.
Proof.
  revert w. induction n as [|n IH]; intros w; cbn [lang].
  - by intros ->.
  - intros (w1 & w2 & -> & (a & Ha & ->) & [Hlen Hall]%IH).
    rewrite append_cons, append_nil_l. cbn. by rewrite Ha, Hall, Hlen.
Qed.

(** Keeps, among the named groups of the pattern, the one asked for. *)
Ltac pick_group :=
  repeat match goal with
         | H : _ ∨ _ |- _ => destruct H as [H | H]
         | H : False |- _ => destruct H
         | H : @eq string _ _ ∧ _ |- _ =>
             let Heq := fresh in
             destruct H as [Heq H]; try discriminate Heq; clear Heq
         end.

Lemma location_lang (v : string) :
  group_lang pattern "location" v
  → ∃ ws word, v = "INLL" +:+ ws +:+ word
      ∧ ws ≠ "" ∧ all_chars Regex.cls_s ws = true
      ∧ word ≠ "" ∧ all_chars Regex.cls_w word = true.
Proof.
  unfold pattern. cbn [group_lang Regex.cat Regex.lit digits blanks datetime].
  intros H. pick_group. unfold blanks in H. cbn [lang] in H.
  destruct H as (w1 & w2 & Hv & H1 & ws & word & -> & Hws & Hword). subst v.
  destruct H1 as (a & a' & -> & -> & b & b' & -> & -> & c & c' & -> & -> & ->).
  exists ws, word. by destruct Hws, Hword.
Qed.

Lemma reference_lang (v : string) :
  group_lang pattern "reference" v
  → ∃ d1 d2, v = "FR" +:+ d1 +:+ "-" +:+ d2
      ∧ String.length d1 = 4%nat ∧ all_chars Regex.cls_d d1 = true
      ∧ d2 ≠ "" ∧ all_chars Regex.cls_d d2 = true.
Proof.
  unfold pattern. cbn [group_lang Regex.cat Regex.lit digits blanks datetime].
  intros H. pick_group. unfold blanks in H. cbn [lang] in H.
  destruct H as (w1 & w2 & Hv & H1 & d1 & w3 & -> & Hd1 & w4 & d2 & -> & -> & Hd2).
  subst v.
  destruct H1 as (a & a' & -> & -> & ->).
  apply lang_rep_cls in Hd1 as [Hlen Hd1].
  exists d1, d2. by destruct Hd2.
Qed.

Lemma days_lang (v : string) :
  group_lang pattern "days" v → v ≠ "" ∧ all_chars Regex.cls_day v = true.
Proof.
  unfold pattern. cbn [group_lang Regex.cat Regex.lit digits blanks datetime].
  intros H. pick_group. exact H.
Qed.

Lemma fee_lang (v : string) :
  group_lang pattern "fee" v
  → ∃ whole frac, v = whole +:+ frac
      ∧ whole ≠ "" ∧ all_chars Regex.cls_d whole = true
      ∧ (frac = ""
         ∨ ∃ d, frac = "." +:+ d ∧ d ≠ "" ∧ all_chars Regex.cls_d d = true).
Proof.
  unfold pattern. cbn [group_lang Regex.cat Regex.lit digits blanks datetime].
  intros H. pick_group. unfold blanks in H. cbn [lang] in H.
  destruct H as (whole & frac & Hv & Hw & Hfrac). subst v. destruct Hw as [Hne Hw].
  exists whole, frac. split_and!; [done | done | done |].
  destruct Hfrac as [(w1 & d & -> & -> & Hd) | ->]; [right | by left].
  exists d. by destruct Hd.
Qed.

Lemma schedule_lang (v : string) :
  group_lang pattern "schedule" v → String.length v = 11%nat.
Proof.
  unfold pattern. cbn [group_lang Regex.cat Regex.lit digits blanks datetime].
  intros H. pick_group. unfold blanks in H. cbn [lang] in H.
  destruct H as (a & ? & Hv & Ha & ? & ? & -> & -> & b & ? & -> & Hb
                 & ? & ? & -> & -> & c & ? & -> & Hc & ? & d & -> & -> & Hd).
  subst v.
  apply lang_rep_cls in Ha as [Ha _], Hb as [Hb _], Hc as [Hc _], Hd as [Hd _].
  rewrite !length_append, Ha, Hb, Hc, Hd. done.
Qed.

Lemma fallback_group (text : string) (s : Session) :
  s ∈ fallback_extract_sessions text
  → ∃ g, s = session_of_match g
         ∧ ∀ name, binds pattern name = true
             → group_lang pattern name (Regex.group g name)
               ∧ substring_of (Regex.group g name) text.
Proof.
  unfold fallback_extract_sessions.
  intros (g & -> & Hg)%list_elem_of_fmap. exists g. split; [done |].
  intros name Hb. by destruct (match_groups pattern text g name Hg Hb) as (v & <- & ? & ?).
Qed.

(** X17. The fields of every session of the fallback extractor have the
    shape that the pattern asks for: the location is "INLL", white space
    and a word; the schedule has eleven characters; the days are letters
    and hyphens; the fee is digits with an optional fraction; the
    reference is "FR", four digits, a hyphen and digits.  Each captured
    field occurs in the text. *)
Theorem fallback_session_shape (text : string) (s : Session) :
  s ∈ fallback_extract_sessions text
  → (∃ ws word,
        location s = "INLL" +:+ ws +:+ word
        ∧ ws ≠ "" ∧ all_chars Regex.cls_s ws = true
        ∧ word ≠ "" ∧ all_chars Regex.cls_w word = true)
    ∧ String.length (schedule s) = 11%nat
    ∧ (days s ≠ "" ∧ all_chars Regex.cls_day (days s) = true)
    ∧ (∃ whole frac,
          fee s = whole +:+ frac
          ∧ whole ≠ "" ∧ all_chars Regex.cls_d whole = true
          ∧ (frac = ""
             ∨ ∃ d, frac = "." +:+ d ∧ d ≠ "" ∧ all_chars Regex.cls_d d = true))
    ∧ (∃ d1 d2,
          reference s = "FR" +:+ d1 +:+ "-" +:+ d2
          ∧ String.length d1 = 4%nat ∧ all_chars Regex.cls_d d1 = true
          ∧ d2 ≠ "" ∧ all_chars Regex.cls_d d2 = true)
    ∧ Forall (fun field => substring_of field text)
        [location s; schedule s; days s; start_date s; end_date s; fee s;
         reference s].
Proof.
  intros (g & -> & Hg)%fallback_group.
  pose proof (Hg "location" eq_refl) as [Hloc Sloc].
  pose proof (Hg "schedule" eq_refl) as [Hsch Ssch].
  pose proof (Hg "days" eq_refl) as [Hdays Sdays].
  pose proof (Hg "start" eq_refl) as [_ Sstart].
  pose proof (Hg "end" eq_refl) as [_ Send].
  pose proof (Hg "fee" eq_refl) as [Hfee Sfee].
  pose proof (Hg "reference" eq_refl) as [Href Sref].
  cbn [session_of_match location schedule days start_date end_date fee reference].
  split_and!.
  - by apply location_lang.
  - by apply schedule_lang.
  - by apply days_lang.
  - by apply days_lang.
  - by apply fee_lang.
  - by apply reference_lang.
  - repeat constructor; done.
Qed.

Lemma fallback_session_shape_witness :
  let text :=
    "Course full. INLL Belval 18:00-20:00 Mon-Fri 2024-09-01 00:00:00 2024-12-01 00:00:00 450.50 FR0074-7681 full" in
  ∃ s, s ∈ fallback_extract_sessions text
       ∧ location s = "INLL Belval"
       ∧ fee s = "450.50"
       ∧ ∃ d1 d2,
           reference s = "FR" +:+ d1 +:+ "-" +:+ d2
           ∧ String.length d1 = 4%nat ∧ all_chars Regex.cls_d d1 = true
           ∧ d2 ≠ "" ∧ all_chars Regex.cls_d d2 = true.
Proof.
  intros text.
  assert (E : ∃ s, fallback_extract_sessions text = [s]
                   ∧ location s = "INLL Belval" ∧ fee s = "450.50").
  { eexists. by vm_compute. }
  destruct E as (s & E & Hl & Hf). exists s.
  assert (Hin : s ∈ fallback_extract_sessions text).
  { rewrite E. apply list_elem_of_here. }
  split_and!; [exact Hin | exact Hl | exact Hf |].
  exact (proj1 (proj2 (proj2 (proj2 (proj2 (fallback_session_shape text s Hin)))))).
Defined.

(** X18. The fallback extractor finds nothing in a text that lacks
    "INLL" or lacks "FR", in this letter case. *)
Theorem fallback_needs_marker (text : string) :
  contains "INLL" text = false ∨ contains "FR" text = false
  → fallback_extract_sessions text = [].
Proof.
  intros Hno. destruct (fallback_extract_sessions text) as [|s l] eqn:E; [done |].
  exfalso.
  assert (Hin : s ∈ fallback_extract_sessions text).
  { rewrite E. apply list_elem_of_here. }
  apply fallback_group in Hin as (g & -> & Hg).
  destruct Hno as [Hno | Hno].
  - destruct (Hg "location" eq_refl) as [(ws & word & Hv & _)%location_lang Hsub].
    assert (Hc : contains "INLL" text = true); [| congruence].
    apply contains_spec. destruct Hsub as (p & q & ->). rewrite Hv.
    exists p, ((ws +:+ word) +:+ q). by rewrite !append_assoc.
  - destruct (Hg "reference" eq_refl) as [(d1 & d2 & Hv & _)%reference_lang Hsub].
    assert (Hc : contains "FR" text = true); [| congruence].
    apply contains_spec. destruct Hsub as (p & q & ->). rewrite Hv.
    exists p, ((d1 +:+ "-" +:+ d2) +:+ q). by rewrite !append_assoc.
Qed.

Lemma fallback_needs_marker_witness :
  (contains "INLL"
     "inll Belval 18:00-20:00 Mon-Fri 2024-09-01 00:00:00 2024-12-01 00:00:00 450 FR0074-7681"
   = false
   ∨ contains "FR"
       "inll Belval 18:00-20:00 Mon-Fri 2024-09-01 00:00:00 2024-12-01 00:00:00 450 FR0074-7681"
     = false)
  ∧ fallback_extract_sessions
      "inll Belval 18:00-20:00 Mon-Fri 2024-09-01 00:00:00 2024-12-01 00:00:00 450 FR0074-7681"
    = [].
Proof.
  assert (H : contains "INLL"
     "inll Belval 18:00-20:00 Mon-Fri 2024-09-01 00:00:00 2024-12-01 00:00:00 450 FR0074-7681"
   = false
   ∨ contains "FR"
       "inll Belval 18:00-20:00 Mon-Fri 2024-09-01 00:00:00 2024-12-01 00:00:00 450 FR0074-7681"
     = false) by (left; by vm_compute).
  split; [exact H |]. exact (fallback_needs_marker _ H).
Defined.

End FallbackFacts.

(** ** What the renderers print *)

Module OutputFacts.

Import Py Text TextFacts Json Checker CheckerRest MapperFacts JsonFacts
  NormalizeFacts ReferenceFacts.

Lemma hex_digit_printable (d : N) :
  (d < 16)%N → printable (hex_digit d) = true.
Proof.
  intros Hd.
  assert (H : d ∈ [0; 1; 2; 3; 4; 5; 6; 7; 8; 9; 10; 11; 12; 13; 14; 15]%N).
  { rewrite !elem_of_cons. lia. }
  rewrite !elem_of_cons in H.
  repeat (destruct H as [-> | H]; [reflexivity |]).
  by apply elem_of_nil in H.
Qed.

Lemma hex4_printable (n : N) :
  (n < 65536)%N → all_chars printable (hex4 n) = true.
Proof.
  intros Hn. unfold hex4. cbn [all_chars].
  assert (H1 : (n / 4096 < 16)%N) by (apply N.Div0.div_lt_upper_bound; lia).
  pose proof (N.mod_lt (n / 256) 16 ltac:(done)) as H2.
  pose proof (N.mod_lt (n / 16) 16 ltac:(done)) as H3.
  pose proof (N.mod_lt n 16 ltac:(done)) as H4.
  by rewrite !hex_digit_printable.
Qed.

Lemma escape_char_printable (c : N) :
  Unicode.is_code_point c → all_chars printable (escape_char c) = true.
Proof.
  intros Hc. unfold escape_char.
  repeat match goal with
         | |- context [(c =? ?k)%N] => destruct (c =? k)%N; [done |]
         end.
  destruct ((32 <=? c)%N && (c <=? 126)%N) eqn:Hp.
  { apply andb_true_iff in Hp as [Hlo%N.leb_le Hhi%N.leb_le].
    cbn [all_chars]. unfold printable, in_range.
    rewrite code_ascii_of_N by lia.
    assert (H1 : (32 <=? c)%N = true) by by apply N.leb_le.
    assert (H2 : (c <=? 126)%N = true) by by apply N.leb_le.
    by rewrite H1, H2. }
  destruct (N.ltb_spec c 65536) as [Hb | Hb].
  - by rewrite all_chars_app, hex4_printable.
  - unfold Unicode.is_code_point in Hc.
    destruct (high_half_high c Hb Hc) as [_ Hh].
    destruct (low_half_low c) as [_ Hl].
    by rewrite !all_chars_app, !hex4_printable.
Qed.

Lemma escape_printable (s : Unicode.str) :
  Unicode.is_str s → all_chars printable (escape s) = true.
Proof.
  induction 1 as [|c s Hc Hs IH]; [done |]. cbn [escape].
  by rewrite all_chars_app, escape_char_printable, IH.
Qed.

Lemma encode_string_printable (s : Unicode.str) :
  Unicode.is_str s → all_chars printable (encode_string s) = true.
Proof.
  intros Hs. unfold encode_string. cbn [all_chars].
  by rewrite all_chars_app, escape_printable.
Qed.

Lemma all_chars_join (p : ascii → bool) (sep : string) (l : list string) :
  all_chars p sep = true
  → Forall (fun x => all_chars p x = true) l
  → all_chars p (join sep l) = true.
Proof.
  intros Hsep. induction 1 as [|x l Hx Hl IH]; [done |].
  cbn [join]. destruct l as [|y l]; [done |].
  by rewrite !all_chars_app, Hx, Hsep, IH.
Qed.

Lemma spaces_printable (n : nat) : all_chars printable (spaces n) = true.
Proof. induction n as [|n IH]; [done |]. done. Qed.

Lemma newline_indent_printable (level : nat) :
  all_chars printable (newline_indent level) = true.
Proof. unfold newline_indent. cbn [all_chars]. by rewrite spaces_printable. Qed.

Lemma dumps_dict_printable (level : nat) (d : list (Unicode.str * Unicode.str)) :
  Forall is_entry d → all_chars printable (dumps_dict level d) = true.
Proof.
  intros Hd. destruct d as [|kv d]; [done |]. unfold dumps_dict.
  rewrite !all_chars_app, !newline_indent_printable.
  rewrite all_chars_join; [done | |].
  - by rewrite all_chars_app, newline_indent_printable.
  - apply Forall_forall. intros x [kv' [-> Hin]]%list_elem_of_fmap.
    eapply Forall_forall in Hd as [Hk Hv]; [| exact Hin].
    unfold member_text. by rewrite !all_chars_app, !encode_string_printable.
Qed.

Lemma dumps_printable (ds : list (list (Unicode.str * Unicode.str))) :
  Forall (Forall is_entry) ds → all_chars printable (dumps ds) = true.
Proof.
  intros Hds. destruct ds as [|d ds]; [done |]. unfold dumps.
  rewrite !all_chars_app, !newline_indent_printable.
  rewrite all_chars_join; [done | |].
  - by rewrite all_chars_app, newline_indent_printable.
  - apply Forall_forall. intros x [d' [-> Hin]]%list_elem_of_fmap.
    apply dumps_dict_printable. by eapply Forall_forall in Hds.
Qed.

(** The same for sessions over all of [str]. *)
Lemma wide_json_output_is_ascii (sessions : list Wide.Session) :
  Forall is_session sessions
  → all_chars printable
      (stdout_of (events (Wide.output_sessions_json sessions))) = true.
Proof.
  intros Hs. unfold Wide.output_sessions_json. cbn [emit events fst stdout_of].
  rewrite all_chars_app, dumps_printable; [done |].
  apply Forall_forall. intros d [s [-> Hin]]%list_elem_of_fmap.
  apply asdict_entries. by eapply Forall_forall in Hs.
Qed.

(** X19. What [--format json] prints is plain ASCII: every character of
    the output is a printable ASCII character or a line break, whatever
    characters the sessions hold. *)
Theorem json_output_is_ascii (sessions : list Session) :
  all_chars printable (stdout_of (events (output_sessions_json sessions))) = true.
Proof.
  unfold output_sessions_json. apply wide_json_output_is_ascii.
  apply Forall_forall. intros w [s [-> _]]%list_elem_of_fmap.
  apply widen_is_session.
Qed.

Lemma normalized_one_line (cell : string) :
  normalize_space cell = cell → all_chars not_newline cell = true.
Proof.
  intros <-. unfold normalize_space.
  eapply all_chars_impl; [| apply plain_join_words, split_ws_words].
  intros c. unfold plain, not_space, not_newline.
  intros [Hc | Hc]%orb_true_iff.
  - case_bool_decide as Hn; [| done]. subst c. by vm_compute in Hc.
  - apply bool_decide_eq_true in Hc as ->. done.
Qed.

Lemma cell_at_one_line (cells : list string) (idx : option nat) :
  Forall (fun cell => normalize_space cell = cell) cells
  → all_chars not_newline (cell_at cells idx) = true.
Proof.
  intros Hall. destruct idx as [i|]; [| done]. cbn [cell_at].
  destruct (cells !! i) as [cell|] eqn:Hi; [| done]. cbn.
  apply normalized_one_line. eapply Forall_forall in Hall; [done |].
  by eapply list_elem_of_lookup_2.
Qed.

Lemma text_line_one_line (headers_l : list string) (r : row) :
  Forall (fun cell => normalize_space cell = cell) r.1
  → all_chars not_newline (text_line (session_of_row headers_l r)) = true.
Proof.
  intros Hall. unfold text_line.
  cbn [session_of_row reference location schedule days start_date end_date fee
       availability].
  rewrite !all_chars_app, !cell_at_one_line by done.
  unfold classify_availability. by destruct (any_in _ _).
Qed.

Lemma print_lines_events (lines : list string) :
  print_lines lines = (map Printed lines, Ok tt).
Proof.
  induction lines as [|l lines IH]; [done |]. cbn [print_lines]. by rewrite IH.
Qed.

Lemma split_stdout (lines : list string) :
  Forall (fun l => all_chars not_newline l = true) lines
  → split newline (stdout_of (map Printed lines)) = lines ++ [""].
Proof.
  induction 1 as [|l lines Hl _ IH]; [done |].
  cbn [map stdout_of app]. by rewrite split_word_sep, IH.
Qed.

(** X20. For a table with data rows whose cells are white-space
    normalized, as [extract_tables] produces them, the text rendering
    prints exactly one line per row: the sessions are as many as the rows,
    and cutting the output at the line breaks gives back the rendered
    lines, followed by the empty rest after the last line break. *)
Theorem table_text_output (headers : list string) (rows : list row) :
  rows ≠ []
  → Forall (fun r : row => Forall (fun cell => normalize_space cell = cell) r.1) rows
  → ∃ sessions : list Session,
      outcome (build_sessions_from_table headers rows) = Ok sessions
      ∧ length sessions = length rows
      ∧ split newline (stdout_of (events (output_sessions_text sessions)))
        = map text_line sessions ++ [""].
Proof.
  intros Hne Hall. rewrite build_sessions_from_table_pure.
  eexists. split; [done |]. split; [by rewrite length_map |].
  destruct rows as [|r rows]; [done |]. cbn [map output_sessions_text].
  rewrite print_lines_events. cbn [events fst].
  apply (split_stdout (text_line (session_of_row (map lower headers) r)
                       :: map text_line (map (session_of_row (map lower headers)) rows))).
  apply Forall_cons in Hall as [Hr Hrows]. constructor.
  - by apply text_line_one_line.
  - apply Forall_forall. intros l [s [-> [r' [-> Hr']]%list_elem_of_fmap]]%list_elem_of_fmap.
    apply text_line_one_line. by eapply Forall_forall in Hrows.
Qed.

Lemma table_text_output_witness :
  let headers := ["Location"; "Reference"] in
  let rows : list row :=
    [(["INLL Belval"; "FR0074-7681"], "Book");
     (["INLL Mersch"; "FR0074-7682"], "Full")] in
  rows ≠ []
  ∧ Forall (fun r : row => Forall (fun cell => normalize_space cell = cell) r.1) rows
  ∧ ∃ sessions : list Session,
      outcome (build_sessions_from_table headers rows) = Ok sessions
      ∧ length sessions = length rows
      ∧ split newline (stdout_of (events (output_sessions_text sessions)))
        = map text_line sessions ++ [""].
Proof.
  intros headers rows.
  assert (Hne : rows ≠ []) by done.
  assert (Hall : Forall (fun r : row =>
                   Forall (fun cell => normalize_space cell = cell) r.1) rows).
  { repeat constructor; by vm_compute. }
  split_and!; [exact Hne | exact Hall |].
  exact (table_text_output headers rows Hne Hall).
Defined.

End OutputFacts.
